(** * future: futures over goroutines, channels and contexts

    A model of package [future] (src/future/future.go): [Result], the
    [channelFuture] behind [New] with its methods [Async], [Await] and
    [AwaitWithTimeout], and the combinators [Then], [AllOf] and [AnyOf].

    Goroutines are modelled by interleaving: every machine below has a
    state, a type of events (one atomic action of one goroutine, or of the
    environment: a cancellation of the caller's context, a timer) and a
    partial step function that says when an event is enabled.  A run is a
    list of events; statements that hold "whatever the scheduler does"
    quantify over all runs. *)

From stdpp Require Import base option list strings.

Set Default Proof Using "Type".

(** ** Errors, results, zero values *)

(** The [error] values the package produces or relays.  [Canceled] and
    [DeadlineExceeded] are [context.Canceled] and
    [context.DeadlineExceeded]; [Failure] is any error a wrapped function
    returns.  A Go [error] is [option err], with [None] for [nil]. *)
Inductive err :=
  | Canceled
  | DeadlineExceeded
  | Failure (msg : string).

Definition error := option err.

#[global] Instance err_eq_dec : EqDecision err.
Proof. solve_decision. Defined.

(** [type Result[T, E any] struct { Value T; Error E }], at [E := error]. *)
Record Result (T : Type) := mkResult { Value : T; Error : error }.
Arguments mkResult {T} _ _.
Arguments Value {T} _.
Arguments Error {T} _.

(** The zero value of a Go type: [var empty U], and every field a
    composite literal leaves out. *)
Class Zero (T : Type) := zero : T.
#[global] Hint Mode Zero ! : typeclass_instances.

#[global] Instance nat_zero : Zero nat := 0.
#[global] Instance string_zero : Zero string := EmptyString.
(** The zero value of a slice type is [nil], the slice of length 0. *)
#[global] Instance slice_zero {T} : Zero (list T) := [].
#[global] Instance error_zero : Zero error := None.
#[global] Instance Result_zero {T} `{!Zero T} : Zero (Result T) :=
  mkResult zero None.

(** ** Contexts

    What the package observes of a [context.Context] is [Err()]: [nil]
    until the context is done, and from then on the reason, which never
    changes.  [Done()] is ready exactly when [Err()] is not [nil]. *)
Definition Ctx := error.

Definition Err (ctx : Ctx) : error := ctx.

Definition Done (ctx : Ctx) : bool :=
  match ctx with Some _ => true | None => false end.

(** [context.WithCancel(parent)]: the child of a parent that is already
    done is done at once, with the parent's reason. *)
Definition WithCancel (parent : Ctx) : Ctx := parent.

(** The [CancelFunc] of a derived context: the first call sets the reason
    to [Canceled], later calls do nothing. *)
Definition cancel (ctx : Ctx) : Ctx :=
  match ctx with None => Some Canceled | Some e => Some e end.

(** A parent that becomes done with reason [e] cancels each child that is
    not done yet, with the same reason. *)
Definition propagate (e : err) (child : Ctx) : Ctx :=
  match child with None => Some e | Some e' => Some e' end.

(** ** Channels *)
Module chan.
Record t (A : Type) := mk { buf : list A; cap : nat; closed : bool }.
Arguments mk {A} _ _ _.
Arguments buf {A} _.
Arguments cap {A} _.
Arguments closed {A} _.

(** What one channel operation does when it is attempted. *)
Inductive outcome (A : Type) :=
  | Ok (a : A)
  | Blocks
  | Panics.
Arguments Ok {A} _.
Arguments Blocks {A}.
Arguments Panics {A}.

(** [make(chan A, n)] *)
Definition make {A} (n : nat) : t A := mk [] n false.

(** [c <- x] on a buffered channel: a send on a closed channel panics, a
    send on a full buffer blocks. *)
Definition send {A} (c : t A) (x : A) : outcome (t A) :=
  if closed c then Panics
  else if bool_decide (length (buf c) < cap c)
       then Ok (mk (buf c ++ [x]) (cap c) false)
       else Blocks.

(** [<-c]: the oldest buffered value; on a closed and drained channel the
    zero value; otherwise the receive blocks. *)
Definition recv {A} `{!Zero A} (c : t A) : outcome (A * t A) :=
  match buf c with
  | x :: q => Ok (x, mk q (cap c) (closed c))
  | [] => if closed c then Ok (zero, c) else Blocks
  end.

(** [close(c)] *)
Definition close {A} (c : t A) : outcome (t A) :=
  if closed c then Panics else Ok (mk (buf c) (cap c) true).
End chan.

(** ** Runs of a machine

    [exec step s tr] is the state after the events [tr], when each of them
    is enabled in turn. *)
Fixpoint exec {S E} (step : S → E → option S) (s : S) (tr : list E) : option S :=
  match tr with
  | [] => Some s
  | ev :: tr => s' ← step s ev; exec step s' tr
  end.

(** ** Functions run by a future

    A [func() (T, error)] may block, start goroutines and wait for them, so
    it is a machine of its own: [fstart] is its state when it is called,
    [fstep] its events, and [freturn s] is [Some (value, err)] once it has
    returned [value, err]. *)
Record func (T : Type) := Func {
  fstate : Type;
  fevent : Type;
  fstart : fstate;
  fstep : fstate → fevent → option fstate;
  freturn : fstate → option (T * error);
}.
Arguments Func {T} _ _ _ _ _.
Arguments fstate {T} _.
Arguments fevent {T} _.
Arguments fstart {T} _.
Arguments fstep {T} _ _ _.
Arguments freturn {T} _ _.

(** [func() (T, error) { return value, err }] *)
Definition ret {T} (value : T) (err : error) : func T :=
  Func unit Empty_set () (λ _ ev, match ev with end) (λ _, Some (value, err)).

(** [func() (T, error) { time.Sleep(d); return value, err }], as the
    functions of [Test_Future_TimeoutExceeded]: the sleep is [k] events of
    the function, after which it has returned. *)
Definition ret_after {T} (k : nat) (value : T) (err : error) : func T :=
  Func nat unit 0
    (λ s _, if bool_decide (s < k) then Some (S s) else None)
    (λ s, if bool_decide (k ≤ s) then Some (value, err) else None).

(** ** channelFuture *)

(** [type channelFuture[T any] struct { fn func() (T, error) }] *)
Record channelFuture (T : Type) := mkChannelFuture { fn : func T }.
Arguments mkChannelFuture {T} _.
Arguments fn {T} _.

(** [func New[T any](fn func() (T, error)) Future[T, error]] *)
Definition New {T} (fn : func T) : channelFuture T := mkChannelFuture fn.

(** The goroutine that [Async] starts. *)
Inductive task {T} (cf : channelFuture T) :=
  | AtSelect                          (* created, before its [select] *)
  | InFn (s : fstate (fn cf))         (* [default]: inside [cf.fn()] *)
  | Exited                            (* result sent, channel closed *)
  | Panicked.
Arguments AtSelect {T cf}.
Arguments InFn {T cf} _.
Arguments Exited {T cf}.
Arguments Panicked {T cf}.

(** The caller of [Await] or [AwaitWithTimeout], after [Async] returned. *)
Inductive caller (T : Type) :=
  | Waiting
  | Returned (result : Result T).
Arguments Waiting {T}.
Arguments Returned {T} _.

Record machine {T} (cf : channelFuture T) := Machine {
  scope : Ctx;                     (* the method's argument [ctx] *)
  ctx : Ctx;                       (* [ctx, cancel := context.WithCancel(ctx)] *)
  resultCh : chan.t (Result T);    (* [make(chan Result[T, error], 1)] *)
  go : task cf;
  timer : bool;                    (* [time.After(timeout)] has fired *)
  await : caller T;
}.
Arguments Machine {T cf} _ _ _ _ _ _.
Arguments scope {T cf} _.
Arguments ctx {T cf} _.
Arguments resultCh {T cf} _.
Arguments go {T cf} _.
Arguments timer {T cf} _.
Arguments await {T cf} _.

(** [Async]: derive the context, make the channel, start the goroutine and
    return to the caller, which then waits. *)
Definition Async {T} (cf : channelFuture T) (ctx : Ctx) : machine cf :=
  Machine ctx (WithCancel ctx) (chan.make 1) AtSelect false Waiting.

Inductive method := Await | AwaitWithTimeout.

Inductive event {T} (cf : channelFuture T) :=
  | ScopeCancelled (e : err)     (* environment: the caller's ctx is done, [Err() = e] *)
  | TimerFired                   (* environment: [time.After(timeout)] delivers *)
  | GoSelect                     (* goroutine: the [select] of [Async] *)
  | GoFn (ev : fevent (fn cf))   (* goroutine: one event of [cf.fn()] *)
  | GoReturn                     (* goroutine: [cf.fn()] returns, the result is sent *)
  | RecvResult                   (* caller: [<-resultCh] *)
  | RecvDone                     (* caller: [case <-ctx.Done()] *)
  | RecvTimer.                   (* caller: [case <-time.After(timeout)] *)
Arguments ScopeCancelled {T cf} _.
Arguments TimerFired {T cf}.
Arguments GoSelect {T cf}.
Arguments GoFn {T cf} _.
Arguments GoReturn {T cf}.
Arguments RecvResult {T cf}.
Arguments RecvDone {T cf}.
Arguments RecvTimer {T cf}.

(** [resultCh <- result], then the deferred [close(resultCh)]. *)
Definition deliver {T} {cf : channelFuture T} (m : machine cf) (result : Result T)
    : option (machine cf) :=
  match chan.send (resultCh m) result with
  | chan.Ok c =>
      match chan.close c with
      | chan.Ok c' => Some (Machine (scope m) (ctx m) c' Exited (timer m) (await m))
      | chan.Blocks => None
      | chan.Panics => Some (Machine (scope m) (ctx m) c Panicked (timer m) (await m))
      end
  | chan.Blocks => None
  | chan.Panics => Some (Machine (scope m) (ctx m) (resultCh m) Panicked (timer m) (await m))
  end.

(** The goroutine of [Async]:
<<
	go func() {
		defer close(resultCh)
		select {
		case <-ctx.Done():
			resultCh <- Result[T, error]{Error: ctx.Err()}
		default:
			value, err := cf.fn()
			resultCh <- Result[T, error]{Value: value, Error: err}
		}
	}()
>>
    A [select] with a [default] takes the [ctx.Done()] case exactly when
    it is ready.  The events of [cf.fn()] are those of the call: once it
    has returned, the next action of the goroutine is the send. *)
Definition go_step {T} `{!Zero T} {cf : channelFuture T} (m : machine cf) (ev : event cf)
    : option (machine cf) :=
  match ev, go m with
  | GoSelect, AtSelect =>
      if Done (ctx m) then deliver m (mkResult zero (Err (ctx m)))
      else Some (Machine (scope m) (ctx m) (resultCh m) (InFn (fstart (fn cf))) (timer m) (await m))
  | GoFn ev, InFn s =>
      match freturn (fn cf) s with
      | None =>
          s' ← fstep (fn cf) s ev;
          Some (Machine (scope m) (ctx m) (resultCh m) (InFn s') (timer m) (await m))
      | Some _ => None
      end
  | GoReturn, InFn s =>
      '(value, err) ← freturn (fn cf) s;
      deliver m (mkResult value err)
  | _, _ => None
  end.

(** The caller's side of [Await]: [return <-resultCh]. *)
Definition Await_step {T} `{!Zero T} {cf : channelFuture T} (m : machine cf) (ev : event cf)
    : option (machine cf) :=
  match ev with
  | RecvResult =>
      match chan.recv (resultCh m) with
      | chan.Ok (result, c) =>
          Some (Machine (scope m) (ctx m) c (go m) (timer m) (Returned result))
      | _ => None
      end
  | _ => None
  end.

(** The caller's side of [AwaitWithTimeout]:
<<
	select {
	case <-ctx.Done():
		return Result[T, error]{Error: ctx.Err()}
	case result := <-resultCh:
		return result
	case <-time.After(timeout):
		cancel()
		return Result[T, error]{Error: context.DeadlineExceeded}
	}
>>
    Each case is enabled when its channel is ready; which of several ready
    cases runs is the run's choice. *)
Definition AwaitWithTimeout_step {T} `{!Zero T} {cf : channelFuture T}
    (m : machine cf) (ev : event cf) : option (machine cf) :=
  match ev with
  | RecvDone =>
      if Done (scope m)
      then Some (Machine (scope m) (ctx m) (resultCh m) (go m) (timer m)
                   (Returned (mkResult zero (Err (scope m)))))
      else None
  | RecvResult =>
      match chan.recv (resultCh m) with
      | chan.Ok (result, c) =>
          Some (Machine (scope m) (ctx m) c (go m) (timer m) (Returned result))
      | _ => None
      end
  | RecvTimer =>
      if timer m
      then Some (Machine (scope m) (cancel (ctx m)) (resultCh m) (go m) (timer m)
                   (Returned (mkResult zero (Some DeadlineExceeded))))
      else None
  | _ => None
  end.

(** One event of a call [cf.Await(ctx)] or [cf.AwaitWithTimeout(ctx, d)]. *)
Definition step {T} `{!Zero T} (cf : channelFuture T) (op : method)
    (m : machine cf) (ev : event cf) : option (machine cf) :=
  match ev with
  | ScopeCancelled e =>
      if Done (scope m) then None
      else Some (Machine (Some e) (propagate e (ctx m)) (resultCh m) (go m) (timer m) (await m))
  | TimerFired =>
      match op with
      | AwaitWithTimeout =>
          if timer m then None
          else Some (Machine (scope m) (ctx m) (resultCh m) (go m) true (await m))
      | Await => None
      end
  | GoSelect | GoFn _ | GoReturn => go_step m ev
  | RecvResult | RecvDone | RecvTimer =>
      match await m with
      | Waiting =>
          match op with
          | Await => Await_step m ev
          | AwaitWithTimeout => AwaitWithTimeout_step m ev
          end
      | Returned _ => None
      end
  end.

(** The runs of a method call, and what it has returned. *)
Definition run {T} `{!Zero T} (cf : channelFuture T) (op : method) (ctx : Ctx)
    (tr : list (event cf)) : option (machine cf) :=
  exec (step cf op) (Async cf ctx) tr.

(** The events of [cf.fn()] in a run, and what [fn] has returned after
    given events of its own. *)
Definition fn_events {T} {cf : channelFuture T} (tr : list (event cf))
    : list (fevent (fn cf)) :=
  omap (λ ev, match ev with GoFn ev => Some ev | _ => None end) tr.

Definition result_of {T} (fn : func T) (tr : list (fevent fn)) : option (T * error) :=
  s ← exec (fstep fn) (fstart fn) tr; freturn fn s.

(** A Result whose value is the zero value when its error is set, and a
    function that returns the zero value with every error. *)
Definition zero_on_error {T} `{!Zero T} (r : Result T) : Prop :=
  is_Some (Error r) → Value r = zero.

Definition returns_zero_on_error {T} `{!Zero T} (f : func T) : Prop :=
  ∀ ftr value e, result_of f ftr = Some (value, Some e) → value = zero.

(** The caller's context is not cancelled in the run. *)
Definition live {T} {cf : channelFuture T} (ev : event cf) : Prop :=
  match ev with ScopeCancelled _ => False | _ => True end.

Example Await_42 :
  await <$> run (New (ret 42 None)) Await None [GoSelect; GoReturn; RecvResult]
  = Some (Returned (mkResult 42 None)).
Proof. reflexivity. Qed.

(** ** Then *)

(** The function literal of [Then] after [f.Await(ctx)] has returned
    [result]:
<<
		if result.Error != nil {
			var empty U
			return empty, result.Error
		}
		return fn(result.Value)
>>
    The first component lists the arguments [fn] is called with. *)
Definition Then_body {T U} `{!Zero U} (fn : T → U * error) (result : Result T)
    : list T * (U * error) :=
  match Error result with
  | Some e => ([], (zero, Some e))
  | None => ([Value result], fn (Value result))
  end.

(** [Then(f, ctx, fn)]: a new future whose function awaits [f] on [ctx],
    so its events are those of [f.Await(ctx)], and then runs the body
    above. *)
Definition Then {T U} `{!Zero T, !Zero U}
    (f : channelFuture T) (ctx : Ctx) (fn : T → U * error) : channelFuture U :=
  New (Func (machine f) (event f) (Async f ctx) (step f Await)
         (λ m, match await m with
               | Returned result => Some (Then_body fn result).2
               | Waiting => None
               end)).

(** ** The interface Future, as the combinators use it

    [AllOf] and [AnyOf] receive values of the interface [Future] and call
    their [Async].  What the channel of such a future delivers, and when,
    belongs to the run (the event [Deliver] of the machines below).  As
    in [channelFuture.Async], [Async] derives a context from the one it is
    given, and the channel it returns has room for the one result and is
    closed after it. *)
Module Future.

(** A future after [f.Async(ctx)]: the context derived for it, and
    [rCh]. *)
Abbreviation running T := (Ctx * chan.t (Result T))%type.

Definition Async {T} (ctx : Ctx) : running T := (WithCancel ctx, chan.make 1).

(** The future sends [r] and closes the channel; it does so once. *)
Definition deliver {T} (a : running T) (r : Result T) : option (running T) :=
  match chan.send a.2 r with
  | chan.Ok c =>
      match chan.close c with
      | chan.Ok c' => Some (a.1, c')
      | _ => None
      end
  | _ => None
  end.

(** The context [Async] was given becomes done with reason [e]. *)
Definition finish {T} (e : err) (a : option (running T)) : option (running T) :=
  match a with
  | Some (fctx, rCh) => Some (propagate e fctx, rCh)
  | None => None
  end.

(** The channel of the [i]-th of several futures, once [Async] was called
    on it, and the context derived for it. *)
Definition rCh {T} (asyncs : list (option (running T))) (i : nat)
    : option (chan.t (Result T)) :=
  a ← asyncs !! i; snd <$> a.

Definition ctx {T} (asyncs : list (option (running T))) (i : nat) : option Ctx :=
  a ← asyncs !! i; fst <$> a.

End Future.

(** ** AllOf *)
Module allOf.

(** A goroutine [go func(i int, f Future[T, error]) {...}(i, f)]. *)
Inductive worker :=
  | Spawned        (* created, before [f.Async(ctx)] *)
  | Selecting      (* in its [select] *)
  | Gone.

#[global] Instance worker_eq_dec : EqDecision worker.
Proof. solve_decision. Defined.

(** [struct { index int; result Result[T, error] }] *)
Record indexed (T : Type) := Indexed { index : nat; result : Result T }.
Arguments Indexed {T} _ _.
Arguments index {T} _.
Arguments result {T} _.

#[global] Instance indexed_zero {T} `{!Zero T} : Zero (indexed T) :=
  Indexed 0 zero.

(** The function literal itself: in its second loop, with [i] and
    [values], or returned. *)
Inductive collector (T : Type) :=
  | Collecting (i : nat) (values : list T)
  | Finished (values : list T) (err : error).
Arguments Collecting {T} _ _.
Arguments Finished {T} _ _.

Record machine (T : Type) := Machine {
  scope : Ctx;                           (* the argument [ctx] of [AllOf] *)
  ctx : Ctx;                             (* [ctx, cancel := context.WithCancel(ctx)] *)
  resultCh : chan.t (indexed T);         (* [make(chan struct{...}, len(futures))] *)
  workers : list worker;
  asyncs : list (option (Future.running T));   (* [None] before [f.Async(ctx)] *)
  main : collector T;
  panicked : bool;                       (* a goroutine has panicked: the process is gone *)
}.
Arguments Machine {T} _ _ _ _ _ _ _.
Arguments scope {T} _.
Arguments ctx {T} _.
Arguments resultCh {T} _.
Arguments workers {T} _.
Arguments asyncs {T} _.
Arguments main {T} _.
Arguments panicked {T} _.

Inductive event (T : Type) :=
  | ScopeCancelled (e : err)            (* environment: the argument [ctx] is done *)
  | Dispatch (i : nat)                  (* worker [i]: [rCh, _ := f.Async(ctx)] *)
  | Deliver (i : nat) (r : Result T)    (* [futures[i]]: sends [r] on its [rCh], closes it *)
  | TakeResult (i : nat)                (* worker [i]: [case result := <-rCh], and the send *)
  | TakeDone (i : nat)                  (* worker [i]: [case <-ctx.Done(): return] *)
  | Collect.                            (* the second loop: one turn, or the [return] after it *)
Arguments ScopeCancelled {T} _.
Arguments Dispatch {T} _.
Arguments Deliver {T} _ _.
Arguments TakeResult {T} _.
Arguments TakeDone {T} _.
Arguments Collect {T}.

(** The state when the function literal reaches its second loop: context
    derived, channel made, one goroutine per future started,
    [values := make([]T, len(futures))]. *)
Definition start {T} `{!Zero T} (ctx : Ctx) (futures : nat) : machine T :=
  Machine ctx (WithCancel ctx) (chan.make futures)
    (replicate futures Spawned) (replicate futures None)
    (Collecting 0 (replicate futures zero)) false.

(** [ctx] becomes done with reason [e] unless it is done already, and so
    does every context derived from it. *)
Definition finish {T} (e : err) (m : machine T) : machine T :=
  Machine (scope m) (propagate e (ctx m)) (resultCh m) (workers m)
    (Future.finish e <$> asyncs m) (main m) (panicked m).

(** [return values, err] with the deferred calls, last first:
    [close(resultCh)], then [cancel()]. *)
Definition return_ {T} (m : machine T) (values : list T) (err : error) : machine T :=
  match chan.close (resultCh m) with
  | chan.Ok c =>
      let m' := finish Canceled m in
      Machine (scope m') (ctx m') c (workers m') (asyncs m') (Finished values err) false
  | _ =>
      Machine (scope m) (ctx m) (resultCh m) (workers m) (asyncs m) (main m) true
  end.

(** The second loop and the return after it:
<<
		for i := 0; i < len(futures); i++ {
			r := <-resultCh
			if r.result.Error != nil {
				cancel()
				return nil, r.result.Error
			}
			values[r.index] = r.result.Value
		}
		return values, nil
>>
    An index outside [values] panics. *)
Definition collect {T} `{!Zero T} (futures : nat) (m : machine T) : option (machine T) :=
  match main m with
  | Collecting i values =>
      if bool_decide (i < futures) then
        match chan.recv (resultCh m) with
        | chan.Ok (r, c) =>
            let m := Machine (scope m) (ctx m) c (workers m) (asyncs m) (main m) false in
            match Error (result r) with
            | Some e => Some (return_ (finish Canceled m) [] (Some e))
            | None =>
                if bool_decide (index r < length values)
                then Some (Machine (scope m) (ctx m) c (workers m) (asyncs m)
                             (Collecting (S i) (<[index r := Value (result r)]> values)) false)
                else Some (Machine (scope m) (ctx m) c (workers m) (asyncs m) (main m) true)
            end
        | _ => None
        end
      else Some (return_ m values None)
  | Finished _ _ => None
  end.

(** A goroutine of the first loop:
<<
			go func(i int, f Future[T, error]) {
				rCh, _ := f.Async(ctx)
				select {
				case result := <-rCh:
					resultCh <- struct{...}{index: i, result: result}
				case <-ctx.Done():
					return
				}
			}(i, f)
>>
    *)
Definition worker_step {T} `{!Zero T} (m : machine T) (ev : event T) : option (machine T) :=
  match ev with
  | Dispatch i =>
      match workers m !! i with
      | Some Spawned =>
          Some (Machine (scope m) (ctx m) (resultCh m) (<[i := Selecting]> (workers m))
                  (<[i := Some (Future.Async (ctx m))]> (asyncs m)) (main m) false)
      | _ => None
      end
  | TakeResult i =>
      match workers m !! i, asyncs m !! i with
      | Some Selecting, Some (Some (fctx, rCh)) =>
          match chan.recv rCh with
          | chan.Ok (result, rCh') =>
              match chan.send (resultCh m) (Indexed i result) with
              | chan.Ok c =>
                  Some (Machine (scope m) (ctx m) c (<[i := Gone]> (workers m))
                          (<[i := Some (fctx, rCh')]> (asyncs m)) (main m) false)
              | chan.Blocks => None
              | chan.Panics =>
                  Some (Machine (scope m) (ctx m) (resultCh m) (workers m)
                          (<[i := Some (fctx, rCh')]> (asyncs m)) (main m) true)
              end
          | _ => None
          end
      | _, _ => None
      end
  | TakeDone i =>
      match workers m !! i with
      | Some Selecting =>
          if Done (ctx m)
          then Some (Machine (scope m) (ctx m) (resultCh m) (<[i := Gone]> (workers m))
                       (asyncs m) (main m) false)
          else None
      | _ => None
      end
  | _ => None
  end.

(** One event of the function literal of [AllOf].  After a panic nothing
    runs. *)
Definition step {T} `{!Zero T} (futures : nat) (m : machine T) (ev : event T)
    : option (machine T) :=
  if panicked m then None else
  match ev with
  | ScopeCancelled e =>
      if Done (scope m) then None
      else let m' := finish e m in
           Some (Machine (Some e) (ctx m') (resultCh m') (workers m') (asyncs m') (main m') false)
  | Deliver i r =>
      match asyncs m !! i with
      | Some (Some a) =>
          a' ← Future.deliver a r;
          Some (Machine (scope m) (ctx m) (resultCh m) (workers m)
                  (<[i := Some a']> (asyncs m)) (main m) false)
      | _ => None
      end
  | Dispatch _ | TakeResult _ | TakeDone _ => worker_step m ev
  | Collect => collect futures m
  end.

Definition returned {T} (m : machine T) : option (list T * error) :=
  match main m with
  | Finished values err => Some (values, err)
  | Collecting _ _ => None
  end.

(** An event of a run in which the context is not cancelled and the
    future of each index [i] succeeds with [values[i]]. *)
Definition succeeds {T} (values : list T) (ev : event T) : Prop :=
  match ev with
  | ScopeCancelled _ => False
  | Deliver i r => values !! i = Some (Value r) ∧ Error r = None
  | _ => True
  end.

End allOf.

(** [AllOf(ctx, futures...)], for [futures] futures. *)
Definition AllOf {T} `{!Zero T} (ctx : Ctx) (futures : nat) : channelFuture (list T) :=
  New (Func (allOf.machine T) (allOf.event T) (allOf.start ctx futures)
         (allOf.step futures) allOf.returned).

(** An event of awaiting [AllOf(ctx, futures...)] when neither context is
    cancelled and the futures succeed with [values]. *)
Definition all_succeed {T} `{!Zero T} {ctx : Ctx} {futures : nat} (values : list T)
    (ev : event (AllOf (T:=T) ctx futures)) : Prop :=
  match ev with
  | ScopeCancelled _ => False
  | GoFn ev => allOf.succeeds values ev
  | _ => True
  end.

(** ** AnyOf *)
Module anyOf.

(** A goroutine [go func(f Future[T, error]) {...}(f)].  The operand
    [<-rCh] of the send case is evaluated on entering the [select], so the
    goroutine first waits for its future and then offers the result. *)
Inductive worker (T : Type) :=
  | Spawned                          (* created, before [f.Async(ctx)] *)
  | Receiving                        (* evaluating [<-rCh] *)
  | Offering (result : Result T)     (* in its [select] *)
  | Sent                             (* the send was chosen, before [cancel()] *)
  | Gone.
Arguments Spawned {T}.
Arguments Receiving {T}.
Arguments Offering {T} _.
Arguments Sent {T}.
Arguments Gone {T}.

(** The function literal itself. *)
Inductive collector (T : Type) :=
  | Waiting                              (* at [result := <-resultCh] *)
  | Received (result : Result T)
  | Finished (value : T) (err : error).
Arguments Waiting {T}.
Arguments Received {T} _.
Arguments Finished {T} _ _.

(** [resultCh] has no buffer, so it has no state: a send on it is a
    hand-over to the function literal waiting at its receive. *)
Record machine (T : Type) := Machine {
  scope : Ctx;                           (* the argument [ctx] of [AnyOf] *)
  ctx : Ctx;                             (* [ctx, cancel := context.WithCancel(ctx)] *)
  workers : list (worker T);
  asyncs : list (option (Future.running T));   (* [None] before [f.Async(ctx)] *)
  main : collector T;
}.
Arguments Machine {T} _ _ _ _ _.
Arguments scope {T} _.
Arguments ctx {T} _.
Arguments workers {T} _.
Arguments asyncs {T} _.
Arguments main {T} _.

Inductive event (T : Type) :=
  | ScopeCancelled (e : err)            (* environment: the argument [ctx] is done *)
  | Dispatch (i : nat)                  (* worker [i]: [rCh, _ := f.Async(ctx)] *)
  | Deliver (i : nat) (r : Result T)    (* [futures[i]]: sends [r] on its [rCh], closes it *)
  | Receive (i : nat)                   (* worker [i]: [<-rCh] *)
  | Send (i : nat)                      (* worker [i]: [case resultCh <- ...], received by the literal *)
  | Cancel (i : nat)                    (* worker [i]: [cancel()] after its send *)
  | TakeDone (i : nat)                  (* worker [i]: [case <-ctx.Done(): return] *)
  | Return.                             (* the literal: [return result.Value, result.Error] *)
Arguments ScopeCancelled {T} _.
Arguments Dispatch {T} _.
Arguments Deliver {T} _ _.
Arguments Receive {T} _.
Arguments Send {T} _.
Arguments Cancel {T} _.
Arguments TakeDone {T} _.
Arguments Return {T}.

Definition start {T} (ctx : Ctx) (futures : nat) : machine T :=
  Machine ctx (WithCancel ctx) (replicate futures Spawned) (replicate futures None) Waiting.

Definition finish {T} (e : err) (m : machine T) : machine T :=
  Machine (scope m) (propagate e (ctx m)) (workers m)
    (Future.finish e <$> asyncs m) (main m).

(** A goroutine of the loop:
<<
			go func(f Future[T, error]) {
				rCh, _ := f.Async(ctx)
				select {
				case resultCh <- <-rCh:
					cancel()
				case <-ctx.Done():
					return
				}
			}(f)
>>
    [Send i] is the send of worker [i] together with the receive
    [result := <-resultCh] of the function literal. *)
Definition worker_step {T} `{!Zero T} (m : machine T) (ev : event T) : option (machine T) :=
  match ev with
  | Dispatch i =>
      match workers m !! i with
      | Some Spawned =>
          Some (Machine (scope m) (ctx m) (<[i := Receiving]> (workers m))
                  (<[i := Some (Future.Async (ctx m))]> (asyncs m)) (main m))
      | _ => None
      end
  | Receive i =>
      match workers m !! i, asyncs m !! i with
      | Some Receiving, Some (Some (fctx, rCh)) =>
          match chan.recv rCh with
          | chan.Ok (result, rCh') =>
              Some (Machine (scope m) (ctx m) (<[i := Offering result]> (workers m))
                      (<[i := Some (fctx, rCh')]> (asyncs m)) (main m))
          | _ => None
          end
      | _, _ => None
      end
  | Send i =>
      match workers m !! i, main m with
      | Some (Offering result), Waiting =>
          Some (Machine (scope m) (ctx m) (<[i := Sent]> (workers m)) (asyncs m)
                  (Received result))
      | _, _ => None
      end
  | Cancel i =>
      match workers m !! i with
      | Some Sent =>
          let m' := finish Canceled m in
          Some (Machine (scope m') (ctx m') (<[i := Gone]> (workers m')) (asyncs m') (main m'))
      | _ => None
      end
  | TakeDone i =>
      match workers m !! i with
      | Some (Offering _) =>
          if Done (ctx m)
          then Some (Machine (scope m) (ctx m) (<[i := Gone]> (workers m)) (asyncs m) (main m))
          else None
      | _ => None
      end
  | _ => None
  end.

(** One event of the function literal of [AnyOf]; its own code is
<<
		result := <-resultCh
		return result.Value, result.Error
>>
    with the deferred [cancel()]. *)
Definition step {T} `{!Zero T} (m : machine T) (ev : event T) : option (machine T) :=
  match ev with
  | ScopeCancelled e =>
      if Done (scope m) then None
      else let m' := finish e m in
           Some (Machine (Some e) (ctx m') (workers m') (asyncs m') (main m'))
  | Deliver i r =>
      match asyncs m !! i with
      | Some (Some a) =>
          a' ← Future.deliver a r;
          Some (Machine (scope m) (ctx m) (workers m) (<[i := Some a']> (asyncs m)) (main m))
      | _ => None
      end
  | Return =>
      match main m with
      | Received result =>
          let m' := finish Canceled m in
          Some (Machine (scope m') (ctx m') (workers m') (asyncs m')
                  (Finished (Value result) (Error result)))
      | _ => None
      end
  | _ => worker_step m ev
  end.

Definition returned {T} (m : machine T) : option (T * error) :=
  match main m with
  | Finished value err => Some (value, err)
  | _ => None
  end.

(** The worker whose send on [resultCh] is the first of a run. *)
Fixpoint winner {T} (tr : list (event T)) : option nat :=
  match tr with
  | [] => None
  | Send i :: _ => Some i
  | _ :: tr => winner tr
  end.

(** An event of a run in which the argument [ctx] is not cancelled. *)
Definition live {T} (ev : event T) : Prop :=
  match ev with ScopeCancelled _ => False | _ => True end.

End anyOf.

(** [AnyOf(ctx, futures...)], for [futures] futures. *)
Definition AnyOf {T} `{!Zero T} (ctx : Ctx) (futures : nat) : channelFuture T :=
  New (Func (anyOf.machine T) (anyOf.event T) (anyOf.start ctx futures)
         anyOf.step anyOf.returned).

(** An event of awaiting [AnyOf(ctx, futures...)] when neither context is
    cancelled. *)
Definition none_cancelled {T} `{!Zero T} {ctx : Ctx} {futures : nat}
    (ev : event (AnyOf (T:=T) ctx futures)) : Prop :=
  match ev with
  | ScopeCancelled _ => False
  | GoFn ev => anyOf.live ev
  | _ => True
  end.

(** ** Steps left

    A count of the events a machine still has in it: every event lowers
    it, so it bounds the length of a run. *)
Definition future_left {T} (a : option (Future.running T)) : nat :=
  match a with
  | Some (_, rCh) => if chan.closed rCh then 0 else 1
  | None => 1
  end.

Definition allOf_worker_left (w : allOf.worker) : nat :=
  match w with
  | allOf.Spawned => 3
  | allOf.Selecting => 1
  | allOf.Gone => 0
  end.

Definition allOf_left {T} (futures : nat) (m : allOf.machine T) : nat :=
  (if Done (allOf.scope m) then 0 else 1) +
  (if allOf.panicked m then 0 else 1) +
  sum_list (allOf_worker_left <$> allOf.workers m) +
  sum_list (future_left <$> allOf.asyncs m) +
  match allOf.main m with
  | allOf.Collecting i _ => S (futures - i)
  | allOf.Finished _ _ => 0
  end.

Definition anyOf_worker_left {T} (w : anyOf.worker T) : nat :=
  match w with
  | anyOf.Spawned => 5
  | anyOf.Receiving => 3
  | anyOf.Offering _ => 2
  | anyOf.Sent => 1
  | anyOf.Gone => 0
  end.

Definition anyOf_left {T} (m : anyOf.machine T) : nat :=
  (if Done (anyOf.scope m) then 0 else 1) +
  sum_list (anyOf_worker_left <$> anyOf.workers m) +
  sum_list (future_left <$> anyOf.asyncs m) +
  match anyOf.main m with
  | anyOf.Waiting => 2
  | anyOf.Received _ => 1
  | anyOf.Finished _ _ => 0
  end.

(** ** Predicates on runs and Results *)

(** The context of a call is done with reason [e]: it was when the call
    was made, or it was cancelled during the run. *)
Definition cancelled_with {T} {cf : channelFuture T} (scope0 : Ctx)
    (tr : list (event cf)) (e : err) : Prop :=
  scope0 = Some e ∨ ScopeCancelled e ∈ tr.

(** Where a Result comes from: what the function returned, the error of
    the context with the zero value, or the timer. *)
Definition from_fn {T} (cf : channelFuture T) (tr : list (event cf)) (r : Result T)
    : Prop :=
  result_of (fn cf) (fn_events tr) = Some (Value r, Error r).

Definition from_context {T} `{!Zero T} {cf : channelFuture T} (scope0 : Ctx)
    (tr : list (event cf)) (r : Result T) : Prop :=
  Value r = zero ∧ ∃ e, Error r = Some e ∧ cancelled_with scope0 tr e.

Definition from_timer {T} `{!Zero T} {cf : channelFuture T}
    (tr : list (event cf)) (r : Result T) : Prop :=
  r = mkResult zero (Some DeadlineExceeded) ∧ TimerFired ∈ tr.

(** The events a call can still make besides those of its function. *)
Definition call_left {T} {cf : channelFuture T} (op : method) (m : machine cf) : nat :=
  (if Done (scope m) then 0 else 1) +
  match op with Await => 0 | AwaitWithTimeout => if timer m then 0 else 1 end +
  match go m with AtSelect => 2 | InFn _ => 1 | _ => 0 end +
  match await m with Waiting => 1 | Returned _ => 0 end.

(** An event of awaiting [Then(f, ctx, fn)] when neither the context of
    the call nor [ctx] is cancelled. *)
Definition then_live {T U} `{!Zero T, !Zero U} {f : channelFuture T} {ctx : Ctx}
    {fn : T → U * error} (ev : event (Then f ctx fn)) : Prop :=
  match ev with
  | ScopeCancelled _ => False
  | GoFn ev => live (cf:=f) ev
  | _ => True
  end.

(** An event of a run of [AllOf] in which no future delivers a
    failure. *)
Definition allOf_no_failure {T} (ev : allOf.event T) : Prop :=
  match ev with
  | allOf.Deliver _ r => Error r = None
  | _ => True
  end.

(** An event of a run of [AllOf] in which its context is not cancelled
    from outside. *)
Definition allOf_uncancelled {T} (ev : allOf.event T) : Prop :=
  match ev with
  | allOf.ScopeCancelled _ => False
  | _ => True
  end.

(** * Proofs *)

(** ** Runs *)

Lemma exec_app {S E} (step : S → E → option S) s tr1 tr2 :
  exec step s (tr1 ++ tr2) = s' ← exec step s tr1; exec step s' tr2.
Proof.
  revert s; induction tr1 as [|ev tr1 IH]; intros s; simpl; [done|].
  destruct (step s ev) as [s'|]; simpl; [apply IH|done].
Qed.

Lemma exec_snoc {S E} (step : S → E → option S) s tr ev s' :
  exec step s (tr ++ [ev]) = Some s' ↔
  ∃ s1, exec step s tr = Some s1 ∧ step s1 ev = Some s'.
Proof.
  rewrite exec_app. split.
  - destruct (exec step s tr) as [s1|]; simpl; [|done].
    destruct (step s1 ev) as [s2|] eqn:Hs; simpl; [|done].
    intros [= <-]. eauto.
  - intros (s1 & -> & Hs). simpl. by rewrite Hs.
Qed.

(** Induction along a run, one event at a time from its start. *)
Lemma exec_ind {S E} (step : S → E → option S) (s0 : S) (P : list E → S → Prop) :
  P [] s0 →
  (∀ tr s ev s', exec step s0 tr = Some s → P tr s → step s ev = Some s' →
                 P (tr ++ [ev]) s') →
  ∀ tr s, exec step s0 tr = Some s → P tr s.
Proof.
  intros H0 Hstep tr. induction tr as [|ev tr IH] using rev_ind; intros s.
  - simpl. by intros [= <-].
  - rewrite exec_snoc. intros (s1 & H1 & H2). eauto.
Qed.

(** A property of states that every step preserves holds after a run. *)
Lemma exec_preserves {S E} (step : S → E → option S) (I : S → Prop) :
  (∀ s ev s', I s → step s ev = Some s' → I s') →
  ∀ tr s s', I s → exec step s tr = Some s' → I s'.
Proof.
  intros Hstep tr. induction tr as [|ev tr IH]; intros s s' HI; simpl.
  - by intros [= <-].
  - destruct (step s ev) as [s1|] eqn:Hs; simpl; [|done]. eauto.
Qed.

(** A run is no longer than what its events take from a measure that
    every event lowers. *)
Lemma exec_measure {St Ev} (step : St → Ev → option St) (steps : St → nat) :
  (∀ s ev s', step s ev = Some s' → steps s' < steps s) →
  ∀ tr s s', exec step s tr = Some s' → length tr + steps s' ≤ steps s.
Proof.
  intros Hstep tr. induction tr as [|ev tr IH]; intros s s'; simpl.
  - intros [= <-]. lia.
  - destruct (step s ev) as [s1|] eqn:Hs; simpl; [|done].
    intros Hexec. apply IH in Hexec. apply Hstep in Hs. lia.
Qed.

(** ** channelFuture *)

Lemma fn_events_snoc {T} {cf : channelFuture T} (tr : list (event cf)) ev :
  fn_events (tr ++ [ev]) =
  fn_events tr ++ match ev with GoFn ev => [ev] | _ => [] end.
Proof. unfold fn_events. rewrite omap_app. by destruct ev. Qed.

Ltac step_cases H :=
  unfold step, go_step, Await_step, AwaitWithTimeout_step, deliver in H;
  simpl in H;
  repeat (first
    [ case_match
    | match type of H with context [mbind _ ?x] => destruct x as [[]|] eqn:? end
    | match type of H with context [mbind _ ?x] => destruct x eqn:? end ];
    simpl in H; simplify_eq; try done);
  try done.

Ltac chan_simpl :=
  repeat match goal with
  | H : chan.send _ _ = _ |- _ =>
      unfold chan.send, chan.make in H; simpl in H; simplify_eq
  | H : chan.close _ = _ |- _ =>
      unfold chan.close, chan.make in H; simpl in H; simplify_eq
  | H : chan.recv _ = _ |- _ =>
      unfold chan.recv, chan.make in H; simpl in H; simplify_eq
  | H : context [bool_decide ?P] |- _ =>
      destruct (bool_decide_reflect P); simpl in H; try lia; simplify_eq
  end.

Section channelFuture_live.
Context {T : Type} `{!Zero T} (cf : channelFuture T).

(** A run of [Await] on a context that stays live: the goroutine takes
    the [default] case, and the one result on the channel is what [fn]
    returned. *)
Lemma Await_live_shape tr m :
  run cf Await None tr = Some m → Forall live tr →
  scope m = None ∧ ctx m = None ∧
  match go m with
  | AtSelect => resultCh m = chan.make 1 ∧ await m = Waiting ∧ tr = []
  | InFn s =>
      resultCh m = chan.make 1 ∧ await m = Waiting ∧
      exec (fstep (fn cf)) (fstart (fn cf)) (fn_events tr) = Some s ∧
      length tr = 1 + length (fn_events tr)
  | Exited =>
      ∃ r, result_of (fn cf) (fn_events tr) = Some (Value r, Error r) ∧
           ((resultCh m = chan.mk [r] 1 true ∧ await m = Waiting ∧
             length tr = 2 + length (fn_events tr)) ∨
            (resultCh m = chan.mk [] 1 true ∧ await m = Returned r ∧
             length tr = 3 + length (fn_events tr)))
  | Panicked => False
  end.
Proof.
  unfold run. revert tr m. apply (exec_ind (step cf Await)
    (Async cf None) (λ tr m, Forall live tr → _)); [by intros _|].
  intros tr m ev m' _ IH Hstep Hlive.
  apply Forall_app in Hlive as [Hlive Hev]. apply Forall_inv in Hev.
  destruct (IH Hlive) as (Hscope & Hctx & Hgo); clear IH.
  rewrite fn_events_snoc.
  destruct m as [sc cx ch g tm aw]; simpl in *; subst sc cx.
  destruct ev as [e| | |fev| | | |]; simpl in Hev; try done;
    step_cases Hstep; simpl in *; destruct_and?; simplify_eq; simpl;
    rewrite ?app_nil_r, ?length_app; simpl; try (split_and!; done).
  - split_and!; try done. apply exec_snoc. eauto. lia.
  - chan_simpl. split_and!; try done. eexists (mkResult _ _).
    split; [|left; split_and!; [done..|lia]].
    unfold result_of. by simplify_option_eq.
  - chan_simpl.
  - destruct Hgo as (r0 & Hr0 & [(-> & _ & Hlen)|(_ & ? & _)]); [|done].
    chan_simpl. split_and!; try done. exists r.
    split; [done|right; split_and!; [done..|lia]].
Qed.

(** The events of [cf.fn()] in such a run are a run of [cf.fn()]. *)
Lemma Await_live_fn tr m :
  run cf Await None tr = Some m → Forall live tr →
  ∃ s, exec (fstep (fn cf)) (fstart (fn cf)) (fn_events tr) = Some s.
Proof.
  intros Hrun Hlive. destruct (Await_live_shape tr m Hrun Hlive) as (_ & _ & Hgo).
  destruct (go m) as [|s| |]; [| | |done].
  - destruct Hgo as (_ & _ & ->). by eexists.
  - destruct Hgo as (_ & _ & Hs & _). by exists s.
  - destruct Hgo as (r0 & Hr0 & _). unfold result_of in Hr0.
    destruct (exec _ _ _) as [s|]; [|done]. by exists s.
Qed.

(** What [cf.Await(ctx)] returns on a context that stays live is what
    [cf.fn()] returned. *)
Lemma Await_live_returned tr m r :
  run cf Await None tr = Some m → Forall live tr → await m = Returned r →
  result_of (fn cf) (fn_events tr) = Some (Value r, Error r).
Proof.
  intros Hrun Hlive Hr.
  destruct (Await_live_shape tr m Hrun Hlive) as (_ & _ & Hgo).
  destruct (go m); destruct_and?; try congruence; try done.
  destruct Hgo as (r0 & Hr0 & [(_ & ? & _)|(_ & ? & _)]); congruence.
Qed.

(** The call itself takes at most three steps: the [select], the send,
    the receive. *)
Lemma Await_live_bound tr m :
  run cf Await None tr = Some m → Forall live tr →
  length tr ≤ 3 + length (fn_events tr).
Proof.
  intros Hrun Hlive.
  destruct (Await_live_shape tr m Hrun Hlive) as (_ & _ & Hgo).
  destruct (go m); destruct_and?; subst; simpl; try lia.
  destruct Hgo as (r0 & Hr0 & [(_ & _ & ?)|(_ & _ & ?)]); lia.
Qed.

(** Such a call is never stuck outside [cf.fn()]: the goroutine can take
    its [select], send once [fn] has returned, and the caller can receive
    what was sent. *)
Lemma Await_live_progress tr m :
  run cf Await None tr = Some m → Forall live tr → await m = Waiting →
  is_Some (step cf Await m GoSelect) ∨
  is_Some (step cf Await m GoReturn) ∨
  is_Some (step cf Await m RecvResult) ∨
  ∃ s, go m = InFn s ∧ freturn (fn cf) s = None ∧
       exec (fstep (fn cf)) (fstart (fn cf)) (fn_events tr) = Some s.
Proof.
  intros Hrun Hlive Hr.
  destruct (Await_live_shape tr m Hrun Hlive) as (Hsc & Hcx & Hgo).
  destruct m as [sc cx ch g tm aw]; simpl in *; subst.
  destruct g as [|s| |]; simpl in *; [| | |done].
  - left. by destruct Hgo as (-> & _).
  - destruct Hgo as (-> & _ & Hs & _).
    destruct (freturn (fn cf) s) as [[value err]|] eqn:Hret.
    + right; left. unfold step, go_step; simpl. by unfold deliver.
    + right; right; right. eauto.
  - destruct Hgo as (r0 & Hr0 & [(-> & _)|(_ & ? & _)]); [|done].
    right; right; left. by unfold step.
Qed.

End channelFuture_live.

Section channelFuture_returns.
Context {T : Type} `{!Zero T} (cf : channelFuture T) (v : T).
Context (steps : fstate (fn cf) → nat).
Hypothesis fn_returns : ∀ ftr x, result_of (fn cf) ftr = Some x → x = (v, None).
Hypothesis fn_not_stuck :
  ∀ ftr s, exec (fstep (fn cf)) (fstart (fn cf)) ftr = Some s →
           freturn (fn cf) s = None → ∃ ev, is_Some (fstep (fn cf) s ev).
Hypothesis fn_terminates :
  ∀ s ev s', freturn (fn cf) s = None → fstep (fn cf) s ev = Some s' →
             steps s' < steps s.

(** The events of [cf.fn()] in a run of the call are a run of the
    function, the goroutine holds the state that run has reached, and
    every event of the function has used up one of its steps. *)
Lemma Await_live_fn_run tr m :
  run cf Await None tr = Some m → Forall live tr →
  ∃ s, exec (fstep (fn cf)) (fstart (fn cf)) (fn_events tr) = Some s ∧
       (∀ s', go m = InFn s' → s' = s) ∧
       length (fn_events tr) + steps s ≤ steps (fstart (fn cf)).
Proof using fn_terminates.
  unfold run. revert tr m. apply (exec_ind (step cf Await) (Async cf None)
    (λ tr m, Forall live tr → _)).
  { intros _. exists (fstart (fn cf)). simpl. split_and!; [done|done|lia]. }
  intros tr m ev m' Hexec IH Hstep [Hlive Hev%Forall_inv]%Forall_app.
  destruct (IH Hlive) as (s & Hs & Hgo & Hlen); clear IH.
  destruct (Await_live_shape cf tr m Hexec Hlive) as (_ & _ & Hshape).
  rewrite fn_events_snoc.
  destruct ev as [e| | |fev| | | |]; simpl in Hev; try done;
    rewrite ?app_nil_r; unfold step in Hstep; simpl in Hstep.
  - unfold go_step in Hstep. destruct (go m) eqn:Hg; try done.
    destruct (Done (ctx m)).
    + unfold deliver in Hstep. repeat case_match; simplify_eq; exists s; by simpl.
    + simplify_eq. exists s. simpl. split_and!; try done.
      intros s' [= <-]. destruct Hshape as (_ & _ & ->). simpl in Hs. by simplify_eq.
  - unfold go_step in Hstep. destruct (go m) as [|s0| |] eqn:Hg; try done.
    destruct (freturn (fn cf) s0) eqn:Hret; [done|].
    destruct (fstep (fn cf) s0 fev) as [s1|] eqn:Hfs; simpl in Hstep; [|done].
    simplify_eq. rewrite (Hgo s0 eq_refl) in *.
    exists s1. simpl. split_and!.
    + apply exec_snoc. eauto.
    + by intros s' [= <-].
    + rewrite length_app. simpl. specialize (fn_terminates _ _ _ Hret Hfs). lia.
  - unfold go_step in Hstep. destruct (go m) as [|s0| |] eqn:Hg; try done.
    destruct (freturn (fn cf) s0) as [[value err]|]; simpl in Hstep; [|done].
    unfold deliver in Hstep. repeat case_match; simplify_eq; exists s; by simpl.
  - destruct (await m); [|done]. unfold Await_step in Hstep.
    repeat case_match; simplify_eq; exists s; by simpl.
  - destruct (await m); [|done]. done.
  - destruct (await m); [|done]. done.
Qed.

(** What the call returns, that it is never stuck, and how long a run
    can be. *)
Lemma Await_live_value tr m r :
  run cf Await None tr = Some m → Forall live tr → await m = Returned r →
  r = mkResult v None.
Proof using fn_returns.
  intros Hrun Hlive Hr. destruct r as [value err].
  apply (Await_live_returned cf tr m _ Hrun Hlive) in Hr.
  apply fn_returns in Hr. simpl in Hr. by simplify_eq.
Qed.

Lemma Await_live_enabled tr m :
  run cf Await None tr = Some m → Forall live tr → await m = Waiting →
  ∃ ev, live ev ∧ is_Some (step cf Await m ev).
Proof using fn_not_stuck.
  intros Hrun Hlive Hw.
  destruct (Await_live_progress cf tr m Hrun Hlive Hw)
    as [?|[?|[?|(s & Hgo & Hnone & Hs)]]].
  - by exists GoSelect.
  - by exists GoReturn.
  - by exists RecvResult.
  - destruct (fn_not_stuck _ _ Hs Hnone) as [ev [s' Hev]].
    exists (GoFn ev). split; [done|].
    unfold step, go_step. rewrite Hgo, Hnone, Hev. by simpl.
Qed.

Lemma Await_live_length tr m :
  run cf Await None tr = Some m → Forall live tr →
  length tr ≤ steps (fstart (fn cf)) + 3.
Proof using fn_terminates.
  intros Hrun Hlive. pose proof (Await_live_bound cf tr m Hrun Hlive) as Hlen.
  destruct (Await_live_fn_run tr m Hrun Hlive) as (s & _ & _ & Hfn). lia.
Qed.

(** So the call returns: every run that has not returned can be
    continued, and continued until it has. *)
Lemma Await_live_returns tr m :
  run cf Await None tr = Some m → Forall live tr →
  ∃ tr' m', Forall live tr' ∧ exec (step cf Await) m tr' = Some m' ∧
            await m' = Returned (mkResult v None).
Proof using fn_returns fn_not_stuck fn_terminates.
  intros Hrun Hlive.
  pose proof (Await_live_length tr m Hrun Hlive) as Hlen.
  remember (steps (fstart (fn cf)) + 3 - length tr) as k eqn:Hk.
  revert tr m Hrun Hlive Hlen Hk.
  induction k as [k IH] using lt_wf_ind. intros tr m Hrun Hlive Hlen Hk.
  destruct (await m) as [|r] eqn:Hw.
  2:{ exists [], m. split_and!; [done..|].
      by rewrite (Await_live_value tr m r Hrun Hlive Hw) in Hw. }
  destruct (Await_live_enabled tr m Hrun Hlive Hw) as (ev & Hev & m1 & Hstep).
  assert (run cf Await None (tr ++ [ev]) = Some m1) as Hrun1.
  { unfold run. apply exec_snoc. eauto. }
  assert (Forall live (tr ++ [ev])) as Hlive1.
  { apply Forall_app. split; [done|]. by constructor. }
  pose proof (Await_live_length _ m1 Hrun1 Hlive1) as Hlen1.
  rewrite length_app in Hlen1. simpl in Hlen1.
  destruct (IH (steps (fstart (fn cf)) + 3 - length (tr ++ [ev]))
              ltac:(rewrite length_app; simpl; lia) (tr ++ [ev]) m1)
    as (tr' & m' & Hlive' & Hexec' & Hr'); try done.
  { rewrite length_app. simpl. lia. }
  exists (ev :: tr'), m'. split_and!; [by constructor| |done].
  simpl. by rewrite Hstep.
Qed.
End channelFuture_returns.

(** C1.  A function that returns [(v, nil)] whenever it returns, that is
    never stuck before it returns and that terminates (each of its events
    lowers [steps]) is wrapped by [New] and awaited on a context that is
    not cancelled.  Then [New(f).Await(ctx)] returns the Result with
    [Value = v] and [Error = nil].  In every run of the call: a returned
    Result is that one; while the call has not returned, some step of
    the call or of [f] is enabled; the events of [f] in the run are a run
    of [f], whose state the goroutine holds; the run has at most
    [steps] of the start of [f] plus three events; and the run can be
    continued to one in which the call has returned that Result. *)
Theorem Await_returns_value {T} `{!Zero T} (f : func T) (v : T)
    (steps : fstate f → nat) (tr : list (event (New f))) (m : machine (New f)) :
  (∀ ftr x, result_of f ftr = Some x → x = (v, None)) →
  (∀ ftr s, exec (fstep f) (fstart f) ftr = Some s → freturn f s = None →
            ∃ ev, is_Some (fstep f s ev)) →
  (∀ s ev s', freturn f s = None → fstep f s ev = Some s' → steps s' < steps s) →
  run (New f) Await None tr = Some m → Forall live tr →
  (∀ r, await m = Returned r → r = mkResult v None) ∧
  (await m = Waiting → ∃ ev, live ev ∧ is_Some (step (New f) Await m ev)) ∧
  (∃ s, exec (fstep f) (fstart f) (fn_events tr) = Some s ∧
        ∀ s', go m = InFn s' → s' = s) ∧
  length tr ≤ steps (fstart f) + 3 ∧
  ∃ tr' m', Forall live tr' ∧ exec (step (New f) Await) m tr' = Some m' ∧
            await m' = Returned (mkResult v None).
Proof.
  intros Hret Hprog Hterm Hrun Hlive. split_and!.
  - intros r. by apply (Await_live_value (New f) v Hret tr m).
  - by apply (Await_live_enabled (New f) Hprog tr m).
  - destruct (Await_live_fn_run (New f) steps Hterm tr m Hrun Hlive) as (s & ? & ? & _).
    by exists s.
  - by apply (Await_live_length (New f) steps Hterm tr m).
  - by apply (Await_live_returns (New f) v steps Hret Hprog Hterm tr m).
Qed.

(** [ret_after] returns what it is given, is never stuck before, and
    has [k] events. *)
Lemma ret_after_returns {T} k (value : T) err ftr x :
  result_of (ret_after k value err) ftr = Some x → x = (value, err).
Proof.
  unfold result_of. destruct (exec _ _ _) as [s|]; [|done]. simpl.
  case_bool_decide; congruence.
Qed.

Lemma ret_after_not_stuck {T} k (value : T) err s :
  freturn (ret_after k value err) s = None →
  ∃ ev, is_Some (fstep (ret_after k value err) s ev).
Proof.
  simpl. case_bool_decide; [done|]. intros _. exists ().
  rewrite bool_decide_eq_true_2 by lia. done.
Qed.

Lemma ret_after_terminates {T} k (value : T) err s ev s' :
  fstep (ret_after k value err) s ev = Some s' → k - s' < k - s.
Proof. simpl. case_bool_decide; [|done]. intros [= <-]. lia. Qed.

(** A function that returns 42 after two events of its own. *)
Lemma Await_returns_value_witness :
  let f := ret_after 2 42 None in
  let tr : list (event (New f)) := [GoSelect; GoFn (cf:=New f) (); GoFn (cf:=New f) ()] in
  ∃ m : machine (New f),
    run (New f) Await None tr = Some m ∧ await m = Waiting ∧
    exec (step (New f) Await) m [GoReturn; RecvResult] =
      Some (Machine None None (chan.mk [] 1 true) Exited false
              (Returned (mkResult 42 None))) ∧
    ((∀ r, await m = Returned r → r = mkResult 42 None) ∧
     (await m = Waiting → ∃ ev, live ev ∧ is_Some (step (New f) Await m ev)) ∧
     (∃ s, exec (fstep f) (fstart f) (fn_events tr) = Some s ∧
           ∀ s', go m = InFn s' → s' = s) ∧
     length tr ≤ 2 + 3 ∧
     ∃ tr' m', Forall live tr' ∧ exec (step (New f) Await) m tr' = Some m' ∧
               await m' = Returned (mkResult 42 None)).
Proof.
  intros f tr. eexists. split; [reflexivity|]. split; [reflexivity|].
  split; [reflexivity|].
  apply (Await_returns_value f 42 (λ s, 2 - s) tr).
  - apply ret_after_returns.
  - intros ftr s _. apply ret_after_not_stuck.
  - intros s ev s' _. apply ret_after_terminates.
  - reflexivity.
  - repeat constructor.
Defined.


Ltac recv_case g Hgo :=
  destruct g; try done; destruct_and?; simplify_eq; try (chan_simpl; fail);
  let r := fresh "r" in
  destruct Hgo as (r & ? & [->|[-> ?]]); [|done]; chan_simpl;
  first [done | eexists; split; [eassumption|by right]].

Ltac keep_case g Hgo :=
  destruct g; try done;
  let r := fresh "r" in
  destruct Hgo as (r & ? & [->|[-> ?]]); [|done];
  eexists; split; [eassumption|by left].

Section channelFuture_any.
Context {T : Type} `{!Zero T} (cf : channelFuture T) (op : method) (scope0 : Ctx).

(** Any run of either method, on any context.  The goroutine sends one
    result: the cancellation it found at its [select], with the zero
    value, or what [fn] returned.  The caller returns what it received,
    or, in [AwaitWithTimeout], a failure with the zero value. *)
Lemma run_shape tr m :
  run cf op scope0 tr = Some m →
  let sent r :=
    (Value r = zero ∧ is_Some (Error r) ∧ fn_events tr = []) ∨
    result_of (fn cf) (fn_events tr) = Some (Value r, Error r) in
  match go m with
  | AtSelect => resultCh m = chan.make 1 ∧ fn_events tr = []
  | InFn s =>
      resultCh m = chan.make 1 ∧
      exec (fstep (fn cf)) (fstart (fn cf)) (fn_events tr) = Some s
  | Exited =>
      ∃ r, sent r ∧
           (resultCh m = chan.mk [r] 1 true ∨
            (resultCh m = chan.mk [] 1 true ∧ await m = Returned r))
  | Panicked => False
  end ∧
  ∀ r, await m = Returned r →
       (go m = Exited ∧ resultCh m = chan.mk [] 1 true) ∨
       (op = AwaitWithTimeout ∧ Value r = zero ∧ is_Some (Error r)).
Proof.
  unfold run. revert tr m. apply (exec_ind (step cf op) (Async cf scope0)).
  { simpl. split; [done|]. by intros r. }
  intros tr m ev m' _ [Hgo Haw] Hstep. simpl.
  rewrite fn_events_snoc.
  destruct m as [sc cx ch g tm aw]; simpl in *.
  destruct ev as [e| | |fev| | | |];
    step_cases Hstep; simpl in *; destruct_and?; simplify_eq; simpl;
    rewrite ?app_nil_r; try (split_and!; done).
  all: try (chan_simpl; fail).
  all: split;
    [|try (intros r' Hr'; destruct (Haw r' Hr') as [[? ?]|?];
           [by simplify_eq|by right])].
  - chan_simpl. eexists (mkResult _ _). split; [|by left]. left. simpl.
    split_and!; try done. by destruct cx.
  - split; [done|]. by match goal with H : fn_events _ = [] |- _ => rewrite H end.
  - split; [done|]. apply exec_snoc. eauto.
  - chan_simpl. eexists (mkResult _ _). split; [|by left]. right. simpl.
    unfold result_of. by simplify_option_eq.
  - recv_case g Hgo.
  - intros ? [= <-]. left. recv_case g Hgo.
  - recv_case g Hgo.
  - intros ? [= <-]. left. recv_case g Hgo.
  - keep_case g Hgo.
  - intros ? [= <-]. right. split_and!; try done. simpl. by destruct sc.
  - keep_case g Hgo.
  - intros ? [= <-]. right. split_and!; try done.
Qed.

(** A Result with an error that a call returns has the zero value, or is
    what [fn] returned. *)
Lemma returned_error_shape tr m r :
  run cf op scope0 tr = Some m → await m = Returned r → is_Some (Error r) →
  Value r = zero ∨ result_of (fn cf) (fn_events tr) = Some (Value r, Error r).
Proof.
  intros Hrun Hr He. destruct (run_shape tr m Hrun) as [Hgo Haw].
  destruct (Haw r Hr) as [[Hex Hch]|(_ & ? & _)]; [|by left].
  rewrite Hex in Hgo. destruct Hgo as (r0 & Hsent & [Hch'|[_ Hr0]]).
  - rewrite Hch in Hch'. done.
  - rewrite Hr in Hr0. simplify_eq. destruct Hsent as [(? & _)|?]; eauto.
Qed.

(** While the caller waits and nothing is buffered, the channel is open:
    a receive blocks. *)
Lemma waiting_recv_blocks tr m :
  run cf op scope0 tr = Some m → await m = Waiting →
  chan.buf (resultCh m) = [] → chan.recv (resultCh m) = chan.Blocks.
Proof.
  intros Hrun Hw Hbuf. destruct (run_shape tr m Hrun) as [Hgo _].
  destruct (go m); destruct_and?; try done.
  - by match goal with H : resultCh m = _ |- _ => rewrite H end.
  - by match goal with H : resultCh m = _ |- _ => rewrite H end.
  - destruct Hgo as (r0 & _ & [Hch|[_ Hr0]]); [|congruence].
    rewrite Hch in Hbuf. done.
Qed.

(** Once a call has returned, no event changes what it returned. *)
Lemma returned_stable r tr m m' :
  await m = Returned r → exec (step cf op) m tr = Some m' → await m' = Returned r.
Proof.
  intros Hr. apply (exec_preserves (step cf op) (λ m, await m = Returned r)); [|done].
  clear. intros m ev m' Hr Hstep. destruct m as [sc cx ch g tm aw]; simpl in *.
  subst aw. destruct ev; step_cases Hstep.
Qed.

End channelFuture_any.


(** A call of [Await] on a context that is already done: the goroutine
    takes the [ctx.Done()] case, [cf.fn()] is not called, and the Result
    carries the reason with the zero value. *)
Lemma Await_cancelled_scope {T} `{!Zero T} (cf : channelFuture T) (e : err) tr m :
  run cf Await (Some e) tr = Some m →
  fn_events tr = [] ∧
  (∀ r, await m = Returned r → r = mkResult zero (Some e)) ∧
  (await m = Waiting →
   is_Some (step cf Await m GoSelect) ∨ is_Some (step cf Await m RecvResult)).
Proof.
  intros Hrun.
  cut (ctx m = Some e ∧ fn_events tr = [] ∧
       ((go m = AtSelect ∧ resultCh m = chan.make 1 ∧ await m = Waiting) ∨
        (go m = Exited ∧
         resultCh m = chan.mk [mkResult zero (Some e)] 1 true ∧ await m = Waiting) ∨
        (go m = Exited ∧ await m = Returned (mkResult zero (Some e))))).
  { intros (Hcx & Hfn & [(Hgo & Hch & Haw)|[(Hgo & Hch & Haw)|(Hgo & Haw)]]);
      (split; [done|]); (split; [intros r; congruence|]); intros Hw.
    - left. destruct m; simpl in *; subst. by unfold step, go_step, deliver.
    - right. destruct m; simpl in *; subst. by unfold step.
    - congruence. }
  revert tr m Hrun. unfold run. apply (exec_ind (step cf Await) (Async cf (Some e))).
  { simpl. split_and!; try done. by left. }
  intros tr m ev m' _ (Hcx & Hfn & Hm) Hstep. rewrite fn_events_snoc, Hfn.
  destruct m as [sc cx ch g tm aw]; simpl in *.
  destruct Hm as [(? & ? & ?)|[(? & ? & ?)|(? & ?)]]; simplify_eq;
    destruct ev; step_cases Hstep; chan_simpl; simplify_eq; simpl;
    split_and!; eauto 10.
Qed.

(** C2, at its failing input.  The context is cancelled while [cf.fn()]
    runs, after the goroutine took the [default] case.  [Await] waits for
    the channel alone: with its context done, no event makes it return
    before the function has returned, and then it returns the value of
    the function with a [nil] error. *)
Theorem Await_ignores_later_cancellation :
  let cf := New (ret 42 None) in
  ∃ m1 m : machine cf,
    run cf Await None [GoSelect; ScopeCancelled Canceled] = Some m1 ∧
    Err (scope m1) = Some Canceled ∧
    (∀ ev m', step cf Await m1 ev = Some m' → await m' = Waiting) ∧
    exec (step cf Await) m1 [GoReturn; RecvResult] = Some m ∧
    Err (scope m) = Some Canceled ∧
    await m = Returned (mkResult 42 None).
Proof.
  intros cf. eexists _, _. split; [reflexivity|]. split; [done|].
  split; [|split; [reflexivity|by split]].
  intros ev m' Hstep. destruct ev as [e| | |[]| | | |]; cbv in Hstep; by simplify_eq.
Qed.

(** C7.  In a call of [AwaitWithTimeout] whose timer has fired while the
    caller still waits, the timer case is enabled; when it runs, [cancel]
    is called on the derived context, which is then done, and the call
    returns a Result with the zero value and [DeadlineExceeded], whatever
    the function does later.  If moreover the context is not done and
    nothing was delivered (the function takes longer than the timeout),
    the timer case is the only one that can run.  [DeadlineExceeded] is
    not [Canceled]. *)
Theorem AwaitWithTimeout_deadline {T} `{!Zero T}
    (cf : channelFuture T) (scope0 : Ctx) tr m :
  run cf AwaitWithTimeout scope0 tr = Some m →
  await m = Waiting → timer m = true →
  (∃ m', step cf AwaitWithTimeout m RecvTimer = Some m' ∧
         await m' = Returned (mkResult zero (Some DeadlineExceeded)) ∧
         ctx m' = cancel (ctx m) ∧ Done (ctx m') = true ∧
         ∀ tr' m'', exec (step cf AwaitWithTimeout) m' tr' = Some m'' →
                    await m'' = Returned (mkResult zero (Some DeadlineExceeded))) ∧
  (Done (scope m) = false → chan.buf (resultCh m) = [] →
   step cf AwaitWithTimeout m RecvResult = None ∧
   step cf AwaitWithTimeout m RecvDone = None) ∧
  DeadlineExceeded ≠ Canceled.
Proof.
  intros Hrun Hw Htm. split_and!; [|intros Hsc Hbuf|done].
  - exists (Machine (scope m) (cancel (ctx m)) (resultCh m) (go m) (timer m)
              (Returned (mkResult zero (Some DeadlineExceeded)))).
    split_and!; try done.
    + unfold step, AwaitWithTimeout_step. by rewrite Hw, Htm.
    + by destruct (ctx m).
    + intros tr' m''. by apply returned_stable.
  - pose proof (waiting_recv_blocks cf _ _ tr m Hrun Hw Hbuf) as Hrecv.
    unfold step, AwaitWithTimeout_step. by rewrite Hw, Hrecv, Hsc.
Qed.

Lemma AwaitWithTimeout_deadline_witness :
  let cf := New (ret 42 None) in
  let m := Machine (cf:=cf) None None (chan.make 1) (InFn (cf:=cf) ()) true Waiting in
  run cf AwaitWithTimeout None [GoSelect; TimerFired] = Some m ∧
  (∃ m', step cf AwaitWithTimeout m RecvTimer = Some m' ∧
         await m' = Returned (mkResult zero (Some DeadlineExceeded)) ∧
         ctx m' = cancel (ctx m) ∧ Done (ctx m') = true ∧
         ∀ tr' m'', exec (step cf AwaitWithTimeout) m' tr' = Some m'' →
                    await m'' = Returned (mkResult zero (Some DeadlineExceeded))) ∧
  (Done (scope m) = false → chan.buf (resultCh m) = [] →
   step cf AwaitWithTimeout m RecvResult = None ∧
   step cf AwaitWithTimeout m RecvDone = None) ∧
  DeadlineExceeded ≠ Canceled.
Proof.
  split; [reflexivity|].
  apply (AwaitWithTimeout_deadline (New (ret 42 None)) None [GoSelect; TimerFired]);
    reflexivity.
Defined.

(** ** Then *)

(** C3.  In any run of awaiting [Then(f, ctx, fn)] in which the
    [f.Await(ctx)] of the function literal has returned [result]: if
    [result] carries a failure, [fn] is not called and a returned Result
    carries the same failure with the zero value of [U]; if it carries
    none, [fn] is called once, on [result.Value], and a returned Result is
    what that call returned; and while the call has not returned, its
    goroutine can send or its caller can receive. *)
Theorem Then_propagates {T U} `{!Zero T, !Zero U}
    (f : channelFuture T) (ctx : Ctx) (fn : T → U * error) (scope0 : Ctx) tr m mi result :
  run (Then f ctx fn) Await scope0 tr = Some m →
  exec (step f Await) (Async f ctx) (fn_events tr) = Some mi →
  await mi = Returned result →
  (∀ e, Error result = Some e →
        (Then_body fn result).1 = [] ∧
        ∀ r, await m = Returned r → r = mkResult zero (Some e)) ∧
  (Error result = None →
        (Then_body fn result).1 = [Value result] ∧
        ∀ r, await m = Returned r →
             r = mkResult (fn (Value result)).1 (fn (Value result)).2) ∧
  (await m = Waiting →
   is_Some (step (Then f ctx fn) Await m GoReturn) ∨
   is_Some (step (Then f ctx fn) Await m RecvResult)).
Proof.
  intros Hrun Hmi Hres.
  destruct (run_shape _ _ _ tr m Hrun) as [Hgo Haw].
  assert (Hne : fn_events tr ≠ []).
  { intros Hnil. rewrite Hnil in Hmi. simpl in Hmi. by simplify_eq. }
  assert (Hof : result_of _ (fn_events tr) = Some (Then_body fn result).2).
  { unfold result_of. simpl. rewrite Hmi. simpl. by rewrite Hres. }
  assert (Hret : ∀ r, await m = Returned r →
                      (Value r, Error r) = (Then_body fn result).2).
  { intros r Hr. destruct (Haw r Hr) as [[Hex Hch]|[? _]]; [|done].
    rewrite Hex in Hgo. destruct Hgo as (r0 & Hsent & [Hch'|[_ Hr0]]).
    { rewrite Hch in Hch'. done. }
    rewrite Hr in Hr0. simplify_eq.
    destruct Hsent as [(_ & _ & ?)|Hs]; [done|]. congruence. }
  split_and!.
  - intros e He. unfold Then_body in *. rewrite He in *. split; [done|].
    intros [v err] Hr. apply Hret in Hr. simpl in Hr. by simplify_eq.
  - intros He. unfold Then_body in *. rewrite He in *. split; [done|].
    intros [v err] Hr. apply Hret in Hr. simpl in Hr.
    destruct (fn (Value result)). by simplify_eq.
  - intros Hw. destruct m as [sc cx ch g tm aw]; simpl in *; subst aw.
    destruct g as [|s| |]; simpl in *; destruct_and?; try done.
    + left. simplify_eq. unfold step, go_step. simpl. rewrite Hres. simpl.
      destruct (Then_body fn result).2. by unfold deliver.
    + right. destruct Hgo as (r0 & _ & [->|[_ ?]]); [|done]. by unfold step.
Qed.

Lemma Then_propagates_witness :
  let failed := mkResult 0 (Some (Failure "error")) in
  let f := New (ret 0 (Some (Failure "error"))) in
  let fn := λ value : nat, (if decide (value = 42) then "value is 42" else "value", None) in
  let cf := Then f None fn in
  let mi := Machine (cf:=f) None None (chan.mk [] 1 true) Exited false (Returned failed) in
  let m := Machine (cf:=cf) None None (chan.mk [] 1 true) Exited false
             (Returned (mkResult "" (Some (Failure "error")))) in
  let tr := [GoSelect; GoFn (cf:=cf) GoSelect; GoFn (cf:=cf) GoReturn;
             GoFn (cf:=cf) RecvResult; GoReturn; RecvResult] in
  run cf Await None tr = Some m ∧
  (∀ e, Error failed = Some e →
        (Then_body fn failed).1 = [] ∧
        ∀ r, await m = Returned r → r = mkResult zero (Some e)) ∧
  (Error failed = None →
        (Then_body fn failed).1 = [Value failed] ∧
        ∀ r, await m = Returned r →
             r = mkResult (fn (Value failed)).1 (fn (Value failed)).2) ∧
  (await m = Waiting →
   is_Some (step cf Await m GoReturn) ∨ is_Some (step cf Await m RecvResult)).
Proof.
  intros failed f fn cf mi m tr. split; [reflexivity|].
  apply (Then_propagates f None fn None tr m mi failed); reflexivity.
Defined.

(** A success of [f] goes through [fn], as in [ExampleFuture_Then]. *)
Example Then_value :
  let cf := Then (New (ret 42 None)) None
              (λ value : nat, (if decide (value = 42) then "value is 42" else "value", None)) in
  await <$> run cf Await None
    [GoSelect; GoFn (cf:=cf) GoSelect; GoFn (cf:=cf) GoReturn;
     GoFn (cf:=cf) RecvResult; GoReturn; RecvResult]
  = Some (Returned (mkResult "value is 42" None)).
Proof. reflexivity. Qed.

(** ** Channel operations, inverted *)

Lemma send_Ok {A} (c c' : chan.t A) x :
  chan.send c x = chan.Ok c' ↔
  chan.closed c = false ∧ length (chan.buf c) < chan.cap c ∧
  c' = chan.mk (chan.buf c ++ [x]) (chan.cap c) false.
Proof.
  unfold chan.send. destruct (chan.closed c).
  { split; [done|]. by intros (? & _). }
  case_bool_decide; split; try done.
  - by intros [= <-].
  - by intros (_ & _ & ->).
  - by intros (_ & ? & _).
Qed.

Lemma send_Panics {A} (c : chan.t A) x :
  chan.send c x = chan.Panics ↔ chan.closed c = true.
Proof.
  unfold chan.send. destruct (chan.closed c); [done|].
  by case_bool_decide.
Qed.

Lemma close_Ok {A} (c c' : chan.t A) :
  chan.close c = chan.Ok c' ↔
  chan.closed c = false ∧ c' = chan.mk (chan.buf c) (chan.cap c) true.
Proof.
  unfold chan.close. destruct (chan.closed c); split; try done.
  - by intros (? & _).
  - by intros [= <-].
  - by intros (_ & ->).
Qed.

Lemma recv_Ok {A} `{!Zero A} (c c' : chan.t A) x :
  chan.recv c = chan.Ok (x, c') ↔
  (∃ q, chan.buf c = x :: q ∧ c' = chan.mk q (chan.cap c) (chan.closed c)) ∨
  (chan.buf c = [] ∧ chan.closed c = true ∧ x = zero ∧ c' = c).
Proof.
  unfold chan.recv. destruct (chan.buf c) as [|y q].
  - destruct (chan.closed c); split; try done.
    + intros [= <- <-]. by right.
    + by intros [(q & ? & _)|(_ & _ & -> & ->)].
    + by intros [(q & ? & _)|(_ & ? & _)].
  - split.
    + intros [= <- <-]. left. by exists q.
    + intros [(q' & [= <- <-] & ->)|(? & _)]; done.
Qed.

#[global] Arguments chan.send : simpl never.
#[global] Arguments chan.recv : simpl never.
#[global] Arguments chan.close : simpl never.

Ltac chan_inv :=
  repeat match goal with
  | H : chan.send _ _ = chan.Ok _ |- _ => apply send_Ok in H as (? & ? & ?)
  | H : chan.send _ _ = chan.Panics |- _ => apply send_Panics in H
  | H : chan.close _ = chan.Ok _ |- _ => apply close_Ok in H as (? & ?)
  | H : chan.recv _ = chan.Ok _ |- _ =>
      apply recv_Ok in H as [(? & ? & ?)|(? & ? & ? & ?)]
  end.

(** ** AllOf *)

Section allOf_any.
Context {T : Type} `{!Zero T} (n : nat).
Implicit Types (m : allOf.machine T) (tr : list (allOf.event T)).

(** The channel and the context of a future among [asyncs], across the
    updates the machines make. *)
Lemma rCh_lookup (asyncs : list (option (Future.running T))) i c :
  Future.rCh asyncs i = Some c ↔ ∃ fctx, asyncs !! i = Some (Some (fctx, c)).
Proof.
  unfold Future.rCh. destruct (asyncs !! i) as [[[fctx c']|]|]; simpl; split;
    try done; try (by intros [? ?]).
  - intros [= <-]. by exists fctx.
  - by intros [? [= <- <-]].
Qed.

Lemma rCh_finish e (asyncs : list (option (Future.running T))) i :
  Future.rCh (Future.finish e <$> asyncs) i = Future.rCh asyncs i.
Proof.
  unfold Future.rCh. rewrite list_lookup_fmap.
  by destruct (asyncs !! i) as [[[fctx c']|]|].
Qed.

Lemma rCh_insert (asyncs : list (option (Future.running T))) i j a :
  is_Some (asyncs !! j) →
  Future.rCh (<[j := Some a]> asyncs) i =
  if decide (i = j) then Some a.2 else Future.rCh asyncs i.
Proof.
  intros Hj%lookup_lt_is_Some. unfold Future.rCh.
  destruct (decide (i = j)) as [->|Hij].
  - by rewrite list_lookup_insert_eq.
  - by rewrite list_lookup_insert_ne.
Qed.

Lemma ctx_lookup (asyncs : list (option (Future.running T))) i c :
  Future.ctx asyncs i = Some c ↔ ∃ rCh, asyncs !! i = Some (Some (c, rCh)).
Proof.
  unfold Future.ctx. destruct (asyncs !! i) as [[[fctx c']|]|]; simpl; split;
    try done; try (by intros [? ?]).
  - intros [= <-]. by exists c'.
  - by intros [? [= <- <-]].
Qed.

Lemma ctx_finish e (asyncs : list (option (Future.running T))) i :
  Future.ctx (Future.finish e <$> asyncs) i = propagate e <$> Future.ctx asyncs i.
Proof.
  unfold Future.ctx. rewrite list_lookup_fmap.
  by destruct (asyncs !! i) as [[[fctx c']|]|].
Qed.

Lemma ctx_insert (asyncs : list (option (Future.running T))) i j a :
  is_Some (asyncs !! j) →
  Future.ctx (<[j := Some a]> asyncs) i =
  if decide (i = j) then Some a.1 else Future.ctx asyncs i.
Proof.
  intros Hj%lookup_lt_is_Some. unfold Future.ctx.
  destruct (decide (i = j)) as [->|Hij].
  - by rewrite list_lookup_insert_eq.
  - by rewrite list_lookup_insert_ne.
Qed.

Lemma recv_fields {A} `{!Zero A} (ch c : chan.t A) x :
  chan.recv ch = chan.Ok (x, c) →
  chan.cap c = chan.cap ch ∧ chan.closed c = chan.closed ch ∧
  (chan.buf ch = x :: chan.buf c ∨
   (chan.buf ch = [] ∧ chan.buf c = [] ∧ chan.closed ch = true ∧ x = zero)).
Proof.
  intros [(q & Hq & ->)|(Hb & Hc & -> & ->)]%recv_Ok; simpl; eauto 10.
Qed.

(** [return] in a state whose channel is already closed, and in one
    whose channel is still open. *)
Lemma allOf_return_closed m values err :
  chan.closed (allOf.resultCh m) = true →
  allOf.return_ m values err =
  allOf.Machine (allOf.scope m) (allOf.ctx m) (allOf.resultCh m)
    (allOf.workers m) (allOf.asyncs m) (allOf.main m) true.
Proof. intros Hc. unfold allOf.return_, chan.close. by rewrite Hc. Qed.

Lemma allOf_return_open m values err :
  chan.closed (allOf.resultCh m) = false →
  allOf.return_ m values err =
  allOf.Machine (allOf.scope m) (propagate Canceled (allOf.ctx m))
    (chan.mk (chan.buf (allOf.resultCh m)) (chan.cap (allOf.resultCh m)) true)
    (allOf.workers m) (Future.finish Canceled <$> allOf.asyncs m)
    (allOf.Finished values err) false.
Proof. intros Hc. unfold allOf.return_, chan.close. by rewrite Hc. Qed.

(** The step function, read backwards: what an enabled event found and
    what it left. *)
Lemma allOf_step_inv m ev m' :
  allOf.step n m ev = Some m' →
  allOf.panicked m = false ∧
  match ev with
  | allOf.ScopeCancelled e =>
      Done (allOf.scope m) = false ∧
      m' = allOf.Machine (Some e) (propagate e (allOf.ctx m)) (allOf.resultCh m)
             (allOf.workers m) (Future.finish e <$> allOf.asyncs m) (allOf.main m) false
  | allOf.Dispatch j =>
      allOf.workers m !! j = Some allOf.Spawned ∧
      m' = allOf.Machine (allOf.scope m) (allOf.ctx m) (allOf.resultCh m)
             (<[j := allOf.Selecting]> (allOf.workers m))
             (<[j := Some (Future.Async (allOf.ctx m))]> (allOf.asyncs m))
             (allOf.main m) false
  | allOf.Deliver j r =>
      ∃ fctx rCh,
        allOf.asyncs m !! j = Some (Some (fctx, rCh)) ∧
        chan.closed rCh = false ∧ length (chan.buf rCh) < chan.cap rCh ∧
        m' = allOf.Machine (allOf.scope m) (allOf.ctx m) (allOf.resultCh m)
               (allOf.workers m)
               (<[j := Some (fctx, chan.mk (chan.buf rCh ++ [r]) (chan.cap rCh) true)]>
                  (allOf.asyncs m))
               (allOf.main m) false
  | allOf.TakeResult j =>
      ∃ fctx rCh result rCh',
        allOf.workers m !! j = Some allOf.Selecting ∧
        allOf.asyncs m !! j = Some (Some (fctx, rCh)) ∧
        chan.recv rCh = chan.Ok (result, rCh') ∧
        ((chan.closed (allOf.resultCh m) = false ∧
          length (chan.buf (allOf.resultCh m)) < chan.cap (allOf.resultCh m) ∧
          m' = allOf.Machine (allOf.scope m) (allOf.ctx m)
                 (chan.mk (chan.buf (allOf.resultCh m) ++ [allOf.Indexed j result])
                    (chan.cap (allOf.resultCh m)) false)
                 (<[j := allOf.Gone]> (allOf.workers m))
                 (<[j := Some (fctx, rCh')]> (allOf.asyncs m)) (allOf.main m) false) ∨
         (chan.closed (allOf.resultCh m) = true ∧
          m' = allOf.Machine (allOf.scope m) (allOf.ctx m) (allOf.resultCh m)
                 (allOf.workers m) (<[j := Some (fctx, rCh')]> (allOf.asyncs m))
                 (allOf.main m) true))
  | allOf.TakeDone j =>
      allOf.workers m !! j = Some allOf.Selecting ∧ Done (allOf.ctx m) = true ∧
      m' = allOf.Machine (allOf.scope m) (allOf.ctx m) (allOf.resultCh m)
             (<[j := allOf.Gone]> (allOf.workers m)) (allOf.asyncs m) (allOf.main m) false
  | allOf.Collect =>
      ∃ i values, allOf.main m = allOf.Collecting i values ∧
        ((¬ i < n ∧ m' = allOf.return_ m values None) ∨
         (i < n ∧ ∃ r c, chan.recv (allOf.resultCh m) = chan.Ok (r, c) ∧
            let m1 := allOf.Machine (allOf.scope m) (allOf.ctx m) c (allOf.workers m)
                        (allOf.asyncs m) (allOf.main m) false in
            match Error (allOf.result r) with
            | Some e => m' = allOf.return_ (allOf.finish Canceled m1) [] (Some e)
            | None =>
                (allOf.index r < length values ∧
                 m' = allOf.Machine (allOf.scope m) (allOf.ctx m) c (allOf.workers m)
                        (allOf.asyncs m)
                        (allOf.Collecting (S i)
                           (<[allOf.index r := Value (allOf.result r)]> values)) false) ∨
                (¬ allOf.index r < length values ∧
                 m' = allOf.Machine (allOf.scope m) (allOf.ctx m) c (allOf.workers m)
                        (allOf.asyncs m) (allOf.main m) true)
            end))
  end.
Proof.
  intros Hstep. unfold allOf.step in Hstep.
  destruct (allOf.panicked m) eqn:Hp; [done|]. split; [done|].
  destruct ev as [e|j|j r|j|j|]; simpl in Hstep.
  - destruct (Done (allOf.scope m)); by simplify_eq.
  - destruct (allOf.workers m !! j) as [[]|]; by simplify_eq.
  - destruct (allOf.asyncs m !! j) as [[[fctx rCh]|]|]; try done.
    unfold Future.deliver in Hstep. simpl in Hstep.
    destruct (chan.send rCh r) as [c| |] eqn:Hsend; try done.
    destruct (chan.close c) as [c'| |] eqn:Hclose; try done.
    chan_inv. simpl in *. simplify_eq. by eexists _, _.
  - destruct (allOf.workers m !! j) as [[]|]; try done.
    destruct (allOf.asyncs m !! j) as [[[fctx rCh]|]|]; try done.
    destruct (chan.recv rCh) as [[result rCh']| |] eqn:Hrecv; try done.
    destruct (chan.send _ _) as [c| |] eqn:Hsend; try done; simplify_eq.
    + apply send_Ok in Hsend as (? & ? & ->). eauto 15.
    + apply send_Panics in Hsend. eauto 15.
  - destruct (allOf.workers m !! j) as [[]|]; try done.
    destruct (Done (allOf.ctx m)); by simplify_eq.
  - unfold allOf.collect in Hstep.
    destruct (allOf.main m) as [i values|]; [|done]. exists i, values. split; [done|].
    case_bool_decide; [right|left; by simplify_eq]. split; [done|].
    destruct (chan.recv _) as [[r c]| |]; try done. exists r, c. split; [done|].
    simpl. destruct (Error (allOf.result r)); [by simplify_eq|].
    case_bool_decide; simplify_eq; eauto.
Qed.


Context (ctx0 : Ctx).

Lemma allOf_sizes tr m :
  exec (allOf.step n) (allOf.start ctx0 n) tr = Some m →
  length (allOf.workers m) = n ∧ length (allOf.asyncs m) = n ∧
  chan.cap (allOf.resultCh m) = n.
Proof.
  intros Hexec. pattern m.
  eapply (exec_preserves (allOf.step n)); [| |exact Hexec]; simpl.
  - clear. intros m ev m' (Hw & Ha & Hc) Hstep.
    apply allOf_step_inv in Hstep as [Hp Hstep].
    destruct ev as [e|j|j r|j|j|]; simpl in Hstep.
    + destruct Hstep as (_ & ->). simpl. by rewrite length_fmap.
    + destruct Hstep as (_ & ->). simpl. by rewrite !length_insert.
    + destruct Hstep as (? & ? & _ & _ & _ & ->). simpl. by rewrite !length_insert.
    + destruct Hstep as (? & ? & ? & ? & _ & _ & _ & [(_ & _ & ->)|(_ & ->)]);
        simpl; by rewrite !length_insert.
    + destruct Hstep as (_ & _ & ->). simpl. by rewrite !length_insert.
    + destruct Hstep as (i & values & _ & [(_ & ->)|(_ & r & c & Hrecv & Hm')]).
      * destruct (chan.closed (allOf.resultCh m)) eqn:Hcl.
        -- by rewrite allOf_return_closed.
        -- rewrite allOf_return_open by done. simpl. by rewrite length_fmap.
      * apply recv_fields in Hrecv as (Hcap & Hclosed & _). simpl in Hm'.
        destruct (Error (allOf.result r)) as [e|];
          [subst m'|destruct Hm' as [[_ ->]|[_ ->]]; simpl; by rewrite Hcap].
        match goal with |- context [allOf.return_ ?m0 _ _] =>
          destruct (chan.closed (allOf.resultCh m0)) eqn:Hcl;
          [rewrite allOf_return_closed by done
          |rewrite allOf_return_open by done] end;
          simpl in *; by rewrite ?length_fmap, ?Hcap.
  - by rewrite !length_replicate.
Qed.


(** While the function literal is in its loop, [resultCh] is open. *)
Lemma allOf_open tr m i values :
  exec (allOf.step n) (allOf.start ctx0 n) tr = Some m →
  allOf.main m = allOf.Collecting i values →
  chan.closed (allOf.resultCh m) = false.
Proof.
  intros Hexec. revert i values. pattern m.
  eapply (exec_preserves (allOf.step n)); [| |exact Hexec]; simpl; [|done].
  clear. intros m ev m' IH Hstep k vs.
  apply allOf_step_inv in Hstep as [Hp Hstep].
  destruct ev as [e|j|j r|j|j|]; simpl in Hstep.
  - destruct Hstep as (_ & ->). simpl. apply IH.
  - destruct Hstep as (_ & ->). simpl. apply IH.
  - destruct Hstep as (? & ? & _ & _ & _ & ->). simpl. apply IH.
  - destruct Hstep as (? & ? & ? & ? & _ & _ & _ & [(_ & _ & ->)|(_ & ->)]);
      simpl; [done|apply IH].
  - destruct Hstep as (_ & _ & ->). simpl. apply IH.
  - destruct Hstep as (i & values & Hmain & [(_ & ->)|(_ & r & c & Hrecv & Hm')]).
    + rewrite allOf_return_open by eauto. done.
    + apply recv_fields in Hrecv as (Hcap & Hclosed & _). simpl in Hm'.
      rewrite (IH _ _ Hmain) in Hclosed.
      destruct (Error (allOf.result r)) as [e|];
        [subst m'|destruct Hm' as [[_ ->]|[_ ->]]; simpl; by eauto].
      rewrite allOf_return_open by done. done.
Qed.

Lemma finish_finish e (asyncs : list (option (Future.running T))) :
  Future.finish e <$> (Future.finish e <$> asyncs) = Future.finish e <$> asyncs.
Proof.
  rewrite <-list_fmap_compose. apply list_fmap_ext. intros _ [[fctx c]|] _; [|done].
  simpl. by destruct fctx.
Qed.

(** One turn of the loop in a state whose [resultCh] is open. *)
Lemma allOf_collect_inv m m' i values :
  allOf.step n m allOf.Collect = Some m' →
  allOf.main m = allOf.Collecting i values →
  chan.closed (allOf.resultCh m) = false →
  (¬ i < n ∧
   m' = allOf.Machine (allOf.scope m) (propagate Canceled (allOf.ctx m))
          (chan.mk (chan.buf (allOf.resultCh m)) (chan.cap (allOf.resultCh m)) true)
          (allOf.workers m) (Future.finish Canceled <$> allOf.asyncs m)
          (allOf.Finished values None) false) ∨
  (i < n ∧ ∃ x q, chan.buf (allOf.resultCh m) = x :: q ∧
     ((∃ e, Error (allOf.result x) = Some e ∧
        m' = allOf.Machine (allOf.scope m) (propagate Canceled (allOf.ctx m))
               (chan.mk q (chan.cap (allOf.resultCh m)) true)
               (allOf.workers m) (Future.finish Canceled <$> allOf.asyncs m)
               (allOf.Finished [] (Some e)) false) ∨
      (Error (allOf.result x) = None ∧ allOf.index x < length values ∧
        m' = allOf.Machine (allOf.scope m) (allOf.ctx m)
               (chan.mk q (chan.cap (allOf.resultCh m)) false)
               (allOf.workers m) (allOf.asyncs m)
               (allOf.Collecting (S i) (<[allOf.index x := Value (allOf.result x)]> values))
               false) ∨
      (Error (allOf.result x) = None ∧ ¬ allOf.index x < length values ∧
        m' = allOf.Machine (allOf.scope m) (allOf.ctx m)
               (chan.mk q (chan.cap (allOf.resultCh m)) false)
               (allOf.workers m) (allOf.asyncs m) (allOf.main m) true))).
Proof.
  intros Hstep Hmain Hopen.
  apply allOf_step_inv in Hstep as [Hp Hstep]. simpl in Hstep.
  destruct Hstep as (i' & values' & Hmain' & [(? & ->)|(? & r & c & Hrecv & Hm')]);
    rewrite Hmain in Hmain'; simplify_eq.
  - left. split; [done|]. by rewrite allOf_return_open.
  - right. split; [done|].
    apply recv_Ok in Hrecv as [(q & Hq & ->)|(_ & ? & _)]; [|congruence].
    exists r, q. split; [done|]. rewrite Hopen in *. simpl in Hm'.
    destruct (Error (allOf.result r)) as [e|].
    + left. exists e. split; [done|]. subst m'.
      rewrite allOf_return_open by done. simpl.
      rewrite finish_finish. by destruct (allOf.ctx m).
    + right. destruct Hm' as [[? ->]|[? ->]]; [left|right]; by rewrite ?Hmain.
Qed.


(** The channel of a worker in its [select] is empty and open, or holds
    the one result and is closed. *)
Lemma allOf_selecting tr m i :
  exec (allOf.step n) (allOf.start ctx0 n) tr = Some m →
  allOf.panicked m = false →
  allOf.workers m !! i = Some allOf.Selecting →
  Future.rCh (allOf.asyncs m) i = Some (chan.make 1) ∨
  ∃ r, Future.rCh (allOf.asyncs m) i = Some (chan.mk [r] 1 true).
Proof.
  intros Hexec. revert i. revert tr m Hexec.
  apply (exec_ind (allOf.step n) (allOf.start ctx0 n) (λ tr m, ∀ i, _ → _ → _)).
  { simpl. intros i _ [? _]%lookup_replicate. done. }
  intros tr m ev m' Hexec IH Hstep.
  destruct (allOf_sizes _ _ Hexec) as (Hlw & Hla & _).
  pose proof Hstep as [Hp _]%allOf_step_inv. specialize (λ i, IH i Hp).
  destruct ev as [e|j|j r|j|j|].
  - apply allOf_step_inv in Hstep as [_ (_ & ->)]; simpl. intros k _.
    rewrite rCh_finish. apply IH.
  - apply allOf_step_inv in Hstep as [_ (Hj & ->)]; simpl. intros k _.
    rewrite rCh_insert by (apply lookup_lt_is_Some; apply lookup_lt_Some in Hj; lia).
    case_decide; [by left|].
    rewrite list_lookup_insert_ne by done. apply IH.
  - apply allOf_step_inv in Hstep as [_ (fctx & c & Hj & Hcl & _ & ->)]; simpl.
    intros k _ Hk. rewrite rCh_insert by eauto.
    case_decide as Hkj; [subst k|by apply IH]. simpl. right.
    assert (Future.rCh (allOf.asyncs m) j = Some c) as Hc by (apply rCh_lookup; eauto).
    destruct (IH j Hk) as [Hm|[r' Hm]]; rewrite Hm in Hc; simplify_eq; try done.
    by eexists.
  - apply allOf_step_inv in Hstep
      as [_ (fctx & c & res & c' & Hj & Ha & _ & [(_ & _ & ->)|(_ & ->)])]; simpl;
      [|done].
    intros k _ [(_ & ? & _)|(? & Hk)]%list_lookup_insert_Some; [done|].
    rewrite rCh_insert by eauto.
    case_decide; [done|]. by apply IH.
  - apply allOf_step_inv in Hstep as [_ (Hj & _ & ->)]; simpl.
    intros k _ [(_ & ? & _)|(? & Hk)]%list_lookup_insert_Some; [done|]. by apply IH.
  - pose proof Hstep as [_ (i & values & Hmain & _)]%allOf_step_inv.
    pose proof (allOf_open _ _ _ _ Hexec Hmain) as Hopen.
    eapply allOf_collect_inv in Hstep; [|exact Hmain|exact Hopen].
    destruct Hstep
      as [(_ & ->)|(_ & x & q & _ & [(e & _ & ->)|[(_ & _ & ->)|(_ & _ & ->)]])];
      simpl; intros k _; rewrite ?rCh_finish; apply IH.
Qed.

(** What the channel of a future holds was delivered by the future. *)
Lemma allOf_delivered tr m i c r :
  exec (allOf.step n) (allOf.start ctx0 n) tr = Some m →
  Future.rCh (allOf.asyncs m) i = Some c → r ∈ chan.buf c →
  allOf.Deliver i r ∈ tr.
Proof.
  intros Hexec. revert i c r. revert tr m Hexec.
  apply (exec_ind (allOf.step n) (allOf.start ctx0 n) (λ tr m, ∀ i c r, _ → _ → _)).
  { simpl. intros i c r Hc. apply rCh_lookup in Hc as [fctx Hc].
    apply lookup_replicate in Hc as [? _]. done. }
  intros tr m ev m' Hexec IH Hstep.
  destruct (allOf_sizes _ _ Hexec) as (Hlw & Hla & _).
  assert (∀ i c r, Future.rCh (allOf.asyncs m) i = Some c → r ∈ chan.buf c →
                   allOf.Deliver i r ∈ tr ++ [ev]) as IH'.
  { intros. apply elem_of_app. left. eauto. }
  clear IH.
  destruct ev as [e|j|j r|j|j|].
  - apply allOf_step_inv in Hstep as [_ (_ & ->)]; simpl. intros k c r0.
    rewrite rCh_finish. apply IH'.
  - apply allOf_step_inv in Hstep as [_ (Hj & ->)]; simpl. intros k c r0.
    rewrite rCh_insert by (apply lookup_lt_is_Some; apply lookup_lt_Some in Hj; lia).
    case_decide; [|apply IH'].
    intros [= <-]. simpl. by intros ?%elem_of_nil.
  - apply allOf_step_inv in Hstep as [_ (fctx & c0 & Hj & Hcl & _ & ->)]; simpl.
    intros k c r0. rewrite rCh_insert by eauto.
    case_decide as Hkj; [subst k|by apply IH']. simpl. intros [= <-]. simpl.
    intros [Hin| ->%list_elem_of_singleton]%elem_of_app.
    + eapply IH'; [|done]. apply rCh_lookup; eauto.
    + apply elem_of_app. right. by apply list_elem_of_singleton.
  - apply allOf_step_inv in Hstep
      as [_ (fctx & c0 & res & c' & _ & Hj & Hrecv & Hm')].
    apply recv_fields in Hrecv as (_ & _ & Hbuf).
    assert (∀ r, r ∈ chan.buf c' → r ∈ chan.buf c0) as Hsub.
    { intros r. destruct Hbuf as [->|(-> & -> & _)]; [|done]. by right. }
    destruct Hm' as [(_ & _ & ->)|(_ & ->)]; simpl; intros k c r0;
      (rewrite rCh_insert by eauto);
      (case_decide as Hkj; [subst k|by apply IH']); simpl; intros [= <-] Hin;
      (eapply IH'; [apply rCh_lookup; eauto|by apply Hsub]).
  - apply allOf_step_inv in Hstep as [_ (Hj & _ & ->)]; simpl. apply IH'.
  - pose proof Hstep as [_ (i & values & Hmain & _)]%allOf_step_inv.
    pose proof (allOf_open _ _ _ _ Hexec Hmain) as Hopen.
    eapply allOf_collect_inv in Hstep; [|exact Hmain|exact Hopen].
    destruct Hstep
      as [(_ & ->)|(_ & x & q & _ & [(e & _ & ->)|[(_ & _ & ->)|(_ & _ & ->)]])];
      simpl; intros k c r0; rewrite ?rCh_finish; apply IH'.
Qed.


(** What [resultCh] holds was delivered by the future of that index, and
    sent by its worker, which has returned. *)
Lemma allOf_sent tr m x :
  exec (allOf.step n) (allOf.start ctx0 n) tr = Some m →
  x ∈ chan.buf (allOf.resultCh m) →
  allOf.Deliver (allOf.index x) (allOf.result x) ∈ tr ∧
  allOf.workers m !! allOf.index x = Some allOf.Gone.
Proof.
  intros Hexec. revert x. revert tr m Hexec.
  apply (exec_ind (allOf.step n) (allOf.start ctx0 n) (λ tr m, ∀ x, _ → _)).
  { simpl. by intros x ?%elem_of_nil. }
  intros tr m ev m' Hexec IH Hstep.
  destruct (allOf_sizes _ _ Hexec) as (Hlw & Hla & _).
  assert (∀ x, x ∈ chan.buf (allOf.resultCh m) →
               allOf.Deliver (allOf.index x) (allOf.result x) ∈ tr ++ [ev] ∧
               allOf.workers m !! allOf.index x = Some allOf.Gone) as IH'.
  { intros x Hx. destruct (IH x Hx). split; [|done]. apply elem_of_app. by left. }
  clear IH.
  destruct ev as [e|j|j r|j|j|].
  - apply allOf_step_inv in Hstep as [_ (_ & ->)]; simpl. apply IH'.
  - apply allOf_step_inv in Hstep as [_ (Hj & ->)]; simpl. intros x Hx.
    destruct (IH' x Hx) as [? Hg]. split; [done|].
    rewrite list_lookup_insert_ne; [done|]. congruence.
  - apply allOf_step_inv in Hstep as [_ (fctx & c0 & Hj & Hcl & _ & ->)]; simpl.
    apply IH'.
  - pose proof Hstep as [Hp _]%allOf_step_inv.
    apply allOf_step_inv in Hstep
      as [_ (fctx & c0 & res & c' & Hj & Ha & Hrecv & [(_ & _ & ->)|(_ & ->)])];
      simpl; [|apply IH'].
    intros x [Hx| ->%list_elem_of_singleton]%elem_of_app; simpl.
    + destruct (IH' x Hx) as [? Hg]. split; [done|].
      destruct (decide (j = allOf.index x)) as [<-|].
      * apply list_lookup_insert_eq. by eapply lookup_lt_Some.
      * by rewrite list_lookup_insert_ne.
    + split; [|apply list_lookup_insert_eq; by eapply lookup_lt_Some].
      apply elem_of_app. left.
      assert (Future.rCh (allOf.asyncs m) j = Some c0) as Hc
        by (apply rCh_lookup; eauto).
      apply (allOf_delivered _ _ _ _ _ Hexec Hc).
      destruct (allOf_selecting _ _ _ Hexec Hp Hj) as [Hm|[r' Hm]];
        rewrite Hm in Hc; injection Hc as <-.
      * by apply recv_Ok in Hrecv as [(? & ? & _)|(_ & ? & _)].
      * apply recv_Ok in Hrecv as [(q & [= <- <-] & _)|(? & _)]; [by left|done].
  - apply allOf_step_inv in Hstep as [_ (Hj & _ & ->)]; simpl. intros x Hx.
    destruct (IH' x Hx) as [? Hg]. split; [done|].
    destruct (decide (j = allOf.index x)) as [<-|].
    + apply list_lookup_insert_eq. by eapply lookup_lt_Some.
    + by rewrite list_lookup_insert_ne.
  - pose proof Hstep as [_ (i & values & Hmain & _)]%allOf_step_inv.
    pose proof (allOf_open _ _ _ _ Hexec Hmain) as Hopen.
    eapply allOf_collect_inv in Hstep; [|exact Hmain|exact Hopen].
    destruct Hstep
      as [(_ & ->)|(_ & x & q & Hq & [(e & _ & ->)|[(_ & _ & ->)|(_ & _ & ->)]])];
      simpl; try apply IH'; intros y Hy; apply IH'; rewrite Hq; by right.
Qed.

(** Once the derived context is done, so is every context derived from
    it by an [Async]. *)
Lemma allOf_cancelled tr m i c :
  exec (allOf.step n) (allOf.start ctx0 n) tr = Some m →
  Done (allOf.ctx m) = true → Future.ctx (allOf.asyncs m) i = Some c →
  Done c = true.
Proof.
  intros Hexec. revert i c. pattern m.
  eapply (exec_preserves (allOf.step n)); [| |exact Hexec]; simpl.
  2:{ intros i c _ [? Hc]%ctx_lookup. by apply lookup_replicate in Hc as [? _]. }
  clear. intros m ev m' IH Hstep.
  assert (∀ e c, Done (propagate e c) = true) as Hprop by (by intros ? []).
  destruct ev as [e|j|j r|j|j|].
  - apply allOf_step_inv in Hstep as [_ (_ & ->)]; simpl. intros k c _.
    rewrite ctx_finish. destruct (Future.ctx _ _); [|done]. by intros [= <-].
  - apply allOf_step_inv in Hstep as [_ (Hj & ->)]; simpl. intros k c Hd.
    destruct (decide (k = j)) as [->|Hkj].
    + intros [rCh Hc]%ctx_lookup.
      apply list_lookup_insert_Some in Hc as [(_ & Hc & _)|(? & _)]; [|done].
      unfold Future.Async, WithCancel in Hc. by simplify_eq.
    + intros [rCh Hc]%ctx_lookup. rewrite list_lookup_insert_ne in Hc by done.
      eapply IH; [done|]. apply ctx_lookup; eauto.
  - apply allOf_step_inv in Hstep as [_ (fctx & c0 & Hj & Hcl & _ & ->)]; simpl.
    intros k c Hd. rewrite ctx_insert by eauto. case_decide as Hkj; [subst k|by apply IH].
    intros [= <-]. eapply IH; [done|]. apply ctx_lookup; eauto.
  - apply allOf_step_inv in Hstep
      as [_ (fctx & c0 & res & c' & Hj & Ha & Hrecv & [(_ & _ & ->)|(_ & ->)])];
      simpl; intros k c Hd; (rewrite ctx_insert by eauto);
      (case_decide as Hkj; [subst k|by apply IH]);
      intros [= <-]; (eapply IH; [done|]); apply ctx_lookup; eauto.
  - apply allOf_step_inv in Hstep as [_ (Hj & _ & ->)]; simpl. apply IH.
  - pose proof Hstep as [_ (i & values & Hmain & [(_ & Hm')|(_ & r & c & _ & Hm')])]%allOf_step_inv.
    + subst m'. intros k c0.
      destruct (chan.closed (allOf.resultCh m)) eqn:Hcl;
        [rewrite allOf_return_closed by done; apply IH
        |rewrite allOf_return_open by done; simpl; intros _; rewrite ctx_finish].
      destruct (Future.ctx _ _); [|done]. by intros [= <-].
    + simpl in Hm'. destruct (Error (allOf.result r)).
      * subst m'. intros k c0.
        match goal with |- context [allOf.return_ ?m0 _ _] =>
          destruct (chan.closed (allOf.resultCh m0)) eqn:Hcl;
          [rewrite allOf_return_closed by done
          |rewrite allOf_return_open by done] end; simpl; intros _;
          rewrite ?ctx_finish; destruct (Future.ctx _ _); simpl; try done;
          by intros [= <-].
      * destruct Hm' as [[_ ->]|[_ ->]]; simpl; apply IH.
Qed.


(** Distinct indices below [n], at least [n] of them, are all of them. *)
Lemma NoDup_all (C : list nat) :
  NoDup C → (∀ i, i ∈ C → i < n) → n ≤ length C → ∀ i, i < n → i ∈ C.
Proof.
  intros Hnd Hlt Hlen i Hi.
  assert (C ⊆+ seq 0 n) as Hsub.
  { apply NoDup_submseteq; [done|]. intros x Hx. apply elem_of_seq. split; [lia|].
    simpl. by apply Hlt. }
  apply submseteq_length_Permutation in Hsub; [|by rewrite length_seq].
  rewrite Hsub. apply elem_of_seq. lia.
Qed.

(** The loop of the function literal.  After [k] turns, [k] results were
    collected, each from a different future, none failing, and [values]
    holds them at their indices; on return, either all [n] futures
    delivered without failure and [values] holds what they delivered, or
    [values] is [nil] and the error is one that a future delivered. *)
Lemma allOf_collector tr m :
  exec (allOf.step n) (allOf.start ctx0 n) tr = Some m →
  match allOf.main m with
  | allOf.Collecting k values =>
      allOf.panicked m = false ∧ length values = n ∧
      ∃ C, NoDup (C ++ (allOf.index <$> chan.buf (allOf.resultCh m))) ∧
           length C = k ∧
           ∀ i, i ∈ C →
                allOf.workers m !! i = Some allOf.Gone ∧
                ∃ r, allOf.Deliver i r ∈ tr ∧ Error r = None ∧
                     values !! i = Some (Value r)
  | allOf.Finished values err =>
      Done (allOf.ctx m) = true ∧
      match err with
      | None =>
          length values = n ∧
          ∀ i, i < n → ∃ r, allOf.Deliver i r ∈ tr ∧ Error r = None ∧
                            values !! i = Some (Value r)
      | Some e => values = [] ∧ ∃ i r, allOf.Deliver i r ∈ tr ∧ Error r = Some e
      end
  end.
Proof.
  revert tr m. apply (exec_ind (allOf.step n) (allOf.start ctx0 n)).
  { simpl. split_and!; [done|by rewrite length_replicate|].
    exists []. split_and!; [apply NoDup_nil_2|done|]. by intros i ?%elem_of_nil. }
  intros tr m ev m' Hexec IH Hstep.
  destruct (allOf_sizes _ _ Hexec) as (Hlw & Hla & _).
  assert (∀ i r, allOf.Deliver i r ∈ tr → allOf.Deliver i r ∈ tr ++ [ev]) as Hmono.
  { intros. apply elem_of_app. by left. }
  assert (∀ e c, Done (propagate e c) = true) as Hprop by (by intros ? []).
  assert (ev = allOf.Collect ∨ ev ≠ allOf.Collect) as [->|Hev]
    by (destruct ev; [right..|left]; done).
  { (* a turn of the loop, or the return *)
    pose proof Hstep as [_ (k & values & Hmain & _)]%allOf_step_inv.
    pose proof (allOf_open _ _ _ _ Hexec Hmain) as Hopen.
    eapply allOf_collect_inv in Hstep; [|exact Hmain|exact Hopen].
    rewrite Hmain in IH. destruct IH as (Hp & Hlen & C & Hnd & HC & Hin).
    assert (∀ i, i ∈ C → i < n) as Hlt.
    { intros i [Hg _]%Hin. apply lookup_lt_Some in Hg. lia. }
    destruct Hstep
      as [(Hk & ->)|(Hk & x & q & Hq & [(e & He & ->)|[(He & Hx & ->)|(He & Hx & ->)]])];
      simpl.
    - split; [done|]. split; [done|]. intros i Hi.
      destruct (Hin i) as (_ & r & ? & ? & ?); [|by eauto].
      apply NoDup_all; [by apply NoDup_app in Hnd as (? & _)|done|lia|done].
    - split; [done|]. split; [done|].
      destruct (allOf_sent _ _ x Hexec) as [Hd _]; [rewrite Hq; by left|]. eauto.
    - rewrite Hq in Hnd. simpl in Hnd. rewrite length_insert.
      split_and!; [done..|]. exists (allOf.index x :: C).
      destruct (allOf_sent _ _ x Hexec) as [Hd Hg]; [rewrite Hq; by left|].
      split_and!.
      + by rewrite <-Permutation_middle in Hnd.
      + simpl. by rewrite HC.
      + intros i [->|Hi]%elem_of_cons.
        * split; [done|]. exists (allOf.result x).
          split_and!; [by eauto|done|]. by apply list_lookup_insert_eq.
        * destruct (Hin i Hi) as (? & r & ? & ? & ?). split; [done|].
          exists r. split_and!; [by eauto|done|].
          rewrite list_lookup_insert_ne; [done|]. intros <-.
          apply NoDup_app in Hnd as (_ & Hnd & _). apply (Hnd _ Hi). by left.
    - destruct (allOf_sent _ _ x Hexec) as [_ Hg]; [rewrite Hq; by left|].
      apply lookup_lt_Some in Hg. lia. }
  (* the other events leave the loop where it is *)
  assert (allOf.main m' = allOf.main m ∧
          (Done (allOf.ctx m) = true → Done (allOf.ctx m') = true)) as [Hmain Hdone].
  { apply allOf_step_inv in Hstep as [_ Hstep].
    destruct ev as [e|j|j r|j|j|]; simpl in Hstep; try done.
    - destruct Hstep as (_ & ->). simpl. eauto.
    - by destruct Hstep as (_ & ->).
    - by destruct Hstep as (? & ? & _ & _ & _ & ->).
    - by destruct Hstep as (? & ? & ? & ? & _ & _ & _ & [(_ & _ & ->)|(_ & ->)]).
    - by destruct Hstep as (_ & _ & ->). }
  rewrite Hmain. destruct (allOf.main m) as [k values|values err] eqn:Hm.
  2:{ destruct IH as [Hd IH]. split; [by apply Hdone|].
      destruct err as [e|].
      - destruct IH as (-> & i & r & ? & ?). split; [done|]. exists i, r. eauto.
      - destruct IH as (? & IH). split; [done|]. intros i Hi.
        destruct (IH i Hi) as (r & ? & ? & ?). exists r. eauto. }
  destruct IH as (Hp & Hlen & C & Hnd & HC & Hin).
  pose proof (allOf_open _ _ _ _ Hexec Hm) as Hopen.
  assert (∀ i, i ∈ C →
    allOf.workers m !! i = Some allOf.Gone ∧
    ∃ r, allOf.Deliver i r ∈ tr ++ [ev] ∧ Error r = None ∧
         values !! i = Some (Value r)) as Hin'.
  { intros i Hi. destruct (Hin i Hi) as (? & r & ? & ? & ?). eauto 10. }
  clear Hin.
  pose proof (λ x, allOf_sent _ _ x Hexec) as Hsent.
  apply allOf_step_inv in Hstep as [_ Hstep].
  destruct ev as [e|j|j r|j|j|]; simpl in Hstep; try done.
  - destruct Hstep as (_ & ->); simpl. split_and!; [done..|]. by exists C.
  - destruct Hstep as (Hj & ->); simpl. split_and!; [done..|]. exists C.
    split_and!; [done..|]. intros i Hi. destruct (Hin' i Hi) as [Hg ?].
    split; [|done]. rewrite list_lookup_insert_ne; [done|]. congruence.
  - destruct Hstep as (? & ? & _ & _ & _ & ->); simpl. split_and!; [done..|].
    by exists C.
  - destruct Hstep as (? & ? & res & ? & Hj & _ & _ & [(_ & _ & ->)|(? & _)]);
      [|congruence].
    simpl. split_and!; [done..|]. exists C. split_and!; [|done|].
    + rewrite fmap_app, app_assoc. simpl. apply NoDup_app. split_and!.
      * done.
      * intros i Hi ->%list_elem_of_singleton.
        apply elem_of_app in Hi as [Hi|Hi].
        -- destruct (Hin' j Hi) as [Hg _]. congruence.
        -- apply list_elem_of_fmap in Hi as (y & -> & Hy).
           destruct (Hsent y Hy) as [_ Hg]. congruence.
      * apply NoDup_singleton.
    + intros i Hi. destruct (Hin' i Hi) as [Hg ?]. split; [|done].
      rewrite list_lookup_insert_ne; [done|]. congruence.
  - destruct Hstep as (Hj & _ & ->); simpl. split_and!; [done..|]. exists C.
    split_and!; [done..|]. intros i Hi. destruct (Hin' i Hi) as [Hg ?].
    split; [|done]. rewrite list_lookup_insert_ne; [done|]. congruence.
Qed.
End allOf_any.

(** Counting the elements of a list that satisfy a predicate, across an
    update in place. *)
Lemma filter_insert_length {A} (P : A → Prop) `{!∀ x, Decision (P x)}
    (l : list A) i x y :
  l !! i = Some x →
  length (filter P (<[i:=y]> l)) + (if decide (P x) then 1 else 0) =
  length (filter P l) + (if decide (P y) then 1 else 0).
Proof.
  revert i. induction l as [|a l IH]; intros [|i] Hi; simpl in *; simplify_eq.
  - rewrite !filter_cons. repeat case_decide; simpl; lia.
  - rewrite !filter_cons. specialize (IH i Hi).
    destruct (decide (P a)); simpl; lia.
Qed.

Lemma filter_length_lt {A} (P : A → Prop) `{!∀ x, Decision (P x)} (l : list A) :
  length (filter P l) < length l → ∃ i x, l !! i = Some x ∧ ¬ P x.
Proof.
  induction l as [|a l IH]; simpl; [lia|]. rewrite filter_cons.
  destruct (decide (P a)); simpl; intros Hlt.
  - destruct IH as (i & x & ? & ?); [lia|]. by exists (S i), x.
  - by exists 0, a.
Qed.

Lemma sum_list_fmap_insert {A} (f : A → nat) (l : list A) i x y :
  l !! i = Some x →
  sum_list (f <$> <[i:=y]> l) + f x = sum_list (f <$> l) + f y.
Proof.
  revert i. induction l as [|a l IH]; intros [|i] Hi; simplify_eq/=; [lia|].
  specialize (IH i Hi). lia.
Qed.

Lemma sum_list_fmap_replicate {A} (f : A → nat) n x :
  sum_list (f <$> replicate n x) = n * f x.
Proof. induction n as [|n IH]; simplify_eq/=; lia. Qed.

Lemma future_left_finish {T} e (asyncs : list (option (Future.running T))) :
  sum_list (future_left <$> (Future.finish e <$> asyncs)) =
  sum_list (future_left <$> asyncs).
Proof.
  rewrite <-list_fmap_compose. f_equal. apply list_fmap_ext.
  by intros _ [[fctx c]|] _.
Qed.

(** [Async] on a future adds at most the delivery of its result. *)
Lemma future_left_insert {T} (asyncs : list (option (Future.running T))) j a :
  sum_list (future_left <$> <[j := Some a]> asyncs) ≤
  sum_list (future_left <$> asyncs) + 1.
Proof.
  revert j. induction asyncs as [|a0 asyncs IH]; intros [|j]; csimpl; try lia.
  - destruct a as [fctx c]. simpl. destruct (chan.closed c); lia.
  - specialize (IH j). lia.
Qed.

Section allOf_left.
Context {T : Type} `{!Zero T} (n : nat).
Implicit Types (m : allOf.machine T) (tr : list (allOf.event T)).

(** Every event of the function literal of [AllOf] uses up a step. *)
Lemma allOf_step_left m ev m' :
  allOf.step n m ev = Some m' → allOf_left n m' < allOf_left n m.
Proof.
  intros Hstep. apply allOf_step_inv in Hstep as [Hp Hstep].
  assert (∀ values err i vs,
    allOf.main m = allOf.Collecting i vs →
    allOf_left n (allOf.return_ m values err) < allOf_left n m) as Hreturn.
  { intros values err i vs Hmain.
    destruct (chan.closed (allOf.resultCh m)) eqn:Hcl.
    - rewrite allOf_return_closed by done. unfold allOf_left. simpl.
      rewrite Hp. lia.
    - rewrite allOf_return_open by done. unfold allOf_left. simpl.
      rewrite Hp, Hmain, future_left_finish. lia. }
  unfold allOf_left in *. rewrite Hp.
  destruct ev as [e|j|j r|j|j|]; simpl in Hstep.
  - destruct Hstep as (Hsc & ->). simpl. rewrite Hsc, future_left_finish. lia.
  - destruct Hstep as (Hj & ->). simpl.
    pose proof (sum_list_fmap_insert allOf_worker_left _ _ _ allOf.Selecting Hj) as Hw.
    pose proof (future_left_insert (allOf.asyncs m) j (Future.Async (allOf.ctx m))) as Ha.
    simpl in *. lia.
  - destruct Hstep as (fctx & rCh & Hj & Hcl & _ & ->). simpl.
    pose proof (sum_list_fmap_insert future_left _ _ _
      (Some (fctx, chan.mk (chan.buf rCh ++ [r]) (chan.cap rCh) true)) Hj) as Ha.
    simpl in Ha. rewrite Hcl in Ha. lia.
  - destruct Hstep as (fctx & rCh & res & rCh' & Hj & Haj & Hrecv & Hm').
    apply recv_fields in Hrecv as (_ & Hcl & _).
    pose proof (sum_list_fmap_insert future_left _ _ _ (Some (fctx, rCh')) Haj) as Ha.
    simpl in Ha. rewrite Hcl in Ha.
    pose proof (sum_list_fmap_insert allOf_worker_left _ _ _ allOf.Gone Hj) as Hw.
    simpl in Hw.
    destruct Hm' as [(_ & _ & ->)|(_ & ->)]; simpl; lia.
  - destruct Hstep as (Hj & _ & ->). simpl.
    pose proof (sum_list_fmap_insert allOf_worker_left _ _ _ allOf.Gone Hj) as Hw.
    simpl in Hw. lia.
  - destruct Hstep as (i & values & Hmain & [(_ & ->)|(Hi & r & c & Hrecv & Hm')]).
    + specialize (Hreturn values None i values Hmain). unfold allOf_left in Hreturn.
      rewrite Hp, Hmain in Hreturn. rewrite Hmain. lia.
    + simpl in Hm'. rewrite Hmain.
      destruct (Error (allOf.result r)) as [e|].
      * subst m'.
        match goal with |- context [allOf.return_ ?m0 _ _] =>
          destruct (chan.closed (allOf.resultCh m0)) eqn:Hcl;
          [rewrite allOf_return_closed by done
          |rewrite allOf_return_open by done] end;
          simpl; rewrite ?future_left_finish, ?Hmain; lia.
      * destruct Hm' as [[_ ->]|[_ ->]]; simpl; rewrite ?Hmain; lia.
Qed.

(** A run of the function literal has at most [5 * n + 3] events. *)
Lemma allOf_bound ctx0 tr m :
  exec (allOf.step n) (allOf.start ctx0 n) tr = Some m → length tr ≤ 5 * n + 3.
Proof.
  intros Hexec. apply (exec_measure _ (allOf_left n) allOf_step_left) in Hexec.
  unfold allOf_left at 2 in Hexec. simpl in Hexec.
  rewrite !sum_list_fmap_replicate in Hexec. simpl in Hexec.
  destruct (Done ctx0); lia.
Qed.
End allOf_left.

Section allOf_succeed.
Context {T : Type} `{!Zero T} (values : list T).
Implicit Types (m : allOf.machine T) (tr : list (allOf.event T)).
Local Abbreviation n := (length values).

(** While the futures succeed and nothing is cancelled, the contexts
    stay live until the function literal returns, and every worker that
    has returned has sent: the results collected and those in [resultCh]
    are as many as the workers that are gone. *)
Lemma allOf_succeeding tr m k vs :
  exec (allOf.step n) (allOf.start None n) tr = Some m →
  Forall (allOf.succeeds values) tr →
  allOf.main m = allOf.Collecting k vs →
  allOf.ctx m = None ∧
  k + length (chan.buf (allOf.resultCh m)) =
  length (filter (λ w, w = allOf.Gone) (allOf.workers m)).
Proof.
  intros Hexec. revert k vs. revert tr m Hexec.
  apply (exec_ind (allOf.step n) (allOf.start None n)
           (λ tr m, ∀ k vs, Forall _ tr → _ → _)).
  { simpl. intros k vs _ [= <- <-]. split; [done|]. simpl.
    induction n as [|n' IH]; simpl; [done|]. rewrite filter_cons.
    by case_decide. }
  intros tr m ev m' Hexec IH Hstep k vs [Hok Hev%Forall_inv]%Forall_app Hmain'.
  specialize (λ k vs, IH k vs Hok).
  assert (ev = allOf.Collect ∨ ev ≠ allOf.Collect) as [->|Hne]
    by (destruct ev; [right..|left]; done).
  { pose proof Hstep as [_ (k0 & vs0 & Hmain & _)]%allOf_step_inv.
    pose proof (allOf_open _ _ _ _ _ _ Hexec Hmain) as Hopen.
    destruct (IH _ _ Hmain) as [Hctx Hcount].
    eapply allOf_collect_inv in Hstep; [|exact Hmain|exact Hopen].
    destruct Hstep
      as [(_ & ->)|(_ & x & q & Hq & [(e & _ & ->)|[(_ & _ & ->)|(_ & Hx & ->)]])];
      simpl in *; try done.
    - simplify_eq. split; [done|]. rewrite Hq in Hcount. simpl in *. lia.
    - pose proof (allOf_collector _ _ _ _ Hexec) as Hcol. rewrite Hmain in Hcol.
      destruct Hcol as (_ & Hlen & _).
      destruct (allOf_sent _ _ _ _ x Hexec) as [_ Hg]; [rewrite Hq; by left|].
      apply lookup_lt_Some in Hg.
      destruct (allOf_sizes _ _ _ _ Hexec) as (Hlw & _). lia. }
  apply allOf_step_inv in Hstep as [_ Hstep].
  destruct ev as [e|j|j r|j|j|]; simpl in Hstep, Hev; try done.
  - destruct Hstep as (Hj & ->); simpl in *. destruct (IH _ _ Hmain') as [? Hc].
    split; [done|]. rewrite Hc.
    pose proof (filter_insert_length (λ w, w = allOf.Gone) _ _ _ allOf.Selecting Hj) as Hf.
    repeat case_decide; try done. lia.
  - destruct Hstep as (? & ? & _ & _ & _ & ->); simpl in *. by eapply IH.
  - destruct Hstep as (? & ? & res & ? & Hj & _ & _ & [(_ & _ & ->)|(_ & ->)]);
      simpl in *.
    + destruct (IH _ _ Hmain') as [? Hc]. split; [done|].
      rewrite length_app. simpl.
      pose proof (filter_insert_length (λ w, w = allOf.Gone) _ _ _ allOf.Gone Hj) as Hf.
      repeat case_decide; try done. lia.
    + by eapply IH.
  - destruct Hstep as (Hj & Hd & ->); simpl in *.
    destruct (IH _ _ Hmain') as [Hc _]. by rewrite Hc in Hd.
Qed.


(** With futures that succeed with [values], the function literal can
    only return [values, nil], and it is never stuck before it returns. *)
Lemma allOf_all_succeed tr m :
  exec (allOf.step n) (allOf.start None n) tr = Some m →
  Forall (allOf.succeeds values) tr →
  (∀ vs err, allOf.returned m = Some (vs, err) → vs = values ∧ err = None) ∧
  (allOf.returned m = None →
   ∃ ev, allOf.succeeds values ev ∧ is_Some (allOf.step n m ev)).
Proof.
  intros Hexec Hok.
  pose proof (allOf_collector _ _ _ _ Hexec) as Hcol.
  assert (∀ i r, allOf.Deliver i r ∈ tr → values !! i = Some (Value r) ∧ Error r = None)
    as Hdel.
  { intros i r Hin. rewrite Forall_forall in Hok. apply (Hok _ Hin). }
  unfold allOf.returned. destruct (allOf.main m) as [k vs|vs err] eqn:Hmain.
  - split; [done|]. intros _. destruct Hcol as (Hp & Hlen & _).
    pose proof (allOf_open _ _ _ _ _ _ Hexec Hmain) as Hopen.
    destruct (allOf_succeeding _ _ _ _ Hexec Hok Hmain) as [Hctx Hcount].
    destruct (allOf_sizes _ _ _ _ Hexec) as (Hlw & Hla & Hcap).
    destruct (decide (k < n)) as [Hk|Hk].
    2:{ exists allOf.Collect. split; [done|]. unfold allOf.step, allOf.collect.
        rewrite Hp, Hmain. by rewrite bool_decide_eq_false_2. }
    destruct (chan.buf (allOf.resultCh m)) as [|x q] eqn:Hq.
    2:{ exists allOf.Collect. split; [done|]. unfold allOf.step, allOf.collect.
        rewrite Hp, Hmain. rewrite bool_decide_eq_true_2 by done.
        unfold chan.recv. rewrite Hq. simpl. destruct (Error _); [done|].
        by case_bool_decide. }
    simpl in Hcount.
    destruct (filter_length_lt (λ w, w = allOf.Gone) (allOf.workers m))
      as (i & w & Hi & Hw); [lia|].
    assert (i < n) as Hin by (apply lookup_lt_Some in Hi; lia).
    destruct w; [| |done].
    + exists (allOf.Dispatch i). split; [done|]. unfold allOf.step.
      rewrite Hp. simpl. by rewrite Hi.
    + destruct (allOf_selecting _ _ _ _ _ Hexec Hp Hi) as [Hc|[r Hc]];
        apply rCh_lookup in Hc as [fctx Hc].
      * destruct (lookup_lt_is_Some_2 values i Hin) as [v Hv].
        exists (allOf.Deliver i (mkResult v None)). split; [done|].
        unfold allOf.step. rewrite Hp. simpl. rewrite Hc. simpl.
        by unfold Future.deliver, chan.send, chan.close.
      * exists (allOf.TakeResult i). split; [done|].
        unfold allOf.step. rewrite Hp. simpl. rewrite Hi, Hc.
        unfold chan.recv, chan.send. simpl. rewrite Hopen, Hq. simpl.
        rewrite bool_decide_eq_true_2 by lia. done.
  - split; [|done]. intros ? ? [= <- <-]. destruct Hcol as [_ Hcol].
    destruct err as [e|].
    + destruct Hcol as (_ & i & r & Hin & He). destruct (Hdel _ _ Hin). congruence.
    + split; [|done]. destruct Hcol as [Hlen Hcol]. apply list_eq. intros i.
      destruct (decide (i < n)) as [Hi|Hi].
      * destruct (Hcol i Hi) as (r & Hin & _ & ->). by destruct (Hdel _ _ Hin) as [-> _].
      * rewrite !lookup_ge_None_2 by lia. done.
Qed.
End allOf_succeed.

(** C4.  [AllOf] over futures that succeed with [values], awaited while
    no context is cancelled: whatever the order of the events (so in
    whatever order the futures complete), a returned Result has exactly
    [values], in the order of the futures, and a [nil] error; while the
    call has not returned, some event is enabled; and the run has at most
    [5 * len(futures) + 6] events, so the call returns. *)
Theorem AllOf_keeps_input_order {T} `{!Zero T} (values : list T) tr m :
  run (AllOf None (length values)) Await None tr = Some m →
  Forall (all_succeed values) tr →
  (∀ r, await m = Returned r → r = mkResult values None) ∧
  (await m = Waiting →
   ∃ ev, all_succeed values ev ∧
         is_Some (step (AllOf None (length values)) Await m ev)) ∧
  length tr ≤ 5 * length values + 6.
Proof.
  intros Hrun Hok.
  assert (Forall live tr ∧ Forall (allOf.succeeds values) (fn_events tr)) as [Hlive Hin].
  { clear Hrun. induction Hok as [|ev tr Hev _ [IH1 IH2]]; [done|].
    split; [constructor; [by destruct ev|done]|].
    destruct ev; simpl; try done. by constructor. }
  split_and!.
  - intros [vs err] Hr.
    apply (Await_live_returned _ tr m _ Hrun Hlive) in Hr.
    unfold result_of in Hr. simpl in Hr.
    destruct (exec (allOf.step (length values)) _ (fn_events tr)) as [s|] eqn:Hs;
      [|done]. simpl in Hr.
    destruct (allOf_all_succeed values _ _ Hs Hin) as [Hsafe _].
    destruct (Hsafe _ _ Hr) as [-> ->]. done.
  - intros Hw.
    destruct (Await_live_progress _ tr m Hrun Hlive Hw)
      as [?|[?|[?|(s & Hgo & Hnone & Hs)]]].
    + by exists GoSelect.
    + by exists GoReturn.
    + by exists RecvResult.
    + destruct (allOf_all_succeed values _ _ Hs Hin) as [_ Hprog].
      destruct (Hprog Hnone) as (ev & Hev & [s' Hstep]).
      exists (GoFn (cf:=AllOf None (length values)) ev). split; [done|].
      unfold step, go_step. rewrite Hgo. simpl in *. rewrite Hnone, Hstep. done.
  - pose proof (Await_live_bound _ tr m Hrun Hlive) as Hlen.
    destruct (Await_live_fn _ tr m Hrun Hlive) as [s Hs].
    cut (length (fn_events tr) ≤ 5 * length values + 3); [lia|].
    exact (allOf_bound _ _ _ _ Hs).
Qed.

(** [Test_Future_AllOf_Ordered], with the futures completing in the order
    3, 2, 1. *)
Lemma AllOf_keeps_input_order_witness :
  let cf := AllOf (T:=nat) None 3 in
  let ok := λ v : nat, mkResult v None in
  let tr : list (event cf) :=
    [GoSelect;
     GoFn (cf:=cf) (allOf.Dispatch 0); GoFn (cf:=cf) (allOf.Dispatch 1);
     GoFn (cf:=cf) (allOf.Dispatch 2);
     GoFn (cf:=cf) (allOf.Deliver 2 (ok 3)); GoFn (cf:=cf) (allOf.TakeResult 2);
     GoFn (cf:=cf) (allOf.Deliver 1 (ok 2)); GoFn (cf:=cf) allOf.Collect;
     GoFn (cf:=cf) (allOf.TakeResult 1);
     GoFn (cf:=cf) (allOf.Deliver 0 (ok 1)); GoFn (cf:=cf) (allOf.TakeResult 0);
     GoFn (cf:=cf) allOf.Collect; GoFn (cf:=cf) allOf.Collect;
     GoFn (cf:=cf) allOf.Collect; GoReturn; RecvResult] in
  ∃ m : machine cf, run cf Await None tr = Some m ∧
       await m = Returned (mkResult [1; 2; 3] None) ∧
       (∀ r, await m = Returned r → r = mkResult [1; 2; 3] None) ∧
       (await m = Waiting →
        ∃ ev, all_succeed [1; 2; 3] ev ∧ is_Some (step cf Await m ev)) ∧
       length tr ≤ 5 * 3 + 6.
Proof.
  intros cf ok tr.
  assert (Forall (all_succeed (ctx:=None) (futures:=3) [1; 2; 3]) tr) as Hok.
  { subst tr ok. repeat (constructor; [simpl; done|]). constructor. }
  destruct (run cf Await None tr) as [m|] eqn:Hrun;
    [|vm_compute in Hrun; discriminate Hrun].
  pose proof (AllOf_keeps_input_order [1; 2; 3] tr m Hrun Hok) as Hm.
  vm_compute in Hrun. injection Hrun as <-.
  eexists. split; [reflexivity|]. split; [reflexivity|]. exact Hm.
Defined.

(** *** A failing future *)

Section allOf_failure.
Context {T : Type} `{!Zero T} (n : nat) (ctx0 : Ctx).
Implicit Types (m : allOf.machine T) (tr : list (allOf.event T)).

(** Distinct indices below [n] are at most [n]. *)
Lemma NoDup_bound (C : list nat) :
  NoDup C → (∀ i, i ∈ C → i < n) → length C ≤ n.
Proof.
  intros Hnd Hlt.
  assert (C ⊆+ seq 0 n) as Hsub.
  { apply NoDup_submseteq; [done|]. intros x Hx. apply elem_of_seq. split; [lia|].
    simpl. by apply Hlt. }
  apply submseteq_length in Hsub. by rewrite length_seq in Hsub.
Qed.

(** A future that delivers is one of the [n] futures. *)
Lemma allOf_deliver_index tr m i r :
  exec (allOf.step n) (allOf.start ctx0 n) tr = Some m →
  allOf.Deliver i r ∈ tr → i < n.
Proof.
  intros Hexec. revert i r. revert tr m Hexec.
  apply (exec_ind (allOf.step n) (allOf.start ctx0 n)
           (λ tr m, ∀ i r, allOf.Deliver i r ∈ tr → i < n)).
  { by intros i r ?%elem_of_nil. }
  intros tr m ev m' Hexec IH Hstep i r [Hin| <-%list_elem_of_singleton]%elem_of_app;
    [by eapply IH|].
  apply allOf_step_inv in Hstep as [_ (fctx & c & Hi & _)].
  apply lookup_lt_Some in Hi. destruct (allOf_sizes _ _ _ _ Hexec) as (_ & ? & _). lia.
Qed.

(** While a result waits in [resultCh], the loop has turns left. *)
Lemma allOf_turns_left tr m k values :
  exec (allOf.step n) (allOf.start ctx0 n) tr = Some m →
  allOf.main m = allOf.Collecting k values →
  k + length (chan.buf (allOf.resultCh m)) ≤ n.
Proof.
  intros Hexec Hmain. pose proof (allOf_collector _ _ _ _ Hexec) as Hcol.
  rewrite Hmain in Hcol. destruct Hcol as (_ & _ & C & Hnd & <- & HC).
  destruct (allOf_sizes _ _ _ _ Hexec) as (Hlw & _).
  rewrite <-(length_fmap allOf.index), <-length_app. apply NoDup_bound; [done|].
  intros i [Hi|Hi]%elem_of_app.
  - destruct (HC i Hi) as [Hg _]. apply lookup_lt_Some in Hg. lia.
  - apply list_elem_of_fmap in Hi as (x & -> & Hx).
    destruct (allOf_sent _ _ _ _ x Hexec Hx) as [_ Hg]. apply lookup_lt_Some in Hg. lia.
Qed.

(** After the function literal has returned, no event changes what it
    returned. *)
Lemma allOf_returned_stable m tr m' ret :
  allOf.returned m = Some ret →
  exec (allOf.step n) m tr = Some m' → allOf.returned m' = Some ret.
Proof.
  intros Hret. apply (exec_preserves (allOf.step n) (λ m, allOf.returned m = Some ret));
    [|done].
  clear. intros m ev m' Hret Hstep. unfold allOf.returned in *.
  apply allOf_step_inv in Hstep as [_ Hstep].
  destruct ev as [e|j|j r|j|j|]; simpl in Hstep.
  - by destruct Hstep as (_ & ->).
  - by destruct Hstep as (_ & ->).
  - by destruct Hstep as (? & ? & _ & _ & _ & ->).
  - by destruct Hstep as (? & ? & ? & ? & _ & _ & _ & [(_ & _ & ->)|(_ & ->)]).
  - by destruct Hstep as (_ & _ & ->).
  - destruct Hstep as (i & values & Hmain & _). by rewrite Hmain in Hret.
Qed.
End allOf_failure.

(** C5.  In any run of the function literal of [AllOf]: when the result
    that its loop receives next carries a failure, that turn of the loop
    is enabled and it calls [cancel] (the derived context is done, and so
    is every context an [Async] derived from it), returns [nil] with that
    failure at once, and leaves what it has not collected in the closed
    channel; nothing later changes what it returned.  When it has
    returned [values] with a [nil] error, every future delivered a result
    without failure and [values] holds them by index; when it has
    returned an error, [values] is [nil] and a future delivered that
    error. *)
Theorem AllOf_first_failure {T} `{!Zero T} (n : nat) (ctx0 : Ctx)
    (tr : list (allOf.event T)) (m : allOf.machine T) :
  exec (allOf.step n) (allOf.start ctx0 n) tr = Some m →
  (∀ k values x q e,
     allOf.main m = allOf.Collecting k values →
     chan.buf (allOf.resultCh m) = x :: q →
     Error (allOf.result x) = Some e →
     ∃ m', allOf.step n m allOf.Collect = Some m' ∧
           allOf.returned m' = Some ([], Some e) ∧
           Done (allOf.ctx m') = true ∧
           (∀ i c, Future.ctx (allOf.asyncs m') i = Some c → Done c = true) ∧
           allOf.resultCh m' = chan.mk q n true ∧
           allOf.Deliver (allOf.index x) (allOf.result x) ∈ tr ∧
           ∀ tr' (m'' : allOf.machine T),
             exec (allOf.step n) m' tr' = Some m'' →
             allOf.returned m'' = Some ([], Some e)) ∧
  (∀ values err,
     allOf.returned m = Some (values, err) →
     match err with
     | Some e =>
         values = [] ∧ ∃ i r, i < n ∧ allOf.Deliver i r ∈ tr ∧ Error r = Some e
     | None =>
         length values = n ∧
         ∀ i, i < n → ∃ r, allOf.Deliver i r ∈ tr ∧ Error r = None ∧
                           values !! i = Some (Value r)
     end).
Proof.
  intros Hexec. pose proof (allOf_collector _ _ _ _ Hexec) as Hcol.
  destruct (allOf_sizes _ _ _ _ Hexec) as (_ & _ & Hcap). split.
  - intros k values x q e Hmain Hq He.
    pose proof (allOf_turns_left _ _ _ _ _ _ Hexec Hmain) as Hk.
    pose proof (allOf_open _ _ _ _ _ _ Hexec Hmain) as Hopen.
    rewrite Hmain in Hcol. destruct Hcol as (Hp & _).
    rewrite Hq in Hk. simpl in Hk.
    destruct (allOf.step n m allOf.Collect) as [m'|] eqn:Hstep.
    2:{ unfold allOf.step, allOf.collect in Hstep. rewrite Hp, Hmain in Hstep.
        rewrite bool_decide_eq_true_2 in Hstep by lia.
        unfold chan.recv in Hstep. rewrite Hq in Hstep. simpl in Hstep.
        by rewrite He in Hstep. }
    exists m'. split; [done|].
    eapply allOf_collect_inv in Hstep; [|exact Hmain|exact Hopen].
    destruct Hstep as [(? & _)|(_ & x' & q' & Hq' & Hcases)]; [lia|].
    rewrite Hq in Hq'. injection Hq' as <- <-.
    destruct Hcases as [(e' & He' & ->)|[(He' & _)|(He' & _)]]; [|congruence..].
    assert (e' = e) as -> by congruence. simpl.
    split_and!; try done.
    + by destruct (allOf.ctx m).
    + intros i c. rewrite ctx_finish. destruct (Future.ctx _ _) as [[]|]; simpl; try done;
        by intros [= <-].
    + by rewrite Hcap.
    + by apply (allOf_sent _ _ _ _ x Hexec); rewrite Hq; left.
    + intros tr' m''. by apply allOf_returned_stable.
  - intros values err Hret. unfold allOf.returned in Hret.
    destruct (allOf.main m) as [|values' err']; [done|]. simplify_eq.
    destruct Hcol as [_ Hcol]. destruct err as [e|]; [|done].
    destruct Hcol as (-> & i & r & Hin & He). split; [done|]. exists i, r.
    split_and!; try done. by eapply allOf_deliver_index.
Qed.

(** [Test_Future_AllOf_Error]: the failing future completes first. *)
Lemma AllOf_first_failure_witness :
  let failed := mkResult 0 (Some (Failure "something went wrong")) in
  let tr := [allOf.Dispatch 0; allOf.Dispatch 1; allOf.Deliver 1 failed;
             allOf.TakeResult 1; allOf.Deliver 0 (mkResult 1 None)] in
  ∃ m m' : allOf.machine nat,
    exec (allOf.step 2) (allOf.start None 2) tr = Some m ∧
    allOf.step 2 m allOf.Collect = Some m' ∧
    allOf.returned m' = Some ([], Some (Failure "something went wrong")) ∧
    allOf.ctx m' = Some Canceled ∧
    (∀ k values x q e,
       allOf.main m = allOf.Collecting k values →
       chan.buf (allOf.resultCh m) = x :: q →
       Error (allOf.result x) = Some e →
       ∃ m', allOf.step 2 m allOf.Collect = Some m' ∧
             allOf.returned m' = Some ([], Some e) ∧
             Done (allOf.ctx m') = true ∧
             (∀ i c, Future.ctx (allOf.asyncs m') i = Some c → Done c = true) ∧
             allOf.resultCh m' = chan.mk q 2 true ∧
             allOf.Deliver (allOf.index x) (allOf.result x) ∈ tr ∧
             ∀ tr' (m'' : allOf.machine nat),
               exec (allOf.step 2) m' tr' = Some m'' →
               allOf.returned m'' = Some ([], Some e)) ∧
    (∀ values err,
       allOf.returned m = Some (values, err) →
       match err with
       | Some e =>
           values = [] ∧ ∃ i r, i < 2 ∧ allOf.Deliver i r ∈ tr ∧ Error r = Some e
       | None =>
           length values = 2 ∧
           ∀ i, i < 2 → ∃ r, allOf.Deliver i r ∈ tr ∧ Error r = None ∧
                             values !! i = Some (Value r)
       end).
Proof.
  intros failed tr.
  destruct (exec (allOf.step 2) (allOf.start None 2) tr) as [m|] eqn:Hexec;
    [|vm_compute in Hexec; discriminate Hexec].
  pose proof (AllOf_first_failure 2 None tr m Hexec) as Hm.
  vm_compute in Hexec. injection Hexec as <-.
  eexists _, _. split; [reflexivity|]. split; [vm_compute; reflexivity|].
  split; [reflexivity|]. split; [reflexivity|]. exact Hm.
Defined.

(** *** No futures *)

Section allOf_zero.
Context {T : Type} `{!Zero T} (ctx0 : Ctx).
Implicit Types (m : allOf.machine T) (tr : list (allOf.event T)).

(** With no futures the function literal has one step, the [return] after
    its loops; besides it only the context can be cancelled. *)
Lemma allOf_zero_shape tr m :
  exec (allOf.step 0) (allOf.start ctx0 0) tr = Some m →
  allOf.panicked m = false ∧
  match allOf.main m with
  | allOf.Collecting i values =>
      i = 0 ∧ values = [] ∧ length tr ≤ (if Done (allOf.scope m) then 1 else 0)
  | allOf.Finished values err =>
      values = [] ∧ err = None ∧ length tr ≤ 1 + (if Done (allOf.scope m) then 1 else 0)
  end.
Proof.
  revert tr m. apply (exec_ind (allOf.step 0) (allOf.start ctx0 0)).
  { simpl. split_and!; try done. destruct (Done ctx0); lia. }
  intros tr m ev m' Hexec (_ & IH) Hstep. rewrite length_app. simpl.
  destruct (allOf_sizes _ _ _ _ Hexec) as (Hlw & Hla & _).
  pose proof Hstep as [Hp Hinv]%allOf_step_inv.
  destruct ev as [e|j|j r|j|j|]; simpl in Hinv.
  - destruct Hinv as (Hsc & ->). simpl. split; [done|]. rewrite Hsc in IH.
    destruct (allOf.main m); destruct_and?; split_and!; try done; lia.
  - destruct Hinv as (Hj%lookup_lt_Some & _). lia.
  - destruct Hinv as (? & ? & Hj%lookup_lt_Some & _). lia.
  - destruct Hinv as (? & ? & ? & ? & Hj%lookup_lt_Some & _). lia.
  - destruct Hinv as (Hj%lookup_lt_Some & _). lia.
  - destruct Hinv as (i & values & Hmain & _). rewrite Hmain in IH.
    destruct IH as (-> & -> & Hlen).
    eapply allOf_collect_inv in Hstep;
      [|exact Hmain|by eapply allOf_open].
    destruct Hstep as [(_ & ->)|(? & _)]; [|lia]. simpl. split_and!; try done.
    destruct (Done (allOf.scope m)); lia.
Qed.

(** In its loop with no futures, the function literal can return. *)
Lemma allOf_zero_progress tr m :
  exec (allOf.step 0) (allOf.start ctx0 0) tr = Some m →
  allOf.returned m = None → is_Some (allOf.step 0 m allOf.Collect).
Proof.
  intros Hexec Hret. destruct (allOf_zero_shape tr m Hexec) as (Hp & Hm).
  unfold allOf.returned in Hret. unfold allOf.step, allOf.collect. rewrite Hp.
  destruct (allOf.main m) as [i values|]; [|done]. destruct Hm as (-> & _). done.
Qed.

Lemma allOf_zero_bound tr m :
  exec (allOf.step 0) (allOf.start ctx0 0) tr = Some m → length tr ≤ 2.
Proof.
  intros Hexec. destruct (allOf_zero_shape tr m Hexec) as (_ & Hm).
  destruct (allOf.main m), (Done (allOf.scope m)); destruct_and?; lia.
Qed.
End allOf_zero.

(** C10.  [AllOf(ctx0)] with no futures, awaited on a context that is not
    cancelled ([ctx0] itself may be cancelled at any time).  The function
    literal returns the empty slice and [nil] in its first step, without
    a receive.  In every run of the call: a returned Result is the empty
    slice with a [nil] error; while the call has not returned, a step is
    enabled; and the run has at most five steps. *)
Theorem AllOf_zero_futures {T} `{!Zero T} (ctx0 : Ctx)
    (tr : list (event (AllOf (T:=T) ctx0 0))) (m : machine (AllOf (T:=T) ctx0 0)) :
  run (AllOf ctx0 0) Await None tr = Some m → Forall live tr →
  allOf.collect 0 (allOf.start (T:=T) ctx0 0) =
    Some (allOf.Machine ctx0 (propagate Canceled ctx0) (chan.mk [] 0 true) [] []
            (allOf.Finished [] None) false) ∧
  (∀ r, await m = Returned r → r = mkResult [] None) ∧
  (await m = Waiting → ∃ ev, live ev ∧ is_Some (step (AllOf ctx0 0) Await m ev)) ∧
  length tr ≤ 5.
Proof.
  intros Hrun Hlive. split_and!.
  - done.
  - intros [value err] Hr.
    apply (Await_live_returned _ tr m _ Hrun Hlive) in Hr.
    unfold result_of in Hr. simpl in Hr.
    destruct (exec _ _ _) as [s|] eqn:Hs; [|done]. simpl in Hr.
    destruct (allOf_zero_shape ctx0 _ s Hs) as (_ & Hm).
    unfold allOf.returned in Hr. destruct (allOf.main s); [done|].
    destruct Hm as (-> & -> & _). by simplify_eq.
  - intros Hw.
    destruct (Await_live_progress _ tr m Hrun Hlive Hw)
      as [?|[?|[?|(s & Hgo & Hnone & Hs)]]].
    + by exists GoSelect.
    + by exists GoReturn.
    + by exists RecvResult.
    + destruct (allOf_zero_progress ctx0 _ s Hs Hnone) as [s' Hev].
      exists (GoFn (cf:=AllOf ctx0 0) allOf.Collect). split; [done|].
      unfold step, go_step. rewrite Hgo. simpl in *. rewrite Hnone, Hev. by simpl.
  - pose proof (Await_live_bound _ tr m Hrun Hlive) as Hlen.
    destruct (Await_live_shape _ tr m Hrun Hlive) as (_ & _ & Hgo).
    pose proof (allOf_zero_bound (T:=T) ctx0 (fn_events tr)) as Hfn.
    cut (length (fn_events tr) ≤ 2); [lia|].
    destruct (go m) as [|s| |]; [destruct Hgo as (_ & _ & ->); simpl; lia| | |done].
    + destruct Hgo as (_ & _ & Hs & _). exact (Hfn s Hs).
    + destruct Hgo as (r0 & Hr0 & _). unfold result_of in Hr0. simpl in Hr0.
      destruct (exec _ _ _) as [s|] eqn:Hs; [|done]. exact (Hfn s eq_refl).
Qed.

Lemma AllOf_zero_futures_witness :
  let cf := AllOf (T:=nat) None 0 in
  let tr : list (event cf) := [GoSelect; GoFn (cf:=cf) allOf.Collect; GoReturn; RecvResult] in
  ∃ m : machine cf,
    run cf Await None tr = Some m ∧ await m = Returned (mkResult [] None) ∧
    (allOf.collect 0 (allOf.start (T:=nat) None 0) =
       Some (allOf.Machine None (propagate Canceled None) (chan.mk [] 0 true) [] []
               (allOf.Finished [] None) false) ∧
     (∀ r, await m = Returned r → r = mkResult [] None) ∧
     (await m = Waiting → ∃ ev, live ev ∧ is_Some (step cf Await m ev)) ∧
     length tr ≤ 5).
Proof.
  intros cf tr.
  assert (Forall live tr) as Hlive by (subst tr; repeat constructor).
  destruct (run cf Await None tr) as [m|] eqn:Hrun;
    [|vm_compute in Hrun; discriminate Hrun].
  pose proof (AllOf_zero_futures None tr m Hrun Hlive) as Hm.
  vm_compute in Hrun. injection Hrun as <-.
  eexists. split; [reflexivity|]. split; [reflexivity|]. exact Hm.
Defined.

(** C8, at its failing input.  [AllOf(ctx, f)] is awaited on [ctx]; the
    worker has called [f.Async], then [ctx] is cancelled and the worker
    leaves through [case <-ctx.Done()] without a send.  The function
    literal is at [r := <-resultCh] with nothing to come: whatever
    happens afterwards, the call does not return, so no Result with the
    cancellation is produced. *)
Theorem AllOf_cancelled_blocks :
  let cf := AllOf (T:=nat) None 1 in
  let tr : list (event cf) :=
    [GoSelect; GoFn (cf:=cf) (allOf.Dispatch 0); ScopeCancelled Canceled;
     GoFn (cf:=cf) (allOf.ScopeCancelled Canceled); GoFn (cf:=cf) (allOf.TakeDone 0)] in
  ∃ m : machine cf,
    run cf Await None tr = Some m ∧
    Err (scope m) = Some Canceled ∧
    (∃ s, go m = InFn s ∧ Err (allOf.ctx s) = Some Canceled ∧
          allOf.main s = allOf.Collecting 0 [0] ∧ allOf.workers s = [allOf.Gone]) ∧
    ∀ tr' (m' : machine cf),
      exec (step cf Await) m tr' = Some m' → await m' = Waiting.
Proof.
  intros cf tr.
  destruct (run cf Await None tr) as [m|] eqn:Hrun;
    [|vm_compute in Hrun; discriminate Hrun].
  vm_compute in Hrun. injection Hrun as <-.
  eexists. split; [reflexivity|]. split; [reflexivity|].
  split; [eexists; split_and!; reflexivity|].
  intros tr' m'.
  set (I := λ m : machine cf,
    await m = Waiting ∧ resultCh m = chan.make 1 ∧ Done (scope m) = true ∧
    ∃ s, go m = InFn s ∧ allOf.main s = allOf.Collecting 0 [0] ∧
         allOf.workers s = [allOf.Gone] ∧ allOf.resultCh s = chan.make 1 ∧
         Done (allOf.scope s) = true).
  intros Hexec. cut (I m'); [by intros (? & _)|].
  revert Hexec. apply (exec_preserves (step cf Await) I).
  2:{ split_and!; try done. eexists. split_and!; reflexivity. }
  clear. intros m ev m' (Haw & Hch & Hsc & s & Hgo & Hmain & Hw & Hrch & Hisc) Hstep.
  destruct m as [sc cx ch g tm aw]; simpl in *. subst.
  destruct ev as [e| | |fev| | | |]; simpl in Hstep.
  - by rewrite Hsc in Hstep.
  - done.
  - done.
  - unfold allOf.returned in Hstep. rewrite Hmain in Hstep. simpl in Hstep.
    destruct (allOf.step 1 s fev) as [s'|] eqn:Hfstep; [|done]. simpl in Hstep.
    simplify_eq. split_and!; try done. exists s'. split; [done|].
    pose proof Hfstep as [Hp Hinv]%allOf_step_inv.
    destruct fev as [e|j|j r|j|j|]; simpl in Hinv.
    + destruct Hinv as (Hd & _). congruence.
    + destruct Hinv as (Hj & _). rewrite Hw in Hj. by destruct j as [|[]].
    + destruct Hinv as (? & ? & _ & _ & _ & ->). done.
    + destruct Hinv as (? & ? & ? & ? & Hj & _). rewrite Hw in Hj. by destruct j as [|[]].
    + destruct Hinv as (Hj & _). rewrite Hw in Hj. by destruct j as [|[]].
    + destruct Hinv as (i & values & Hmain' & [(Hi & _)|(_ & r & c & Hrecv & _)]).
      * rewrite Hmain in Hmain'. simplify_eq. lia.
      * rewrite Hrch in Hrecv. by apply recv_Ok in Hrecv as [(? & ? & _)|(_ & ? & _)].
  - unfold allOf.returned in Hstep. by rewrite Hmain in Hstep.
  - done.
  - done.
  - done.
Qed.
(** ** AnyOf *)

Section anyOf_any.
Context {T : Type} `{!Zero T} (n : nat) (ctx0 : Ctx).
Implicit Types (m : anyOf.machine T) (tr : list (anyOf.event T)).

(** The step function, read backwards. *)
Lemma anyOf_step_inv m ev m' :
  anyOf.step m ev = Some m' →
  match ev with
  | anyOf.ScopeCancelled e =>
      Done (anyOf.scope m) = false ∧
      m' = anyOf.Machine (Some e) (propagate e (anyOf.ctx m)) (anyOf.workers m)
             (Future.finish e <$> anyOf.asyncs m) (anyOf.main m)
  | anyOf.Dispatch j =>
      anyOf.workers m !! j = Some anyOf.Spawned ∧
      m' = anyOf.Machine (anyOf.scope m) (anyOf.ctx m)
             (<[j := anyOf.Receiving]> (anyOf.workers m))
             (<[j := Some (Future.Async (anyOf.ctx m))]> (anyOf.asyncs m)) (anyOf.main m)
  | anyOf.Deliver j r =>
      ∃ fctx rCh,
        anyOf.asyncs m !! j = Some (Some (fctx, rCh)) ∧
        chan.closed rCh = false ∧ length (chan.buf rCh) < chan.cap rCh ∧
        m' = anyOf.Machine (anyOf.scope m) (anyOf.ctx m) (anyOf.workers m)
               (<[j := Some (fctx, chan.mk (chan.buf rCh ++ [r]) (chan.cap rCh) true)]>
                  (anyOf.asyncs m))
               (anyOf.main m)
  | anyOf.Receive j =>
      ∃ fctx rCh result rCh',
        anyOf.workers m !! j = Some anyOf.Receiving ∧
        anyOf.asyncs m !! j = Some (Some (fctx, rCh)) ∧
        chan.recv rCh = chan.Ok (result, rCh') ∧
        m' = anyOf.Machine (anyOf.scope m) (anyOf.ctx m)
               (<[j := anyOf.Offering result]> (anyOf.workers m))
               (<[j := Some (fctx, rCh')]> (anyOf.asyncs m)) (anyOf.main m)
  | anyOf.Send j =>
      ∃ result,
        anyOf.workers m !! j = Some (anyOf.Offering result) ∧
        anyOf.main m = anyOf.Waiting ∧
        m' = anyOf.Machine (anyOf.scope m) (anyOf.ctx m)
               (<[j := anyOf.Sent]> (anyOf.workers m)) (anyOf.asyncs m)
               (anyOf.Received result)
  | anyOf.Cancel j =>
      anyOf.workers m !! j = Some anyOf.Sent ∧
      m' = anyOf.Machine (anyOf.scope m) (propagate Canceled (anyOf.ctx m))
             (<[j := anyOf.Gone]> (anyOf.workers m))
             (Future.finish Canceled <$> anyOf.asyncs m) (anyOf.main m)
  | anyOf.TakeDone j =>
      ∃ result,
        anyOf.workers m !! j = Some (anyOf.Offering result) ∧
        Done (anyOf.ctx m) = true ∧
        m' = anyOf.Machine (anyOf.scope m) (anyOf.ctx m)
               (<[j := anyOf.Gone]> (anyOf.workers m)) (anyOf.asyncs m) (anyOf.main m)
  | anyOf.Return =>
      ∃ result,
        anyOf.main m = anyOf.Received result ∧
        m' = anyOf.Machine (anyOf.scope m) (propagate Canceled (anyOf.ctx m))
               (anyOf.workers m) (Future.finish Canceled <$> anyOf.asyncs m)
               (anyOf.Finished (Value result) (Error result))
  end.
Proof.
  intros Hstep. destruct ev as [e|j|j r|j|j|j|j|]; simpl in Hstep.
  - destruct (Done (anyOf.scope m)); by simplify_eq.
  - destruct (anyOf.workers m !! j) as [[]|]; by simplify_eq.
  - destruct (anyOf.asyncs m !! j) as [[[fctx rCh]|]|]; try done.
    unfold Future.deliver in Hstep. simpl in Hstep.
    destruct (chan.send rCh r) as [c| |] eqn:Hsend; try done.
    destruct (chan.close c) as [c'| |] eqn:Hclose; try done.
    chan_inv. simpl in *. simplify_eq. by eexists _, _.
  - destruct (anyOf.workers m !! j) as [[]|]; try done.
    destruct (anyOf.asyncs m !! j) as [[[fctx rCh]|]|]; try done.
    destruct (chan.recv rCh) as [[result rCh']| |] eqn:Hrecv; try done.
    simplify_eq. eauto 10.
  - destruct (anyOf.workers m !! j) as [[]|]; try done.
    destruct (anyOf.main m); try done. simplify_eq. eauto.
  - destruct (anyOf.workers m !! j) as [[]|]; try done. by simplify_eq.
  - destruct (anyOf.workers m !! j) as [[]|]; try done.
    destruct (Done (anyOf.ctx m)); try done. simplify_eq. eauto.
  - destruct (anyOf.main m); try done. simplify_eq. eauto.
Qed.

Lemma anyOf_sizes tr m :
  exec anyOf.step (anyOf.start ctx0 n) tr = Some m →
  length (anyOf.workers m) = n ∧ length (anyOf.asyncs m) = n.
Proof.
  intros Hexec. pattern m.
  eapply (exec_preserves anyOf.step); [| |exact Hexec]; simpl.
  - clear. intros m ev m' (Hw & Ha) Hstep.
    apply anyOf_step_inv in Hstep.
    destruct ev as [e|j|j r|j|j|j|j|]; simpl in Hstep.
    + destruct Hstep as (_ & ->). simpl. by rewrite length_fmap.
    + destruct Hstep as (_ & ->). simpl. by rewrite !length_insert.
    + destruct Hstep as (? & ? & _ & _ & _ & ->). simpl. by rewrite !length_insert.
    + destruct Hstep as (? & ? & ? & ? & _ & _ & _ & ->). simpl.
      by rewrite !length_insert.
    + destruct Hstep as (? & _ & _ & ->). simpl. by rewrite !length_insert.
    + destruct Hstep as (_ & ->). simpl. by rewrite length_insert, length_fmap.
    + destruct Hstep as (? & _ & _ & ->). simpl. by rewrite !length_insert.
    + destruct Hstep as (? & _ & ->). simpl. by rewrite length_fmap.
  - by rewrite !length_replicate.
Qed.

(** The channel of a worker that waits for its future is empty and open,
    or holds the one result and is closed. *)
Lemma anyOf_receiving tr m i :
  exec anyOf.step (anyOf.start ctx0 n) tr = Some m →
  anyOf.workers m !! i = Some anyOf.Receiving →
  Future.rCh (anyOf.asyncs m) i = Some (chan.make 1) ∨
  ∃ r, Future.rCh (anyOf.asyncs m) i = Some (chan.mk [r] 1 true).
Proof.
  intros Hexec. revert i. revert tr m Hexec.
  apply (exec_ind anyOf.step (anyOf.start ctx0 n)
           (λ tr m, ∀ i, anyOf.workers m !! i = Some anyOf.Receiving → _)).
  { simpl. intros i [? _]%lookup_replicate. done. }
  intros tr m ev m' Hexec IH Hstep.
  destruct (anyOf_sizes _ _ Hexec) as (Hlw & Hla).
  apply anyOf_step_inv in Hstep.
  destruct ev as [e|j|j r|j|j|j|j|]; simpl in Hstep.
  - destruct Hstep as (_ & ->); simpl. intros k. rewrite rCh_finish. apply IH.
  - destruct Hstep as (Hj & ->); simpl. intros k.
    rewrite rCh_insert by (apply lookup_lt_is_Some; apply lookup_lt_Some in Hj; lia).
    case_decide; [by left|].
    rewrite list_lookup_insert_ne by done. apply IH.
  - destruct Hstep as (fctx & c & Hj & Hcl & _ & ->); simpl.
    intros k Hk. rewrite rCh_insert by eauto.
    case_decide as Hkj; [subst k|by apply IH]. simpl. right.
    assert (Future.rCh (anyOf.asyncs m) j = Some c) as Hc by (apply rCh_lookup; eauto).
    destruct (IH j Hk) as [Hm|[r' Hm]]; rewrite Hm in Hc; simplify_eq; try done.
    by eexists.
  - destruct Hstep as (fctx & c & res & c' & Hj & Ha & _ & ->); simpl.
    intros k [(_ & ? & _)|(? & Hk)]%list_lookup_insert_Some; [done|].
    rewrite rCh_insert by eauto. case_decide; [done|]. by apply IH.
  - destruct Hstep as (res & Hj & _ & ->); simpl.
    intros k [(_ & ? & _)|(? & Hk)]%list_lookup_insert_Some; [done|]. by apply IH.
  - destruct Hstep as (Hj & ->); simpl.
    intros k [(_ & ? & _)|(? & Hk)]%list_lookup_insert_Some; [done|].
    rewrite rCh_finish. by apply IH.
  - destruct Hstep as (res & Hj & _ & ->); simpl.
    intros k [(_ & ? & _)|(? & Hk)]%list_lookup_insert_Some; [done|]. by apply IH.
  - destruct Hstep as (res & _ & ->); simpl. intros k. rewrite rCh_finish. apply IH.
Qed.

(** What the channel of a future holds was delivered by the future. *)
Lemma anyOf_delivered tr m i c r :
  exec anyOf.step (anyOf.start ctx0 n) tr = Some m →
  Future.rCh (anyOf.asyncs m) i = Some c → r ∈ chan.buf c →
  anyOf.Deliver i r ∈ tr.
Proof.
  intros Hexec. revert i c r. revert tr m Hexec.
  apply (exec_ind anyOf.step (anyOf.start ctx0 n)
           (λ tr m, ∀ i c r, Future.rCh (anyOf.asyncs m) i = Some c → r ∈ chan.buf c →
                             anyOf.Deliver i r ∈ tr)).
  { simpl. intros i c r Hc. apply rCh_lookup in Hc as [fctx Hc].
    apply lookup_replicate in Hc as [? _]. done. }
  intros tr m ev m' Hexec IH Hstep.
  destruct (anyOf_sizes _ _ Hexec) as (Hlw & Hla).
  assert (∀ i c r, Future.rCh (anyOf.asyncs m) i = Some c → r ∈ chan.buf c →
                   anyOf.Deliver i r ∈ tr ++ [ev]) as IH'.
  { intros. apply elem_of_app. left. eauto. }
  clear IH. apply anyOf_step_inv in Hstep.
  destruct ev as [e|j|j r|j|j|j|j|]; simpl in Hstep.
  - destruct Hstep as (_ & ->); simpl. intros k c r0. rewrite rCh_finish. apply IH'.
  - destruct Hstep as (Hj & ->); simpl. intros k c r0.
    rewrite rCh_insert by (apply lookup_lt_is_Some; apply lookup_lt_Some in Hj; lia).
    case_decide; [|apply IH'].
    intros [= <-]. simpl. by intros ?%elem_of_nil.
  - destruct Hstep as (fctx & c0 & Hj & Hcl & _ & ->); simpl.
    intros k c r0. rewrite rCh_insert by eauto.
    case_decide as Hkj; [subst k|by apply IH']. simpl. intros [= <-]. simpl.
    intros [Hin| ->%list_elem_of_singleton]%elem_of_app.
    + eapply IH'; [|done]. apply rCh_lookup; eauto.
    + apply elem_of_app. right. by apply list_elem_of_singleton.
  - destruct Hstep as (fctx & c0 & res & c' & _ & Hj & Hrecv & ->).
    apply recv_fields in Hrecv as (_ & _ & Hbuf).
    assert (∀ r, r ∈ chan.buf c' → r ∈ chan.buf c0) as Hsub.
    { intros r. destruct Hbuf as [->|(-> & -> & _)]; [|done]. by right. }
    simpl; intros k c r0. rewrite rCh_insert by eauto.
    case_decide as Hkj; [subst k|by apply IH']. simpl. intros [= <-] Hin.
    eapply IH'; [apply rCh_lookup; eauto|by apply Hsub].
  - destruct Hstep as (res & _ & _ & ->); simpl. apply IH'.
  - destruct Hstep as (_ & ->); simpl. intros k c r0. rewrite rCh_finish. apply IH'.
  - destruct Hstep as (res & _ & _ & ->); simpl. apply IH'.
  - destruct Hstep as (res & _ & ->); simpl. intros k c r0. rewrite rCh_finish.
    apply IH'.
Qed.

(** What a worker offers on [resultCh] is what its future delivered. *)
Lemma anyOf_offering tr m i r :
  exec anyOf.step (anyOf.start ctx0 n) tr = Some m →
  anyOf.workers m !! i = Some (anyOf.Offering r) →
  anyOf.Deliver i r ∈ tr.
Proof.
  intros Hexec. revert i r. revert tr m Hexec.
  apply (exec_ind anyOf.step (anyOf.start ctx0 n)
           (λ tr m, ∀ i r, anyOf.workers m !! i = Some (anyOf.Offering r) →
                           anyOf.Deliver i r ∈ tr)).
  { simpl. intros i r [? _]%lookup_replicate. done. }
  intros tr m ev m' Hexec IH Hstep.
  assert (∀ i r, anyOf.workers m !! i = Some (anyOf.Offering r) →
                 anyOf.Deliver i r ∈ tr ++ [ev]) as IH'.
  { intros. apply elem_of_app. left. eauto. }
  clear IH. pose proof Hstep as Hinv%anyOf_step_inv.
  destruct ev as [e|j|j r|j|j|j|j|]; simpl in Hinv.
  - destruct Hinv as (_ & ->); simpl. apply IH'.
  - destruct Hinv as (Hj & ->); simpl.
    intros k r0 [(_ & ? & _)|(? & Hk)]%list_lookup_insert_Some; [done|]. by apply IH'.
  - destruct Hinv as (fctx & c0 & Hj & Hcl & _ & ->); simpl. apply IH'.
  - destruct Hinv as (fctx & c0 & res & c' & Hj & Ha & Hrecv & ->). simpl.
    intros k r0 [(<- & [= <-] & _)|(? & Hk)]%list_lookup_insert_Some; [|by apply IH'].
    apply elem_of_app. left.
    assert (Future.rCh (anyOf.asyncs m) j = Some c0) as Hc by (apply rCh_lookup; eauto).
    apply (anyOf_delivered _ _ _ _ _ Hexec Hc).
    destruct (anyOf_receiving _ _ _ Hexec Hj) as [Hm|[r' Hm]];
      rewrite Hm in Hc; injection Hc as <-.
    + by apply recv_Ok in Hrecv as [(? & ? & _)|(_ & ? & _)].
    + apply recv_Ok in Hrecv as [(q & [= <- <-] & _)|(? & _)]; [by left|done].
  - destruct Hinv as (res & _ & _ & ->); simpl.
    intros k r0 [(_ & ? & _)|(? & Hk)]%list_lookup_insert_Some; [done|]. by apply IH'.
  - destruct Hinv as (_ & ->); simpl.
    intros k r0 [(_ & ? & _)|(? & Hk)]%list_lookup_insert_Some; [done|]. by apply IH'.
  - destruct Hinv as (res & _ & _ & ->); simpl.
    intros k r0 [(_ & ? & _)|(? & Hk)]%list_lookup_insert_Some; [done|]. by apply IH'.
  - destruct Hinv as (res & _ & ->); simpl. apply IH'.
Qed.

(** Once the derived context is done, so is every context derived from
    it by an [Async]. *)
Lemma anyOf_cancelled tr m i c :
  exec anyOf.step (anyOf.start ctx0 n) tr = Some m →
  Done (anyOf.ctx m) = true → Future.ctx (anyOf.asyncs m) i = Some c →
  Done c = true.
Proof.
  intros Hexec. revert i c. pattern m.
  eapply (exec_preserves anyOf.step); [| |exact Hexec]; simpl.
  2:{ intros i c _ [? Hc]%ctx_lookup. by apply lookup_replicate in Hc as [? _]. }
  clear. intros m ev m' IH Hstep.
  assert (∀ e c, Done (propagate e c) = true) as Hprop by (by intros ? []).
  assert (∀ e k c, Future.ctx (Future.finish e <$> anyOf.asyncs m) k = Some c →
                   Done c = true) as Hfin.
  { intros e k c. rewrite ctx_finish. destruct (Future.ctx _ _); [|done].
    by intros [= <-]. }
  apply anyOf_step_inv in Hstep.
  destruct ev as [e|j|j r|j|j|j|j|]; simpl in Hstep.
  - destruct Hstep as (_ & ->); simpl. intros k c _. apply Hfin.
  - destruct Hstep as (Hj & ->); simpl. intros k c Hd.
    destruct (decide (k = j)) as [->|Hkj].
    + intros [rCh Hc]%ctx_lookup.
      apply list_lookup_insert_Some in Hc as [(_ & Hc & _)|(? & _)]; [|done].
      unfold Future.Async, WithCancel in Hc. by simplify_eq.
    + intros [rCh Hc]%ctx_lookup. rewrite list_lookup_insert_ne in Hc by done.
      eapply IH; [done|]. apply ctx_lookup; eauto.
  - destruct Hstep as (fctx & c0 & Hj & Hcl & _ & ->); simpl.
    intros k c Hd. rewrite ctx_insert by eauto. case_decide as Hkj; [subst k|by apply IH].
    intros [= <-]. eapply IH; [done|]. apply ctx_lookup; eauto.
  - destruct Hstep as (fctx & c0 & res & c' & Hj & Ha & Hrecv & ->);
      simpl; intros k c Hd. rewrite ctx_insert by eauto.
    case_decide as Hkj; [subst k|by apply IH].
    intros [= <-]. eapply IH; [done|]. apply ctx_lookup; eauto.
  - destruct Hstep as (res & _ & _ & ->); simpl. apply IH.
  - destruct Hstep as (_ & ->); simpl. intros k c _. apply Hfin.
  - destruct Hstep as (res & _ & _ & ->); simpl. apply IH.
  - destruct Hstep as (res & _ & ->); simpl. intros k c _. apply Hfin.
Qed.

Lemma winner_snoc tr ev :
  anyOf.winner (tr ++ [ev]) =
  match anyOf.winner tr with
  | Some i => Some i
  | None => match ev with anyOf.Send i => Some i | _ => None end
  end.
Proof.
  induction tr as [|ev' tr IH]; simpl; [by destruct ev|].
  destruct ev'; try done.
Qed.

(** The function literal: it waits until the first send on [resultCh],
    receives what the winner offered, which the winner's future had
    delivered, and returns it.  The winner then calls [cancel]. *)
Lemma anyOf_collector tr m :
  exec anyOf.step (anyOf.start ctx0 n) tr = Some m →
  match anyOf.main m with
  | anyOf.Waiting => anyOf.winner tr = None
  | anyOf.Received r =>
      ∃ i, anyOf.winner tr = Some i ∧ anyOf.Deliver i r ∈ tr ∧
           (anyOf.workers m !! i = Some anyOf.Sent ∨ Done (anyOf.ctx m) = true)
  | anyOf.Finished value err =>
      ∃ i r, anyOf.winner tr = Some i ∧ anyOf.Deliver i r ∈ tr ∧
             value = Value r ∧ err = Error r ∧ Done (anyOf.ctx m) = true
  end.
Proof.
  revert tr m. apply (exec_ind anyOf.step (anyOf.start ctx0 n)); [done|].
  intros tr m ev m' Hexec IH Hstep. rewrite winner_snoc.
  assert (∀ i r, anyOf.Deliver i r ∈ tr → anyOf.Deliver i r ∈ tr ++ [ev]) as Hmono.
  { intros. apply elem_of_app. by left. }
  assert (∀ e c, Done (propagate e c) = true) as Hprop by (by intros ? []).
  pose proof (λ i r, anyOf_offering _ _ i r Hexec) as Hoff.
  apply anyOf_step_inv in Hstep.
  destruct ev as [e|j|j r|j|j|j|j|]; simpl in Hstep.
  - destruct Hstep as (_ & ->); simpl.
    destruct (anyOf.main m) as [|r|value err].
    + by rewrite IH.
    + destruct IH as (i & -> & ? & ?). exists i. split_and!; eauto.
    + destruct IH as (i & r & -> & ? & ? & ? & ?). exists i, r. split_and!; eauto.
  - destruct Hstep as (Hj & ->); simpl.
    destruct (anyOf.main m) as [|r|value err].
    + by rewrite IH.
    + destruct IH as (i & -> & ? & Hw). exists i. split_and!; eauto.
      destruct Hw as [Hw|?]; [left|by right].
      rewrite list_lookup_insert_ne; [done|]. congruence.
    + destruct IH as (i & r & -> & ? & ? & ? & ?). exists i, r. split_and!; eauto.
  - destruct Hstep as (? & ? & _ & _ & _ & ->); simpl.
    destruct (anyOf.main m) as [|r0|value err].
    + by rewrite IH.
    + destruct IH as (i & -> & ? & ?). exists i. split_and!; eauto.
    + destruct IH as (i & r0 & -> & ? & ? & ? & ?). exists i, r0. split_and!; eauto.
  - destruct Hstep as (? & ? & ? & ? & Hj & _ & _ & ->); simpl.
    destruct (anyOf.main m) as [|r|value err].
    + by rewrite IH.
    + destruct IH as (i & -> & ? & Hw). exists i. split_and!; eauto.
      destruct Hw as [Hw|?]; [left|by right].
      rewrite list_lookup_insert_ne; [done|]. congruence.
    + destruct IH as (i & r & -> & ? & ? & ? & ?). exists i, r. split_and!; eauto.
  - destruct Hstep as (res & Hj & Hmain & ->); simpl. rewrite Hmain in IH.
    rewrite IH. exists j. split_and!; [done|by eauto|].
    left. apply list_lookup_insert_eq. by eapply lookup_lt_Some.
  - destruct Hstep as (Hj & ->); simpl.
    destruct (anyOf.main m) as [|r|value err].
    + by rewrite IH.
    + destruct IH as (i & -> & ? & Hw). exists i. split_and!; eauto.
    + destruct IH as (i & r & -> & ? & ? & ? & ?). exists i, r. split_and!; eauto.
  - destruct Hstep as (res & Hj & Hd & ->); simpl.
    destruct (anyOf.main m) as [|r|value err].
    + by rewrite IH.
    + destruct IH as (i & -> & ? & Hw). exists i. split_and!; eauto.
    + destruct IH as (i & r & -> & ? & ? & ? & ?). exists i, r. split_and!; eauto.
  - destruct Hstep as (res & Hmain & ->); simpl. rewrite Hmain in IH.
    destruct IH as (i & -> & ? & ?). exists i, res. split_and!; eauto.
Qed.

End anyOf_any.

Section anyOf_live.
Context {T : Type} `{!Zero T} (n : nat).
Implicit Types (m : anyOf.machine T) (tr : list (anyOf.event T)).

(** While neither the context is cancelled nor a worker has sent, the
    derived context is live and every worker is still on its way to its
    send. *)
Lemma anyOf_racing tr m :
  exec anyOf.step (anyOf.start None n) tr = Some m →
  Forall anyOf.live tr → anyOf.main m = anyOf.Waiting →
  anyOf.ctx m = None ∧
  ∀ i w, anyOf.workers m !! i = Some w → w ≠ anyOf.Sent ∧ w ≠ anyOf.Gone.
Proof.
  revert tr m. apply (exec_ind anyOf.step (anyOf.start None n)
    (λ tr m, Forall anyOf.live tr → anyOf.main m = anyOf.Waiting → _)).
  { simpl. intros _ _. split; [done|]. by intros i w [-> _]%lookup_replicate. }
  intros tr m ev m' Hexec IH Hstep [Hlive Hev%Forall_inv]%Forall_app.
  specialize (IH Hlive). apply anyOf_step_inv in Hstep.
  destruct ev as [e|j|j r|j|j|j|j|]; simpl in Hstep, Hev; try done.
  - destruct Hstep as (Hj & ->); simpl. intros Hmain.
    destruct (IH Hmain) as [Hc Hw]. split; [done|].
    intros i w [(_ & <- & _)|(? & Hi)]%list_lookup_insert_Some; [done|]. by eapply Hw.
  - destruct Hstep as (? & ? & _ & _ & _ & ->); simpl. apply IH.
  - destruct Hstep as (? & ? & ? & ? & Hj & _ & _ & ->); simpl. intros Hmain.
    destruct (IH Hmain) as [Hc Hw]. split; [done|].
    intros i w [(_ & <- & _)|(? & Hi)]%list_lookup_insert_Some; [done|]. by eapply Hw.
  - by destruct Hstep as (res & _ & _ & ->).
  - destruct Hstep as (Hj & ->); simpl. intros Hmain.
    destruct (IH Hmain) as [_ Hw]. by destruct (Hw _ _ Hj).
  - destruct Hstep as (res & Hj & Hd & ->); simpl. intros Hmain.
    destruct (IH Hmain) as [Hc _]. by rewrite Hc in Hd.
  - by destruct Hstep as (res & _ & ->).
Qed.

(** With at least one future and no cancellation from outside, the
    function literal is never stuck before it returns: a worker, its
    future, or the literal itself has a step. *)
Lemma anyOf_progress tr m :
  0 < n →
  exec anyOf.step (anyOf.start None n) tr = Some m →
  Forall anyOf.live tr → anyOf.returned m = None →
  ∃ ev, anyOf.live ev ∧ is_Some (anyOf.step m ev).
Proof.
  intros Hn Hexec Hlive Hret. unfold anyOf.returned in Hret.
  destruct (anyOf.main m) as [|r|] eqn:Hmain; [| |done].
  2:{ exists anyOf.Return. split; [done|]. simpl. by rewrite Hmain. }
  destruct (anyOf_racing tr m Hexec Hlive Hmain) as [Hc Hw].
  destruct (anyOf_sizes _ _ _ _ Hexec) as (Hlw & Hla).
  destruct (lookup_lt_is_Some_2 (anyOf.workers m) 0) as [w Hw0]; [lia|].
  destruct (Hw _ _ Hw0). destruct w as [| |r| |]; try done.
  - exists (anyOf.Dispatch 0). split; [done|]. simpl. by rewrite Hw0.
  - destruct (anyOf_receiving _ _ _ _ _ Hexec Hw0) as [Hch|[r Hch]];
      apply rCh_lookup in Hch as [fctx Hch].
    + exists (anyOf.Deliver 0 zero). split; [done|]. simpl. rewrite Hch. simpl.
      by unfold Future.deliver, chan.send, chan.close.
    + exists (anyOf.Receive 0). split; [done|]. simpl. rewrite Hw0, Hch.
      by unfold chan.recv.
  - exists (anyOf.Send 0). split; [done|]. simpl. by rewrite Hw0, Hmain.
Qed.
End anyOf_live.

Section anyOf_left.
Context {T : Type} `{!Zero T} (n : nat).
Implicit Types (m : anyOf.machine T) (tr : list (anyOf.event T)).

(** Every event of the function literal of [AnyOf] uses up a step. *)
Lemma anyOf_step_left m ev m' :
  anyOf.step m ev = Some m' → anyOf_left m' < anyOf_left m.
Proof.
  intros Hstep. apply anyOf_step_inv in Hstep. unfold anyOf_left.
  destruct ev as [e|j|j r|j|j|j|j|]; simpl in Hstep.
  - destruct Hstep as (Hsc & ->). simpl. rewrite Hsc, future_left_finish. lia.
  - destruct Hstep as (Hj & ->). simpl.
    pose proof (sum_list_fmap_insert anyOf_worker_left _ _ _ anyOf.Receiving Hj) as Hw.
    pose proof (future_left_insert (anyOf.asyncs m) j (Future.Async (anyOf.ctx m))) as Ha.
    simpl in *. lia.
  - destruct Hstep as (fctx & rCh & Hj & Hcl & _ & ->). simpl.
    pose proof (sum_list_fmap_insert future_left _ _ _
      (Some (fctx, chan.mk (chan.buf rCh ++ [r]) (chan.cap rCh) true)) Hj) as Ha.
    simpl in Ha. rewrite Hcl in Ha. lia.
  - destruct Hstep as (fctx & rCh & res & rCh' & Hj & Haj & Hrecv & ->).
    apply recv_fields in Hrecv as (_ & Hcl & _).
    pose proof (sum_list_fmap_insert future_left _ _ _ (Some (fctx, rCh')) Haj) as Ha.
    simpl in Ha. rewrite Hcl in Ha.
    pose proof (sum_list_fmap_insert anyOf_worker_left _ _ _ (anyOf.Offering res) Hj) as Hw.
    simpl in Hw. simpl. lia.
  - destruct Hstep as (res & Hj & Hmain & ->). simpl. rewrite Hmain.
    pose proof (sum_list_fmap_insert anyOf_worker_left _ _ _ anyOf.Sent Hj) as Hw.
    simpl in Hw. lia.
  - destruct Hstep as (Hj & ->). simpl. rewrite future_left_finish.
    pose proof (sum_list_fmap_insert anyOf_worker_left _ _ _ anyOf.Gone Hj) as Hw.
    simpl in Hw. lia.
  - destruct Hstep as (res & Hj & _ & ->). simpl.
    pose proof (sum_list_fmap_insert anyOf_worker_left _ _ _ anyOf.Gone Hj) as Hw.
    simpl in Hw. lia.
  - destruct Hstep as (res & Hmain & ->). simpl. rewrite Hmain, future_left_finish. lia.
Qed.

(** A run of the function literal has at most [6 * n + 3] events. *)
Lemma anyOf_bound ctx0 tr m :
  exec anyOf.step (anyOf.start ctx0 n) tr = Some m → length tr ≤ 6 * n + 3.
Proof.
  intros Hexec. apply (exec_measure _ anyOf_left anyOf_step_left) in Hexec.
  unfold anyOf_left at 2 in Hexec. simpl in Hexec.
  rewrite !sum_list_fmap_replicate in Hexec. simpl in Hexec.
  destruct (Done ctx0); lia.
Qed.
End anyOf_left.

Section anyOf_facts.
Context {T : Type} `{!Zero T} (n : nat) (ctx0 : Ctx).
Implicit Types (m : anyOf.machine T) (tr : list (anyOf.event T)).

(** A future that delivers is one of the [n] futures. *)
Lemma anyOf_deliver_index tr m i r :
  exec anyOf.step (anyOf.start ctx0 n) tr = Some m →
  anyOf.Deliver i r ∈ tr → i < n.
Proof.
  intros Hexec. revert i r. revert tr m Hexec.
  apply (exec_ind anyOf.step (anyOf.start ctx0 n)
           (λ tr m, ∀ i r, anyOf.Deliver i r ∈ tr → i < n)).
  { by intros i r ?%elem_of_nil. }
  intros tr m ev m' Hexec IH Hstep i r [Hin| <-%list_elem_of_singleton]%elem_of_app;
    [by eapply IH|].
  apply anyOf_step_inv in Hstep as (fctx & c & Hi & _).
  apply lookup_lt_Some in Hi. destruct (anyOf_sizes _ _ _ _ Hexec) as (_ & ?). lia.
Qed.

(** In the [select] of a worker the send is enabled as soon as the
    function literal waits, whatever the Result it offers. *)
Lemma anyOf_send_enabled m i r :
  anyOf.workers m !! i = Some (anyOf.Offering r) → anyOf.main m = anyOf.Waiting →
  ∃ m', anyOf.step m (anyOf.Send i) = Some m' ∧ anyOf.main m' = anyOf.Received r ∧
        anyOf.workers m' !! i = Some anyOf.Sent.
Proof.
  intros Hi Hmain. simpl. rewrite Hi, Hmain. eexists. split; [done|]. simpl.
  split; [done|]. apply list_lookup_insert_eq. by eapply lookup_lt_Some.
Qed.

(** After its send a worker calls [cancel]: the derived context and the
    contexts of all futures are done. *)
Lemma anyOf_cancel_enabled m i :
  anyOf.workers m !! i = Some anyOf.Sent →
  ∃ m', anyOf.step m (anyOf.Cancel i) = Some m' ∧ Done (anyOf.ctx m') = true ∧
        ∀ j c, Future.ctx (anyOf.asyncs m') j = Some c → Done c = true.
Proof.
  intros Hi. simpl. rewrite Hi. eexists. split; [done|]. simpl.
  split; [by destruct (anyOf.ctx m)|].
  intros j c. rewrite ctx_finish. destruct (Future.ctx _ _) as [[]|]; simpl; try done;
    by intros [= <-].
Qed.
End anyOf_facts.

(** C6.  [AnyOf] over [n > 0] futures, awaited while no context is
    cancelled from outside.  In every run: a returned Result is the one
    that the winner, the worker whose send on [resultCh] came first, had
    received from its future; while the call has not returned, some event
    is enabled; and the run has at most [6 * n + 6] events, so the call
    returns.  In the state of the function literal after the run: a
    worker that offers a Result while the literal waits can send it,
    whether the Result carries an error or not; a worker that has sent
    can call [cancel], which makes the derived context and the context of
    every future done; and once the literal has received, the winner is at
    that call or the derived context is done. *)
Theorem AnyOf_first_delivered {T} `{!Zero T} (n : nat)
    (tr : list (event (AnyOf (T:=T) None n))) (m : machine (AnyOf (T:=T) None n)) :
  0 < n →
  run (AnyOf None n) Await None tr = Some m → Forall none_cancelled tr →
  (∀ r, await m = Returned r →
        ∃ i, anyOf.winner (fn_events tr) = Some i ∧ i < n ∧
             anyOf.Deliver i r ∈ fn_events tr) ∧
  (await m = Waiting →
   ∃ ev, none_cancelled ev ∧ is_Some (step (AnyOf None n) Await m ev)) ∧
  length tr ≤ 6 * n + 6 ∧
  ∃ s : anyOf.machine T,
    exec anyOf.step (anyOf.start None n) (fn_events tr) = Some s ∧
    (∀ i r, anyOf.workers s !! i = Some (anyOf.Offering r) →
            anyOf.main s = anyOf.Waiting →
            ∃ s', anyOf.step s (anyOf.Send i) = Some s' ∧
                  anyOf.main s' = anyOf.Received r ∧
                  anyOf.workers s' !! i = Some anyOf.Sent) ∧
    (∀ i, anyOf.workers s !! i = Some anyOf.Sent →
          ∃ s', anyOf.step s (anyOf.Cancel i) = Some s' ∧
                Done (anyOf.ctx s') = true ∧
                ∀ j c, Future.ctx (anyOf.asyncs s') j = Some c → Done c = true) ∧
    (anyOf.main s ≠ anyOf.Waiting →
     ∃ i, anyOf.winner (fn_events tr) = Some i ∧
          (anyOf.workers s !! i = Some anyOf.Sent ∨ Done (anyOf.ctx s) = true)).
Proof.
  intros Hn Hrun Hok.
  assert (Forall live tr ∧ Forall anyOf.live (fn_events tr)) as [Hlive Hin].
  { clear Hrun. induction Hok as [|ev tr Hev _ [IH1 IH2]]; [done|].
    split; [constructor; [by destruct ev|done]|].
    destruct ev; simpl; try done. by constructor. }
  split_and!.
  - intros [value err] Hr.
    apply (Await_live_returned _ tr m _ Hrun Hlive) in Hr.
    unfold result_of in Hr. simpl in Hr.
    destruct (exec anyOf.step _ (fn_events tr)) as [s|] eqn:Hs; [|done]. simpl in Hr.
    pose proof (anyOf_collector _ _ _ _ Hs) as Hcol.
    unfold anyOf.returned in Hr. destruct (anyOf.main s); try done.
    destruct Hcol as (i & [v e] & Hwin & Hdel & Hv & He & _). simpl in *. simplify_eq.
    exists i. split_and!; try done. by eapply anyOf_deliver_index.
  - intros Hw.
    destruct (Await_live_progress _ tr m Hrun Hlive Hw)
      as [?|[?|[?|(s & Hgo & Hnone & Hs)]]].
    + by exists GoSelect.
    + by exists GoReturn.
    + by exists RecvResult.
    + destruct (anyOf_progress n _ _ Hn Hs Hin Hnone) as (ev & Hev & [s' Hstep]).
      exists (GoFn (cf:=AnyOf None n) ev). split; [done|].
      unfold step, go_step. rewrite Hgo. simpl in *. rewrite Hnone, Hstep. done.
  - pose proof (Await_live_bound _ tr m Hrun Hlive) as Hlen.
    destruct (Await_live_fn _ tr m Hrun Hlive) as [s Hs].
    cut (length (fn_events tr) ≤ 6 * n + 3); [lia|].
    exact (anyOf_bound _ _ _ _ Hs).
  - destruct (Await_live_fn _ tr m Hrun Hlive) as [s Hs].
    exists s. split; [done|]. split_and!.
    + apply anyOf_send_enabled.
    + apply anyOf_cancel_enabled.
    + intros Hmain. pose proof (anyOf_collector _ _ _ _ Hs) as Hcol.
      destruct (anyOf.main s); [done| |].
      * destruct Hcol as (i & ? & _ & ?). eauto.
      * destruct Hcol as (i & r & ? & _ & _ & _ & ?). eauto.
Qed.

(** [Test_Future_AnyOf_ErrorFuture_should_returned]: the failing future
    is the first to complete. *)
Lemma AnyOf_first_delivered_witness :
  let cf := AnyOf (T:=nat) None 2 in
  let failed := mkResult 0 (Some (Failure "something went wrong")) in
  let tr : list (event cf) :=
    [GoSelect; GoFn (cf:=cf) (anyOf.Dispatch 0); GoFn (cf:=cf) (anyOf.Dispatch 1);
     GoFn (cf:=cf) (anyOf.Deliver 1 failed); GoFn (cf:=cf) (anyOf.Receive 1);
     GoFn (cf:=cf) (anyOf.Send 1); GoFn (cf:=cf) (anyOf.Cancel 1);
     GoFn (cf:=cf) anyOf.Return; GoReturn; RecvResult] in
  ∃ m : machine cf,
    run cf Await None tr = Some m ∧ await m = Returned failed ∧
    ((∀ r, await m = Returned r →
           ∃ i, anyOf.winner (fn_events tr) = Some i ∧ i < 2 ∧
                anyOf.Deliver i r ∈ fn_events tr) ∧
     (await m = Waiting →
      ∃ ev, none_cancelled ev ∧ is_Some (step cf Await m ev)) ∧
     length tr ≤ 6 * 2 + 6 ∧
     ∃ s : anyOf.machine nat,
       exec anyOf.step (anyOf.start None 2) (fn_events tr) = Some s ∧
       (∀ i r, anyOf.workers s !! i = Some (anyOf.Offering r) →
               anyOf.main s = anyOf.Waiting →
               ∃ s', anyOf.step s (anyOf.Send i) = Some s' ∧
                     anyOf.main s' = anyOf.Received r ∧
                     anyOf.workers s' !! i = Some anyOf.Sent) ∧
       (∀ i, anyOf.workers s !! i = Some anyOf.Sent →
             ∃ s', anyOf.step s (anyOf.Cancel i) = Some s' ∧
                   Done (anyOf.ctx s') = true ∧
                   ∀ j c, Future.ctx (anyOf.asyncs s') j = Some c → Done c = true) ∧
       (anyOf.main s ≠ anyOf.Waiting →
        ∃ i, anyOf.winner (fn_events tr) = Some i ∧
             (anyOf.workers s !! i = Some anyOf.Sent ∨ Done (anyOf.ctx s) = true))).
Proof.
  intros cf failed tr.
  assert (Forall (none_cancelled (ctx:=None) (futures:=2)) tr) as Hok.
  { subst tr. repeat (constructor; [simpl; done|]). constructor. }
  destruct (run cf Await None tr) as [m|] eqn:Hrun;
    [|vm_compute in Hrun; discriminate Hrun].
  pose proof (AnyOf_first_delivered 2 tr m ltac:(lia) Hrun Hok) as Hm.
  vm_compute in Hrun. injection Hrun as <-.
  eexists. split; [reflexivity|]. split; [reflexivity|]. exact Hm.
Defined.
(** ** Values of Results that carry an error *)

(** A function that returns a value other than the zero value with an
    error: [Await] returns both. *)
Lemma Await_relays_value_with_error :
  ∃ (m : machine (New (ret 42 (Some (Failure "failed"))))) (r : Result nat),
    run (New (ret 42 (Some (Failure "failed")))) Await None
      [GoSelect; GoReturn; RecvResult] = Some m ∧
    await m = Returned r ∧ Error r = Some (Failure "failed") ∧ Value r = 42 ∧
    ¬ zero_on_error r.
Proof.
  eexists _, (mkResult 42 (Some (Failure "failed"))).
  split; [reflexivity|]. split; [reflexivity|]. split; [done|]. split; [done|].
  intros Hz. by specialize (Hz (mk_is_Some _ _ eq_refl)).
Qed.

Section zero_on_error.
Context {T : Type} `{!Zero T}.

(** What [channelFuture.Async] delivers on [resultCh]. *)
Lemma delivered_error_shape (cf : channelFuture T) op scope0 tr m r :
  run cf op scope0 tr = Some m → r ∈ chan.buf (resultCh m) → is_Some (Error r) →
  Value r = zero ∨ result_of (fn cf) (fn_events tr) = Some (Value r, Error r).
Proof.
  intros Hrun Hr He. destruct (run_shape cf op scope0 tr m Hrun) as [Hgo _].
  destruct (go m); destruct_and?;
    try (match goal with H : resultCh m = _ |- _ => rewrite H in Hr end;
         by apply elem_of_nil in Hr); [|done].
  destruct Hgo as (r0 & Hsent & [Hch|[Hch _]]); rewrite Hch in Hr; simpl in Hr.
  - apply list_elem_of_singleton in Hr as ->. destruct Hsent as [(? & _)|?]; eauto.
  - by apply elem_of_nil in Hr.
Qed.

(** The function literal of [AllOf] returns [nil] with every error. *)
Lemma AllOf_returns_zero_on_error ctx0 n :
  returns_zero_on_error (fn (AllOf (T:=T) ctx0 n)).
Proof.
  intros ftr value e Hret. unfold result_of in Hret. simpl in Hret.
  destruct (exec (allOf.step n) _ ftr) as [s|] eqn:Hs; [|done]. simpl in Hret.
  pose proof (allOf_collector _ _ _ _ Hs) as Hcol. unfold allOf.returned in Hret.
  destruct (allOf.main s); [done|]. simplify_eq. by destruct Hcol as (_ & -> & _).
Qed.

(** The function literal of [AnyOf] returns what a future delivered. *)
Lemma AnyOf_returns_delivered ctx0 n ftr value err :
  result_of (fn (AnyOf (T:=T) ctx0 n)) ftr = Some (value, err) →
  ∃ i, anyOf.Deliver i (mkResult value err) ∈ ftr.
Proof.
  intros Hret. unfold result_of in Hret. simpl in Hret.
  destruct (exec anyOf.step _ ftr) as [s|] eqn:Hs; [|done]. simpl in Hret.
  pose proof (anyOf_collector _ _ _ _ Hs) as Hcol. unfold anyOf.returned in Hret.
  destruct (anyOf.main s); try done. simplify_eq.
  destruct Hcol as (i & [v e] & _ & Hdel & -> & -> & _). by exists i.
Qed.

(** The function literal of [Then] returns [empty] with the error of the
    future, or what [g] returns. *)
Lemma Then_returns_zero_on_error {U} `{!Zero U} (f : channelFuture U) ctx
    (g : U → T * error) :
  (∀ u value e, g u = (value, Some e) → value = zero) →
  returns_zero_on_error (fn (Then f ctx g)).
Proof.
  intros Hg ftr value e Hret. unfold result_of in Hret. simpl in Hret.
  destruct (exec (step f Await) _ ftr) as [s|] eqn:Hs; [|done]. simpl in Hret.
  destruct (await s) as [|result]; [done|]. unfold Then_body in Hret.
  destruct (Error result); simpl in Hret; simplify_eq; [done|]. by eapply Hg.
Qed.
End zero_on_error.

(** C9, amended.  A Result that [Await] or [AwaitWithTimeout] returns, or
    that [Async] delivers on its channel, and that carries an error has
    the zero value or is the pair that the wrapped function returned.  So
    Results have the zero value with every error when the wrapped
    function returns the zero value with every error.  The function
    literal of [AllOf] does; that of [AnyOf] does when the Results its
    futures deliver do; that of [Then] does when the function given to
    [Then] does. *)
Theorem Result_zero_or_relayed {T} `{!Zero T} (cf : channelFuture T) (op : method)
    (scope0 : Ctx) (tr : list (event cf)) (m : machine cf) (r : Result T) :
  run cf op scope0 tr = Some m →
  await m = Returned r ∨ r ∈ chan.buf (resultCh m) →
  (is_Some (Error r) →
   Value r = zero ∨ result_of (fn cf) (fn_events tr) = Some (Value r, Error r)) ∧
  (returns_zero_on_error (fn cf) → zero_on_error r) ∧
  (∀ ctx0 n, returns_zero_on_error (fn (AllOf (T:=T) ctx0 n))) ∧
  (∀ ctx0 n ftr,
     (∀ i r', anyOf.Deliver i r' ∈ ftr → zero_on_error r') →
     ∀ value e, result_of (fn (AnyOf (T:=T) ctx0 n)) ftr = Some (value, Some e) →
                value = zero) ∧
  (∀ U (ZU : Zero U) (f : channelFuture U) ctx (g : U → T * error),
     (∀ u value e, g u = (value, Some e) → value = zero) →
     returns_zero_on_error (fn (Then f ctx g))).
Proof.
  intros Hrun Hr.
  assert (is_Some (Error r) →
    Value r = zero ∨ result_of (fn cf) (fn_events tr) = Some (Value r, Error r)) as Hshape.
  { intros He. destruct Hr as [Hr|Hr].
    - by eapply returned_error_shape.
    - by eapply delivered_error_shape. }
  split_and!.
  - done.
  - intros Hf He. destruct (Hshape He) as [?|Hret]; [done|].
    destruct He as [e He]. rewrite He in Hret. by eapply Hf.
  - apply AllOf_returns_zero_on_error.
  - intros ctx0 n ftr Hdel value e Hret.
    apply AnyOf_returns_delivered in Hret as [i Hi].
    apply (Hdel _ _ Hi). by eexists.
  - intros U ZU f ctx g. apply Then_returns_zero_on_error.
Qed.

(** [Test_Future_Error]: the function returns [0] with its error. *)
Lemma Result_zero_or_relayed_witness :
  let cf := New (ret 0 (Some (Failure "error"))) in
  let tr : list (event cf) := [GoSelect; GoReturn; RecvResult] in
  let r := mkResult 0 (Some (Failure "error")) in
  ∃ m : machine cf,
    run cf Await None tr = Some m ∧ await m = Returned r ∧
    ((is_Some (Error r) →
      Value r = zero ∨ result_of (fn cf) (fn_events tr) = Some (Value r, Error r)) ∧
     (returns_zero_on_error (fn cf) → zero_on_error r) ∧
     (∀ ctx0 n, returns_zero_on_error (fn (AllOf (T:=nat) ctx0 n))) ∧
     (∀ ctx0 n ftr,
        (∀ i r', anyOf.Deliver i r' ∈ ftr → zero_on_error r') →
        ∀ value e, result_of (fn (AnyOf (T:=nat) ctx0 n)) ftr = Some (value, Some e) →
                   value = zero) ∧
     (∀ U (ZU : Zero U) (f : channelFuture U) ctx (g : U → nat * error),
        (∀ u value e, g u = (value, Some e) → value = zero) →
        returns_zero_on_error (fn (Then f ctx g)))).
Proof.
  intros cf tr r.
  set (m := Machine (cf:=cf) None None (chan.mk [] 1 true) Exited false (Returned r)).
  exists m. split; [reflexivity|]. split; [reflexivity|].
  apply (Result_zero_or_relayed cf Await None tr m r).
  - reflexivity.
  - left. reflexivity.
Defined.

(** * Further properties of the package *)

(** ** Calls of [Await] and [AwaitWithTimeout] *)

Section channelFuture_steps.
Context {T : Type} `{!Zero T} (cf : channelFuture T) (op : method).
Implicit Types (m : machine cf) (tr : list (event cf)).

(** The send and the deferred [close] on the channel [Async] made. *)
Lemma deliver_make m r m' :
  resultCh m = chan.make 1 → deliver m r = Some m' →
  m' = Machine (scope m) (ctx m) (chan.mk [r] 1 true) Exited (timer m) (await m).
Proof.
  intros Hch. unfold deliver. rewrite Hch. unfold chan.send, chan.close. simpl.
  by intros [= <-].
Qed.

(** The step function of a call, read backwards. *)
Lemma step_inv m ev m' :
  step cf op m ev = Some m' →
  match ev with
  | ScopeCancelled e =>
      Done (scope m) = false ∧
      m' = Machine (Some e) (propagate e (ctx m)) (resultCh m) (go m) (timer m) (await m)
  | TimerFired =>
      op = AwaitWithTimeout ∧ timer m = false ∧
      m' = Machine (scope m) (ctx m) (resultCh m) (go m) true (await m)
  | GoSelect =>
      go m = AtSelect ∧
      ((Done (ctx m) = true ∧ deliver m (mkResult zero (Err (ctx m))) = Some m') ∨
       (Done (ctx m) = false ∧
        m' = Machine (scope m) (ctx m) (resultCh m) (InFn (fstart (fn cf)))
               (timer m) (await m)))
  | GoFn fev =>
      ∃ s s', go m = InFn s ∧ freturn (fn cf) s = None ∧
              fstep (fn cf) s fev = Some s' ∧
              m' = Machine (scope m) (ctx m) (resultCh m) (InFn s') (timer m) (await m)
  | GoReturn =>
      ∃ s value err, go m = InFn s ∧ freturn (fn cf) s = Some (value, err) ∧
                     deliver m (mkResult value err) = Some m'
  | RecvResult =>
      await m = Waiting ∧
      ∃ r c, chan.recv (resultCh m) = chan.Ok (r, c) ∧
             m' = Machine (scope m) (ctx m) c (go m) (timer m) (Returned r)
  | RecvDone =>
      await m = Waiting ∧ op = AwaitWithTimeout ∧ Done (scope m) = true ∧
      m' = Machine (scope m) (ctx m) (resultCh m) (go m) (timer m)
             (Returned (mkResult zero (Err (scope m))))
  | RecvTimer =>
      await m = Waiting ∧ op = AwaitWithTimeout ∧ timer m = true ∧
      m' = Machine (scope m) (cancel (ctx m)) (resultCh m) (go m) (timer m)
             (Returned (mkResult zero (Some DeadlineExceeded)))
  end.
Proof.
  intros Hstep. destruct ev as [e| | |fev| | | |]; simpl in Hstep.
  - destruct (Done (scope m)); by simplify_eq.
  - destruct op; [done|]. destruct (timer m); by simplify_eq.
  - unfold go_step in Hstep. destruct (go m); try done. split; [done|].
    destruct (Done (ctx m)); [by left|right]. by simplify_eq.
  - unfold go_step in Hstep. destruct (go m) as [|s| |]; try done.
    destruct (freturn (fn cf) s) eqn:Hret; [done|].
    destruct (fstep (fn cf) s fev) as [s'|] eqn:Hs; simpl in Hstep; [|done].
    simplify_eq. by exists s, s'.
  - unfold go_step in Hstep. destruct (go m) as [|s| |]; try done.
    destruct (freturn (fn cf) s) as [[value err]|] eqn:Hret; simpl in Hstep; [|done].
    by exists s, value, err.
  - destruct (await m); [|done]. split; [done|].
    destruct op; simpl in Hstep;
      (destruct (chan.recv (resultCh m)) as [[r c]| |]; [|done..]);
      simplify_eq; by exists r, c.
  - destruct (await m); [|done]. destruct op; simpl in Hstep; [done|].
    destruct (Done (scope m)); by simplify_eq.
  - destruct (await m); [|done]. destruct op; simpl in Hstep; [done|].
    destruct (timer m); by simplify_eq.
Qed.
End channelFuture_steps.

Section channelFuture_origin.
Context {T : Type} `{!Zero T} (cf : channelFuture T) (op : method) (scope0 : Ctx).
Implicit Types (m : machine cf) (tr : list (event cf)).

Lemma cancelled_with_snoc tr ev e :
  cancelled_with scope0 tr e → cancelled_with scope0 (tr ++ [ev]) e.
Proof. intros [?|?]; [by left|right]. apply elem_of_app. by left. Qed.

Lemma from_context_snoc tr ev r :
  from_context scope0 tr r → from_context scope0 (tr ++ [ev]) r.
Proof. intros (? & e & ? & ?). split; [done|]. exists e. eauto using cancelled_with_snoc. Qed.

Lemma from_timer_snoc tr ev r : from_timer tr r → from_timer (tr ++ [ev]) r.
Proof. intros (? & ?). split; [done|]. apply elem_of_app. by left. Qed.

(** Where the Results of a run come from: what is on the channel while
    the caller waits, and what the caller has returned. *)
Lemma call_origin tr m :
  run cf op scope0 tr = Some m →
  (∀ e, scope m = Some e → cancelled_with scope0 tr e) ∧
  (timer m = true → TimerFired ∈ tr) ∧
  (await m = Waiting → ctx m = scope m) ∧
  (∀ r, r ∈ chan.buf (resultCh m) → await m = Waiting →
        from_fn cf tr r ∨ from_context scope0 tr r) ∧
  (∀ r, await m = Returned r →
        (go m = Exited ∧ (from_fn cf tr r ∨ from_context scope0 tr r)) ∨
        (op = AwaitWithTimeout ∧ from_context scope0 tr r) ∨
        (op = AwaitWithTimeout ∧ from_timer tr r)).
Proof.
  unfold run. revert tr m. apply (exec_ind (step cf op) (Async cf scope0)).
  { simpl. split_and!; try done.
    - intros e ->. by left.
    - by intros r ?%elem_of_nil. }
  intros tr m ev m' Hexec (Ha & Hb & Hc & Hd & He) Hstep.
  destruct (run_shape cf op scope0 tr m Hexec) as [Hgo _].
  pose proof (waiting_recv_blocks cf op scope0 tr m Hexec) as Hblocks.
  assert (∀ r, await m = Returned r → go m ≠ Exited →
    (op = AwaitWithTimeout ∧ from_context scope0 (tr ++ [ev]) r) ∨
    (op = AwaitWithTimeout ∧ from_timer (tr ++ [ev]) r)) as He'.
  { intros r Hr Hne. destruct (He r Hr) as [[? _]|[[? ?]|[? ?]]]; [done|left|right];
      eauto using from_context_snoc, from_timer_snoc. }
  assert (∀ r, (∀ fev, ev ≠ GoFn fev) → await m = Returned r →
    (go m = Exited ∧ (from_fn cf (tr ++ [ev]) r ∨ from_context scope0 (tr ++ [ev]) r)) ∨
    (op = AwaitWithTimeout ∧ from_context scope0 (tr ++ [ev]) r) ∨
    (op = AwaitWithTimeout ∧ from_timer (tr ++ [ev]) r)) as Hkeep.
  { intros r Hev Hr. unfold from_fn. rewrite fn_events_snoc.
    replace (match ev with GoFn fev => [fev] | _ => [] end) with (@nil (fevent (fn cf)))
      by (destruct ev; try done; by destruct (Hev ev)).
    rewrite app_nil_r.
    destruct (He r Hr) as [[? [?|?]]|[[? ?]|[? ?]]];
      eauto 10 using from_context_snoc, from_timer_snoc. }
  assert (∀ r, (∀ fev, ev ≠ GoFn fev) → r ∈ chan.buf (resultCh m) → await m = Waiting →
    from_fn cf (tr ++ [ev]) r ∨ from_context scope0 (tr ++ [ev]) r) as Hbuf.
  { intros r Hev Hr Hw. unfold from_fn. rewrite fn_events_snoc.
    replace (match ev with GoFn fev => [fev] | _ => [] end) with (@nil (fevent (fn cf)))
      by (destruct ev; try done; by destruct (Hev ev)).
    rewrite app_nil_r. destruct (Hd r Hr Hw); eauto using from_context_snoc. }
  assert (∀ x, x ∈ tr → x ∈ tr ++ [ev]) as Hin by (intros; apply elem_of_app; by left).
  assert (∀ e, scope m = Some e → cancelled_with scope0 (tr ++ [ev]) e) as Ha'
    by eauto using cancelled_with_snoc.
  assert (timer m = true → TimerFired ∈ tr ++ [ev]) as Hb' by eauto.
  apply step_inv in Hstep.
  destruct ev as [e| | |fev| | | |]; simpl in Hstep.
  - destruct Hstep as (Hsc & ->). simpl. split_and!; [|done| |by auto|by auto].
    + intros e' [= <-]. right. apply elem_of_app. right. by left.
    + intros Hw. rewrite (Hc Hw). by destruct (scope m).
  - destruct Hstep as (_ & _ & ->). simpl. split_and!; [done| |done|by auto|by auto].
    intros _. apply elem_of_app. right. by left.
  - destruct Hstep as (Hat & Hsel). rewrite Hat in Hgo. destruct Hgo as [Hch Hfn].
    destruct Hsel as [(Hdone & Hsend)|(Hdone & ->)].
    + apply (deliver_make cf) in Hsend; [|done]. subst m'. simpl.
      split_and!; [done..| |].
      * intros r ->%list_elem_of_singleton Hw. right. split; [done|]. simpl.
        rewrite (Hc Hw) in *. destruct (scope m) as [e|] eqn:Hscope; [|done].
        exists e. split; [done|]. eauto using cancelled_with_snoc.
      * intros r Hr. right. apply He'; [done|congruence].
    + simpl. split_and!; [done..| |].
      * intros r Hr. rewrite Hch in Hr. by apply elem_of_nil in Hr.
      * intros r Hr. right. apply He'; [done|congruence].
  - destruct Hstep as (s & s' & Hin' & _ & _ & ->). rewrite Hin' in Hgo.
    destruct Hgo as [Hch _]. simpl. split_and!; [done..| |].
    + intros r Hr. rewrite Hch in Hr. by apply elem_of_nil in Hr.
    + intros r Hr. right. apply He'; [done|congruence].
  - destruct Hstep as (s & value & err & Hin' & Hret & Hsend). rewrite Hin' in Hgo.
    destruct Hgo as [Hch Hs]. apply (deliver_make cf) in Hsend; [|done]. subst m'. simpl.
    split_and!; [done..| |].
    + intros r ->%list_elem_of_singleton Hw. left. unfold from_fn, result_of.
      rewrite fn_events_snoc, app_nil_r, Hs. simpl. by rewrite Hret.
    + intros r Hr. right. apply He'; [done|congruence].
  - destruct Hstep as (Hw & r & c & Hrecv & ->). simpl.
    split_and!; [done..| |]; [done|]. intros ? [= <-].
    apply recv_Ok in Hrecv as [(q & Hq & _)|(Hq & Hcl & _)].
    2:{ specialize (Hblocks Hw Hq). unfold chan.recv in Hblocks.
        by rewrite Hq, Hcl in Hblocks. }
    left. assert (r ∈ chan.buf (resultCh m)) as Hr by (rewrite Hq; by left).
    split; [|by apply Hbuf].
    destruct (go m); destruct_and?; try done;
      match goal with H : resultCh m = _ |- _ => rewrite H in Hq end; done.
  - destruct Hstep as (Hw & -> & Hdone & ->). simpl.
    split_and!; [done..| |]; [done|]. intros ? [= <-].
    right; left. split; [done|]. split; [done|].
    destruct (scope m) as [e|] eqn:Hscope; [|done]. exists e. split; [done|]. eauto.
  - destruct Hstep as (Hw & -> & Htm & ->). simpl.
    split_and!; [done..| |]; [done|]. intros ? [= <-].
    right; right. split; [done|]. split; [done|]. eauto.
Qed.
End channelFuture_origin.

Section channelFuture_all_runs.
Context {T : Type} `{!Zero T} (cf : channelFuture T) (op : method) (scope0 : Ctx).
Implicit Types (m : machine cf) (tr : list (event cf)).

(** Every event of a call that is not an event of its function uses up
    one of the at most five the call has. *)
Lemma call_left_bound tr m :
  run cf op scope0 tr = Some m →
  length tr + call_left op m ≤ length (fn_events tr) + call_left op (Async cf scope0).
Proof.
  unfold run. revert tr m. apply (exec_ind (step cf op) (Async cf scope0)).
  { simpl. lia. }
  intros tr m ev m' Hexec IH Hstep.
  destruct (run_shape cf op scope0 tr m Hexec) as [Hgo _].
  rewrite fn_events_snoc, !length_app. simpl.
  cut (call_left op m' + match ev with GoFn _ => 0 | _ => 1 end ≤ call_left op m).
  { destruct ev; simpl; lia. }
  clear IH. apply step_inv in Hstep. unfold call_left.
  destruct ev as [e| | |fev| | | |]; simpl in Hstep.
  - destruct Hstep as (-> & ->). simpl. lia.
  - destruct Hstep as (-> & -> & ->). simpl. lia.
  - destruct Hstep as (Hat & Hsel). rewrite Hat in *. destruct Hgo as [Hch _].
    destruct Hsel as [(_ & Hsend)|(_ & ->)]; [|simpl; lia].
    apply (deliver_make cf) in Hsend; [|done]. subst m'. simpl. lia.
  - destruct Hstep as (s & s' & -> & _ & _ & ->). simpl. lia.
  - destruct Hstep as (s & value & err & Hin & _ & Hsend). rewrite Hin in *.
    destruct Hgo as [Hch _]. apply (deliver_make cf) in Hsend; [|done]. subst m'.
    simpl. lia.
  - destruct Hstep as (-> & r & c & _ & ->). simpl. lia.
  - destruct Hstep as (-> & _ & _ & ->). simpl. lia.
  - destruct Hstep as (-> & _ & _ & ->). simpl. lia.
Qed.

Lemma call_bound tr m :
  run cf op scope0 tr = Some m →
  length tr ≤ length (fn_events tr) + call_left op (Async cf scope0).
Proof. intros Hrun. pose proof (call_left_bound tr m Hrun). lia. Qed.

(** Three of them are the goroutine's [select], its send and the
    caller's receive or return. *)
Lemma call_bound_live tr m :
  run cf op scope0 tr = Some m →
  scope m = None → (op = AwaitWithTimeout → timer m = false) →
  length tr ≤ length (fn_events tr) + 3.
Proof.
  intros Hrun Hsc Htm. pose proof (call_left_bound tr m Hrun) as Hlen.
  unfold call_left in Hlen. rewrite Hsc in Hlen. simpl in Hlen.
  destruct op; [destruct (Done scope0); lia|].
  rewrite Htm in Hlen by done. destruct (Done scope0); lia.
Qed.

(** The goroutine of [Async] can always take its next step: its
    [select], and its send once the function has returned. *)
Lemma goroutine_enabled tr m :
  run cf op scope0 tr = Some m →
  (go m = AtSelect → is_Some (step cf op m GoSelect)) ∧
  (∀ s, go m = InFn s → is_Some (freturn (fn cf) s) → is_Some (step cf op m GoReturn)) ∧
  (go m = Exited → await m = Waiting → is_Some (step cf op m RecvResult)).
Proof.
  intros Hrun. destruct (run_shape cf op scope0 tr m Hrun) as [Hgo _].
  destruct m as [sc cx ch g tm aw]; simpl in *. split_and!.
  - intros ->. destruct Hgo as [-> _]. unfold step, go_step. simpl.
    destruct (Done cx); [|done]. by unfold deliver, chan.send, chan.close.
  - intros s -> [[value err] Hret]. destruct Hgo as [-> _]. unfold step, go_step. simpl.
    rewrite Hret. simpl. by unfold deliver, chan.send, chan.close.
  - intros -> ->. destruct Hgo as (r & _ & [->|[_ ?]]); [|done].
    unfold step. simpl. destruct op; by unfold Await_step, AwaitWithTimeout_step, chan.recv.
Qed.

(** When the derived context is done before the goroutine has taken its
    [select], the function is never called: the goroutine sends the
    error of the context with the zero value. *)
Lemma select_done e m tr' m' :
  ctx m = Some e → go m = AtSelect → resultCh m = chan.make 1 →
  exec (step cf op) m tr' = Some m' →
  ctx m' = Some e ∧
  ((go m' = AtSelect ∧ resultCh m' = chan.make 1) ∨
   (go m' = Exited ∧ ∀ r, r ∈ chan.buf (resultCh m') → r = mkResult zero (Some e))).
Proof.
  intros Hc Hg Hch Hexec.
  eapply (exec_preserves (step cf op) (λ m', ctx m' = Some e ∧
    ((go m' = AtSelect ∧ resultCh m' = chan.make 1) ∨
     (go m' = Exited ∧ ∀ r, r ∈ chan.buf (resultCh m') → r = mkResult zero (Some e)))));
    [|by eauto|exact Hexec].
  clear. intros m ev m' (Hc & Hgo) Hstep. apply step_inv in Hstep.
  destruct ev as [e'| | |fev| | | |]; simpl in Hstep.
  - destruct Hstep as (_ & ->). simpl. by rewrite Hc.
  - by destruct Hstep as (_ & _ & ->).
  - destruct Hstep as (Hat & Hsel). destruct Hgo as [[_ Hch]|[? _]]; [|congruence].
    destruct Hsel as [(_ & Hsend)|(Hd & _)]; [|by rewrite Hc in Hd].
    apply (deliver_make cf) in Hsend; [|done]. subst m'. simpl. split; [done|].
    right. split; [done|]. intros r ->%list_elem_of_singleton. by rewrite Hc.
  - destruct Hstep as (s & s' & Hin & _). destruct Hgo as [[? _]|[? _]]; congruence.
  - destruct Hstep as (s & ? & ? & Hin & _). destruct Hgo as [[? _]|[? _]]; congruence.
  - destruct Hstep as (_ & r & c & Hrecv & ->). simpl. split; [done|].
    destruct Hgo as [[_ Hch]|[? Hbuf]].
    + rewrite Hch in Hrecv. by apply recv_Ok in Hrecv as [(? & ? & _)|(_ & ? & _)].
    + right. split; [done|]. intros r' Hr'. apply Hbuf.
      apply recv_fields in Hrecv as (_ & _ & [->|(_ & Hc' & _)]); [by right|].
      rewrite Hc' in Hr'. by apply elem_of_nil in Hr'.
  - by destruct Hstep as (_ & _ & _ & ->).
  - destruct Hstep as (_ & _ & _ & ->). simpl. by rewrite Hc.
Qed.
End channelFuture_all_runs.

(** X1.  A Result that a call of [Await] or [AwaitWithTimeout] returns is what
    the function returned, or carries the error of the call's context
    with the zero value, or, in [AwaitWithTimeout] after the timer has
    fired, [DeadlineExceeded] with the zero value. *)
Theorem call_result_origin {T} `{!Zero T} (cf : channelFuture T) (op : method)
    (scope0 : Ctx) (tr : list (event cf)) (m : machine cf) (r : Result T) :
  run cf op scope0 tr = Some m → await m = Returned r →
  from_fn cf tr r ∨ from_context scope0 tr r ∨
  (op = AwaitWithTimeout ∧ from_timer tr r).
Proof.
  intros Hrun Hr. destruct (call_origin cf op scope0 tr m Hrun) as (_ & _ & _ & _ & He).
  destruct (He r Hr) as [[_ [?|?]]|[[_ ?]|?]]; eauto.
Qed.

(** [Test_Future_AwaitWithTimeout_ctxDone] *)
Lemma call_result_origin_witness :
  let cf := New (ret 42 None) in
  let tr : list (event cf) := [RecvDone] in
  let r := mkResult 0 (Some Canceled) in
  ∃ m : machine cf,
    run cf AwaitWithTimeout (Some Canceled) tr = Some m ∧ await m = Returned r ∧
    (from_fn cf tr r ∨ from_context (Some Canceled) tr r ∨
     (AwaitWithTimeout = AwaitWithTimeout ∧ from_timer tr r)).
Proof.
  intros cf tr r. eexists. split; [reflexivity|]. split; [reflexivity|].
  eapply (call_result_origin cf AwaitWithTimeout (Some Canceled) tr _ r); reflexivity.
Defined.

(** X2.  In every run of [Await] or [AwaitWithTimeout], on any context: the
    goroutine of [Async] does not panic and the channel holds at most one
    Result; the goroutine can always take its [select] and, once the
    function has returned, its send, also after the caller has returned;
    a caller that still waits when the goroutine has exited can receive;
    and the call has at most five events besides those of its
    function. *)
Theorem call_never_stuck {T} `{!Zero T} (cf : channelFuture T) (op : method)
    (scope0 : Ctx) (tr : list (event cf)) (m : machine cf) :
  run cf op scope0 tr = Some m →
  go m ≠ Panicked ∧ length (chan.buf (resultCh m)) ≤ 1 ∧
  (go m = AtSelect → is_Some (step cf op m GoSelect)) ∧
  (∀ s, go m = InFn s → is_Some (freturn (fn cf) s) → is_Some (step cf op m GoReturn)) ∧
  (go m = Exited → await m = Waiting → is_Some (step cf op m RecvResult)) ∧
  length tr ≤ length (fn_events tr) + 5.
Proof.
  intros Hrun. destruct (run_shape cf op scope0 tr m Hrun) as [Hgo _].
  destruct (goroutine_enabled cf op scope0 tr m Hrun) as (? & ? & ?).
  pose proof (call_left_bound cf op scope0 tr m Hrun) as Hlen.
  split_and!; try done.
  - intros Hp. by rewrite Hp in Hgo.
  - destruct (go m); destruct_and?;
      try (match goal with H : resultCh m = _ |- _ => rewrite H end; simpl; lia);
      [|done].
    destruct Hgo as (r & _ & [->|[-> _]]); simpl; lia.
  - unfold call_left in Hlen at 2. simpl in Hlen.
    destruct (Done scope0), op; simpl in Hlen; lia.
Qed.

(** [Test_Future_TimeoutExceeded]: the caller has returned on the timer
    and the function returns afterwards. *)
Lemma call_never_stuck_witness :
  let cf := New (ret 42 None) in
  let tr : list (event cf) := [GoSelect; TimerFired; RecvTimer] in
  ∃ m : machine cf,
    run cf AwaitWithTimeout None tr = Some m ∧
    await m = Returned (mkResult 0 (Some DeadlineExceeded)) ∧
    is_Some (step cf AwaitWithTimeout m GoReturn) ∧
    (go m ≠ Panicked ∧ length (chan.buf (resultCh m)) ≤ 1 ∧
     (go m = AtSelect → is_Some (step cf AwaitWithTimeout m GoSelect)) ∧
     (∀ s, go m = InFn s → is_Some (freturn (fn cf) s) →
           is_Some (step cf AwaitWithTimeout m GoReturn)) ∧
     (go m = Exited → await m = Waiting →
      is_Some (step cf AwaitWithTimeout m RecvResult)) ∧
     length tr ≤ length (fn_events tr) + 5).
Proof.
  intros cf tr. eexists. split; [reflexivity|]. split; [reflexivity|].
  split; [by eexists|].
  apply (call_never_stuck cf AwaitWithTimeout None tr). reflexivity.
Defined.

Section channelFuture_done.
Context {T : Type} `{!Zero T} (cf : channelFuture T) (op : method).
Implicit Types (m : machine cf) (tr : list (event cf)).

Lemma deliver_fields m r m' :
  deliver m r = Some m' →
  scope m' = scope m ∧ ctx m' = ctx m ∧ timer m' = timer m ∧ await m' = await m.
Proof. unfold deliver. intros Hd. repeat case_match; by simplify_eq. Qed.

(** A context that is done stays done, with the same error. *)
Lemma scope_done_stable e m tr' m' :
  scope m = Some e → exec (step cf op) m tr' = Some m' → scope m' = Some e.
Proof.
  intros Hsc. apply (exec_preserves (step cf op) (λ m, scope m = Some e)); [|done].
  clear. intros m ev m' Hsc Hstep. apply step_inv in Hstep.
  destruct ev as [e'| | |fev| | | |]; simpl in Hstep.
  - destruct Hstep as (Hd & _). by rewrite Hsc in Hd.
  - by destruct Hstep as (_ & _ & ->).
  - destruct Hstep as (_ & [(_ & Hd)|(_ & ->)]); [|done].
    apply deliver_fields in Hd as (-> & _). done.
  - by destruct Hstep as (? & ? & _ & _ & _ & ->).
  - destruct Hstep as (? & ? & ? & _ & _ & Hd).
    apply deliver_fields in Hd as (-> & _). done.
  - by destruct Hstep as (_ & ? & ? & _ & ->).
  - by destruct Hstep as (_ & _ & _ & ->).
  - by destruct Hstep as (_ & _ & _ & ->).
Qed.

(** What a call on a context that is already done returns. *)
Lemma done_context_returned e tr m r :
  run cf op (Some e) tr = Some m → await m = Returned r →
  r = mkResult zero (Some e) ∨ (op = AwaitWithTimeout ∧ from_timer tr r).
Proof.
  unfold run. intros Hrun. revert r. revert tr m Hrun.
  apply (exec_ind (step cf op) (Async cf (Some e))
    (λ tr m, ∀ r, await m = Returned r →
       r = mkResult zero (Some e) ∨ (op = AwaitWithTimeout ∧ from_timer tr r)));
    [done|].
  intros tr m ev m' Hexec IH Hstep.
  destruct (select_done cf op e (Async cf (Some e)) tr m) as [Hc Hgo]; try done.
  destruct (call_origin cf op (Some e) tr m Hexec) as (_ & Hb & _).
  pose proof (waiting_recv_blocks cf op (Some e) tr m Hexec) as Hblocks.
  pose proof (scope_done_stable e (Async cf (Some e)) tr m eq_refl Hexec) as Hsc.
  assert (∀ r, await m = Returned r →
    r = mkResult zero (Some e) ∨ (op = AwaitWithTimeout ∧ from_timer (tr ++ [ev]) r))
    as IH'.
  { intros r Hr. destruct (IH r Hr) as [?|[? ?]]; eauto using from_timer_snoc. }
  apply step_inv in Hstep.
  destruct ev as [e'| | |fev| | | |]; simpl in Hstep.
  - by destruct Hstep as (_ & ->).
  - by destruct Hstep as (_ & _ & ->).
  - destruct Hstep as (_ & [(_ & Hd)|(_ & ->)]); [|done].
    apply deliver_fields in Hd as (_ & _ & _ & ->). done.
  - by destruct Hstep as (? & ? & _ & _ & _ & ->).
  - destruct Hstep as (? & ? & ? & _ & _ & Hd).
    apply deliver_fields in Hd as (_ & _ & _ & ->). done.
  - destruct Hstep as (Hw & r & c & Hrecv & ->). simpl. intros ? [= <-]. left.
    destruct Hgo as [[_ Hch]|[_ Hbuf]].
    + rewrite Hch in Hrecv. by apply recv_Ok in Hrecv as [(? & ? & _)|(_ & ? & _)].
    + apply recv_Ok in Hrecv as [(q & Hq & _)|(Hq & Hcl & _)].
      * apply Hbuf. rewrite Hq. by left.
      * specialize (Hblocks Hw Hq). unfold chan.recv in Hblocks.
        by rewrite Hq, Hcl in Hblocks.
  - destruct Hstep as (Hw & -> & Hdone & ->). simpl. intros ? [= <-]. left.
    by rewrite Hsc.
  - destruct Hstep as (Hw & -> & Htm & ->). simpl. intros ? [= <-]. right.
    split; [done|]. split; [done|]. apply elem_of_app. left. auto.
Qed.
End channelFuture_done.

(** X3.  A call on a context that is already done, as in
    [Test_Future_AllOf_ctxDone] and [Test_Future_AwaitWithTimeout_ctxDone]:
    the function is never called; a returned Result carries the error of
    the context with the zero value, or, in [AwaitWithTimeout] after
    the timer has fired, [DeadlineExceeded]; while the call waits, the
    goroutine can take its [select] or the caller can receive, and in
    [AwaitWithTimeout] the case [<-ctx.Done()] is enabled. *)
Theorem call_on_done_context {T} `{!Zero T} (cf : channelFuture T) (op : method)
    (e : err) (tr : list (event cf)) (m : machine cf) :
  run cf op (Some e) tr = Some m →
  (∀ s, go m ≠ InFn s) ∧
  (∀ r, await m = Returned r →
        r = mkResult zero (Some e) ∨ (op = AwaitWithTimeout ∧ from_timer tr r)) ∧
  (await m = Waiting →
   is_Some (step cf op m GoSelect) ∨ is_Some (step cf op m RecvResult)) ∧
  (op = AwaitWithTimeout → await m = Waiting → is_Some (step cf op m RecvDone)).
Proof.
  intros Hrun.
  destruct (select_done cf op e (Async cf (Some e)) tr m) as [Hc Hgo]; try done.
  destruct (goroutine_enabled cf op _ tr m Hrun) as (Hsel & _ & Hrecv).
  pose proof (scope_done_stable cf op e (Async cf (Some e)) tr m eq_refl Hrun) as Hsc.
  split_and!.
  - intros s Hs. destruct Hgo as [[? _]|[? _]]; congruence.
  - intros r. by apply done_context_returned.
  - intros Hw. destruct Hgo as [[Hat _]|[Hex _]]; [left|right]; auto.
  - intros -> Hw. unfold step, AwaitWithTimeout_step. by rewrite Hw, Hsc.
Qed.

(** [Test_Future_AllOf_ctxDone]: the future is awaited on a cancelled
    context; whatever its function is, it is not called. *)
Lemma call_on_done_context_witness :
  let cf := AllOf (T:=nat) (Some Canceled) 2 in
  let tr : list (event cf) := [GoSelect; RecvResult] in
  ∃ m : machine cf,
    run cf Await (Some Canceled) tr = Some m ∧
    await m = Returned (mkResult [] (Some Canceled)) ∧
    ((∀ s, go m ≠ InFn s) ∧
     (∀ r, await m = Returned r →
           r = mkResult zero (Some Canceled) ∨ (Await = AwaitWithTimeout ∧ from_timer tr r)) ∧
     (await m = Waiting →
      is_Some (step cf Await m GoSelect) ∨ is_Some (step cf Await m RecvResult)) ∧
     (Await = AwaitWithTimeout → await m = Waiting → is_Some (step cf Await m RecvDone))).
Proof.
  intros cf tr. eexists. split; [reflexivity|]. split; [reflexivity|].
  apply (call_on_done_context cf Await Canceled tr). reflexivity.
Defined.

(** X4.  [AwaitWithTimeout] whose timer does not fire, on a context that is
    not cancelled, as in [ExampleFuture_AwaitWithTimeout]: for a function
    that returns [(v, nil)] whenever it returns and is never stuck before,
    a returned Result is [v] with a [nil] error, the call is never stuck,
    and it adds at most three events to those of the function. *)
Theorem AwaitWithTimeout_in_time {T} `{!Zero T} (f : func T) (v : T)
    (tr : list (event (New f))) (m : machine (New f)) :
  (∀ ftr x, result_of f ftr = Some x → x = (v, None)) →
  (∀ ftr s, exec (fstep f) (fstart f) ftr = Some s → freturn f s = None →
            ∃ ev, is_Some (fstep f s ev)) →
  run (New f) AwaitWithTimeout None tr = Some m →
  Forall live tr → TimerFired ∉ tr →
  (∀ r, await m = Returned r → r = mkResult v None) ∧
  (await m = Waiting →
   ∃ ev, live ev ∧ ev ≠ TimerFired ∧ is_Some (step (New f) AwaitWithTimeout m ev)) ∧
  length tr ≤ length (fn_events tr) + 3.
Proof.
  intros Hret Hprog Hrun Hlive Htimer.
  destruct (call_origin _ _ _ tr m Hrun) as (Ha & Hb & _ & _ & He).
  assert (∀ e, ¬ cancelled_with (cf:=New f) None tr e) as Hnc.
  { intros e [?|Hin]; [done|]. rewrite Forall_forall in Hlive. apply (Hlive _ Hin). }
  split_and!.
  - intros [value err] Hr.
    destruct (He _ Hr) as [[_ [Hfn|(_ & e & _ & ?)]]|[[_ (_ & e & _ & ?)]|(_ & _ & ?)]];
      [|by destruct (Hnc e)..|done].
    apply Hret in Hfn. simpl in Hfn. by simplify_eq.
  - intros Hw. destruct (run_shape _ _ _ tr m Hrun) as [Hgo _].
    destruct (goroutine_enabled _ _ _ tr m Hrun) as (Hsel & Hsend & Hrecv).
    destruct (go m) as [|s| |] eqn:Hg; [| | |done].
    + exists GoSelect. split_and!; [done..|auto].
    + destruct (freturn f s) as [x|] eqn:Hx.
      * exists GoReturn. split_and!; try done. apply (Hsend s eq_refl). simpl.
        by rewrite Hx.
      * destruct Hgo as [_ Hs]. destruct (Hprog _ _ Hs Hx) as [ev [s' Hev]].
        exists (GoFn (cf:=New f) ev). split_and!; try done.
        unfold step, go_step. rewrite Hg. simpl in *. rewrite Hx, Hev. by simpl.
    + exists RecvResult. split_and!; [done..|auto].
  - apply (call_bound_live _ _ _ tr m Hrun).
    + destruct (scope m) as [e|] eqn:Hsc; [by destruct (Hnc e (Ha e eq_refl))|done].
    + intros _. destruct (timer m); [by destruct Htimer; auto|done].
Qed.

(** [ExampleFuture_AwaitWithTimeout] *)
Lemma AwaitWithTimeout_in_time_witness :
  let tr : list (event (New (ret 42 None))) := [GoSelect; GoReturn; RecvResult] in
  ∃ m : machine (New (ret 42 None)),
    run (New (ret 42 None)) AwaitWithTimeout None tr = Some m ∧
    await m = Returned (mkResult 42 None) ∧
    ((∀ r, await m = Returned r → r = mkResult 42 None) ∧
     (await m = Waiting →
      ∃ ev, live ev ∧ ev ≠ TimerFired ∧
            is_Some (step (New (ret 42 None)) AwaitWithTimeout m ev)) ∧
     length tr ≤ length (fn_events tr) + 3).
Proof.
  intros tr. eexists. split; [reflexivity|]. split; [reflexivity|].
  apply (AwaitWithTimeout_in_time (ret 42 None) 42 tr).
  - intros [|[]] x; cbv; congruence.
  - intros ftr s _; simpl; congruence.
  - reflexivity.
  - repeat constructor.
  - intros Hin. repeat (apply elem_of_cons in Hin as [?|Hin]; [done|]).
    by apply elem_of_nil in Hin.
Defined.

(** X5.  Cancelling before the goroutine of [Async] has reached its [select]
    keeps the function from being called: if the derived context is done
    while the goroutine is still before its [select] (the context of the
    call was cancelled, or [AwaitWithTimeout] has returned on its timer
    and called [cancel]), then in every continuation the goroutine never
    enters the function, and what it sends is the error of the derived
    context with the zero value. *)
Theorem cancelled_before_select {T} `{!Zero T} (cf : channelFuture T) (op : method)
    (scope0 : Ctx) (e : err) (tr tr' : list (event cf)) (m m' : machine cf) :
  run cf op scope0 tr = Some m → go m = AtSelect → ctx m = Some e →
  exec (step cf op) m tr' = Some m' →
  (∀ s, go m' ≠ InFn s) ∧ ctx m' = Some e ∧
  ∀ r, r ∈ chan.buf (resultCh m') → r = mkResult zero (Some e).
Proof.
  intros Hrun Hat Hc Hexec.
  destruct (run_shape cf op scope0 tr m Hrun) as [Hgo _]. rewrite Hat in Hgo.
  destruct Hgo as [Hch Hfn].
  destruct (select_done cf op e m tr' m' Hc Hat Hch Hexec) as [Hc' Hgo'].
  split_and!; try done.
  - intros s Hs. destruct Hgo' as [[? _]|[? _]]; congruence.
  - intros r Hr. destruct Hgo' as [[_ Hch']|[_ Hbuf]]; [|by apply Hbuf].
    rewrite Hch' in Hr. by apply elem_of_nil in Hr.
Qed.

(** [AwaitWithTimeout] returns on its timer before the goroutine has
    run; the goroutine then finds the context cancelled. *)
Lemma cancelled_before_select_witness :
  let cf := New (ret 42 None) in
  let tr : list (event cf) := [TimerFired; RecvTimer] in
  let tr' : list (event cf) := [GoSelect] in
  ∃ m m' : machine cf,
    run cf AwaitWithTimeout None tr = Some m ∧
    exec (step cf AwaitWithTimeout) m tr' = Some m' ∧
    chan.buf (resultCh m') = [mkResult 0 (Some Canceled)] ∧
    ((∀ s, go m' ≠ InFn s) ∧ ctx m' = Some Canceled ∧
     ∀ r, r ∈ chan.buf (resultCh m') → r = mkResult zero (Some Canceled)).
Proof.
  intros cf tr tr'. eexists _, _. split; [reflexivity|]. split; [reflexivity|].
  split; [reflexivity|].
  eapply (cancelled_before_select cf AwaitWithTimeout None Canceled tr tr'); reflexivity.
Defined.

(** ** Then, composed *)

Section Then_runs.
Context {T U : Type} `{!Zero T, !Zero U}.
Context (f : channelFuture T) (ctx0 : Ctx) (g : T → U * error).
Implicit Types (m : machine (Then f ctx0 g)) (tr : list (event (Then f ctx0 g))).

(** The events of the function literal of [Then] are a run of
    [f.Await(ctx)], and the literal has returned when that call has. *)
Lemma Then_result_of (ftr : list (event f)) x :
  result_of (fn (Then f ctx0 g)) ftr = Some x ↔
  ∃ mi result, run f Await ctx0 ftr = Some mi ∧ await mi = Returned result ∧
               x = (Then_body g result).2.
Proof.
  unfold result_of, run. simpl. split.
  - destruct (exec _ _ _) as [mi|]; simpl; [|done].
    destruct (await mi) as [|result] eqn:Hr; [done|]. intros [= <-]. by exists mi, result.
  - intros (mi & result & -> & Hr & ->). simpl. by rewrite Hr.
Qed.

(** Awaited on a context that stays live, the call is stuck only if
    [f.Await(ctx)] is. *)
Lemma Then_live_progress tr m :
  run (Then f ctx0 g) Await None tr = Some m → Forall live tr → await m = Waiting →
  (∀ mi, run f Await ctx0 (fn_events tr) = Some mi → await mi = Waiting →
         ∃ ev, is_Some (step f Await mi ev)) →
  ∃ ev, live ev ∧ is_Some (step (Then f ctx0 g) Await m ev).
Proof.
  intros Hrun Hlive Hw Hinner.
  destruct (Await_live_progress _ tr m Hrun Hlive Hw)
    as [?|[?|[?|(s & Hgo & Hnone & Hs)]]].
  - by exists GoSelect.
  - by exists GoReturn.
  - by exists RecvResult.
  - simpl in Hnone. destruct (await s) eqn:Hws; [|done].
    destruct (Hinner s Hs Hws) as (ev & s' & Hev).
    exists (GoFn (cf:=Then f ctx0 g) ev). split; [done|].
    unfold step, go_step. rewrite Hgo. simpl. rewrite Hws. simpl in *. by rewrite Hev.
Qed.
End Then_runs.

(** X6.  [Then(f, ctx, fn)] with a [ctx] that is already done, awaited on a
    context that is not cancelled: [f.Await(ctx)] returns the error of
    [ctx] without calling the function of [f], so [fn] is not called and
    a returned Result carries the error of [ctx] with the zero value of
    [U]; the call is never stuck and has at most six events. *)
Theorem Then_on_done_context {T U} `{!Zero T, !Zero U}
    (f : channelFuture T) (e : err) (g : T → U * error)
    (tr : list (event (Then f (Some e) g))) (m : machine (Then f (Some e) g)) :
  run (Then f (Some e) g) Await None tr = Some m → Forall live tr →
  (∀ mi, run f Await (Some e) (fn_events tr) = Some mi →
         (∀ s, go mi ≠ InFn s) ∧
         ∀ result, await mi = Returned result →
                   result = mkResult zero (Some e) ∧ (Then_body g result).1 = []) ∧
  (∀ r, await m = Returned r → r = mkResult zero (Some e)) ∧
  (await m = Waiting → ∃ ev, live ev ∧ is_Some (step (Then f (Some e) g) Await m ev)) ∧
  length tr ≤ 6.
Proof.
  intros Hrun Hlive.
  assert (∀ mi result, run f Await (Some e) (fn_events tr) = Some mi →
            await mi = Returned result → result = mkResult zero (Some e)) as Hinner.
  { intros mi result Hmi Hres.
    by destruct (done_context_returned f Await e _ mi result Hmi Hres) as [?|[? _]]. }
  split_and!.
  - intros mi Hmi. split.
    + intros s Hs.
      destruct (select_done f Await e (Async f (Some e)) _ mi eq_refl eq_refl eq_refl Hmi)
        as [_ [[? _]|[? _]]]; congruence.
    + intros result Hres. by rewrite (Hinner mi result Hmi Hres).
  - intros [value err] Hr.
    apply (Await_live_returned _ tr m _ Hrun Hlive) in Hr.
    apply Then_result_of in Hr as (mi & result & Hmi & Hres & Hx).
    rewrite (Hinner mi result Hmi Hres) in Hx. simpl in Hx. by simplify_eq.
  - intros Hw. apply (Then_live_progress f (Some e) g tr m Hrun Hlive Hw).
    intros mi Hmi Hwi.
    destruct (goroutine_enabled f Await (Some e) _ mi Hmi) as (Hsel & _ & Hrecv).
    destruct (select_done f Await e (Async f (Some e)) _ mi eq_refl eq_refl eq_refl Hmi)
      as [_ [[? _]|[? _]]]; eauto.
  - pose proof (Await_live_bound _ tr m Hrun Hlive) as Hlen.
    destruct (Await_live_fn _ tr m Hrun Hlive) as [mi Hmi].
    cut (length (fn_events tr) ≤ 3); [lia|].
    pose proof (call_bound f Await (Some e) (fn_events tr) mi Hmi) as Hlen'.
    destruct (Await_cancelled_scope f e (fn_events tr) mi Hmi) as (Hfn & _).
    rewrite Hfn in Hlen'. exact Hlen'.
Qed.

Lemma Then_on_done_context_witness :
  let f := New (ret 42 None) in
  let g := λ value : nat, (value + 1, None) in
  let cf := Then f (Some Canceled) g in
  let tr : list (event cf) :=
    [GoSelect; GoFn (cf:=cf) GoSelect; GoFn (cf:=cf) RecvResult; GoReturn; RecvResult] in
  ∃ m : machine cf,
    run cf Await None tr = Some m ∧ await m = Returned (mkResult 0 (Some Canceled)) ∧
    ((∀ mi, run f Await (Some Canceled) (fn_events tr) = Some mi →
            (∀ s, go mi ≠ InFn s) ∧
            ∀ result, await mi = Returned result →
                      result = mkResult zero (Some Canceled) ∧
                      (Then_body g result).1 = []) ∧
     (∀ r, await m = Returned r → r = mkResult zero (Some Canceled)) ∧
     (await m = Waiting → ∃ ev, live ev ∧ is_Some (step cf Await m ev)) ∧
     length tr ≤ 6).
Proof.
  intros f g cf tr. eexists. split; [reflexivity|]. split; [reflexivity|].
  apply (Then_on_done_context f Canceled g tr); [reflexivity|repeat constructor].
Defined.

(** X7.  [Then] after a function that succeeds, as in [ExampleFuture_Then]:
    for a function that returns [(v, nil)] whenever it returns and is
    never stuck before, wrapped by [New] and mapped by [Then] with [fn],
    awaited while no context is cancelled: a returned Result is what
    [fn(v)] returned, the call is never stuck, and it adds at most six
    events to those of the function. *)
Theorem Then_of_success {T U} `{!Zero T, !Zero U} (f : func T) (v : T)
    (g : T → U * error)
    (tr : list (event (Then (New f) None g))) (m : machine (Then (New f) None g)) :
  (∀ ftr x, result_of f ftr = Some x → x = (v, None)) →
  (∀ ftr s, exec (fstep f) (fstart f) ftr = Some s → freturn f s = None →
            ∃ ev, is_Some (fstep f s ev)) →
  run (Then (New f) None g) Await None tr = Some m → Forall then_live tr →
  (∀ r, await m = Returned r → r = mkResult (g v).1 (g v).2) ∧
  (await m = Waiting →
   ∃ ev, then_live ev ∧ is_Some (step (Then (New f) None g) Await m ev)) ∧
  length tr ≤ 6 + length (fn_events (cf:=New f) (fn_events tr)).
Proof.
  intros Hret Hprog Hrun Hok.
  assert (Forall live tr ∧ Forall (live (cf:=New f)) (fn_events tr)) as [Hlive Hin].
  { clear Hrun. induction Hok as [|ev tr Hev _ [IH1 IH2]]; [done|].
    split; [constructor; [by destruct ev|done]|].
    destruct ev; simpl; try done. by constructor. }
  split_and!.
  - intros [value err] Hr.
    apply (Await_live_returned _ tr m _ Hrun Hlive) in Hr.
    apply Then_result_of in Hr as (mi & result & Hmi & Hres & Hx).
    apply (Await_live_returned _ _ mi _ Hmi Hin) in Hres.
    apply Hret in Hres. destruct result as [v' e']. simpl in Hres. simplify_eq.
    unfold Then_body in Hx. simpl in Hx. destruct (g v). by simplify_eq.
  - intros Hw.
    destruct (Await_live_progress _ tr m Hrun Hlive Hw)
      as [?|[?|[?|(s & Hgo & Hnone & Hs)]]].
    + by exists GoSelect.
    + by exists GoReturn.
    + by exists RecvResult.
    + simpl in Hnone. destruct (await s) eqn:Hws; [|done].
      assert (∃ ev, live (cf:=New f) ev ∧ is_Some (step (New f) Await s ev))
        as (ev & Hev & s' & Hstep).
      { destruct (Await_live_progress (New f) _ s Hs Hin Hws)
          as [?|[?|[?|(si & Hgoi & Hnonei & Hsi)]]].
        - by exists GoSelect.
        - by exists GoReturn.
        - by exists RecvResult.
        - destruct (Hprog _ _ Hsi Hnonei) as [ev [s' Hev]].
          exists (GoFn (cf:=New f) ev). split; [done|].
          unfold step, go_step. rewrite Hgoi. simpl in *. rewrite Hnonei, Hev. by simpl. }
      exists (GoFn (cf:=Then (New f) None g) ev). split; [done|].
      unfold step, go_step. rewrite Hgo. simpl. rewrite Hws. simpl in *. by rewrite Hstep.
  - pose proof (Await_live_bound _ tr m Hrun Hlive) as Hlen.
    destruct (Await_live_fn _ tr m Hrun Hlive) as [mi Hmi].
    pose proof (Await_live_bound (New f) _ mi Hmi Hin) as Hlen'.
    cut (length (fn_events tr) ≤ 3 + length (fn_events (cf:=New f) (fn_events tr)));
      [lia|]. exact Hlen'.
Qed.

(** [ExampleFuture_Then] *)
Lemma Then_of_success_witness :
  let g := λ value : nat,
             (if decide (value = 42) then "value is 42" else "value", None) in
  let cf := Then (New (ret 42 None)) None g in
  let tr : list (event cf) :=
    [GoSelect; GoFn (cf:=cf) GoSelect; GoFn (cf:=cf) GoReturn;
     GoFn (cf:=cf) RecvResult; GoReturn; RecvResult] in
  ∃ m : machine cf,
    run cf Await None tr = Some m ∧
    await m = Returned (mkResult "value is 42" None) ∧
    ((∀ r, await m = Returned r → r = mkResult (g 42).1 (g 42).2) ∧
     (await m = Waiting → ∃ ev, then_live ev ∧ is_Some (step cf Await m ev)) ∧
     length tr ≤ 6 + length (fn_events (cf:=New (ret 42 None)) (fn_events tr))).
Proof.
  intros g cf tr.
  assert (Forall (then_live (f:=New (ret 42 None)) (ctx:=None) (fn:=g)) tr) as Hok.
  { subst tr. repeat (constructor; [simpl; done|]). constructor. }
  destruct (run cf Await None tr) as [m|] eqn:Hrun;
    [|vm_compute in Hrun; discriminate Hrun].
  pose proof Hrun as Hm. vm_compute in Hm. injection Hm as Hm.
  exists m. split; [reflexivity|]. split; [by rewrite <-Hm|].
  apply (Then_of_success (ret 42 None) 42 g tr m); [| |exact Hrun|exact Hok].
  - intros [|[]] x; cbv; congruence.
  - intros ftr s _; simpl; congruence.
Defined.

(** ** The workers of AllOf *)

Section allOf_workers.
Context {T : Type} `{!Zero T} (n : nat) (ctx0 : Ctx).
Implicit Types (m : allOf.machine T) (tr : list (allOf.event T)).

(** Once the function literal has returned, [resultCh] is closed. *)
Lemma allOf_closed tr m values err :
  exec (allOf.step n) (allOf.start ctx0 n) tr = Some m →
  allOf.main m = allOf.Finished values err → allOf.panicked m = false →
  chan.closed (allOf.resultCh m) = true.
Proof.
  intros Hexec. revert values err. revert tr m Hexec.
  apply (exec_ind (allOf.step n) (allOf.start ctx0 n)
    (λ tr m, ∀ values err, allOf.main m = allOf.Finished values err →
                           allOf.panicked m = false →
                           chan.closed (allOf.resultCh m) = true)); [done|].
  intros tr m ev m' Hexec IH Hstep.
  pose proof Hstep as [Hp Hinv]%allOf_step_inv.
  destruct ev as [e|j|j r|j|j|]; simpl in Hinv.
  - destruct Hinv as (_ & ->). simpl. eauto.
  - destruct Hinv as (_ & ->). simpl. eauto.
  - destruct Hinv as (? & ? & _ & _ & _ & ->). simpl. eauto.
  - destruct Hinv as (? & ? & ? & ? & _ & _ & _ & [(Hcl & _ & ->)|(_ & ->)]); simpl;
      [|done]. intros values err Hmain _. rewrite (IH _ _ Hmain Hp) in Hcl. done.
  - destruct Hinv as (_ & _ & ->). simpl. eauto.
  - destruct Hinv as (k & vs & Hmain & _).
    pose proof (allOf_open _ _ _ _ _ _ Hexec Hmain) as Hopen.
    eapply allOf_collect_inv in Hstep; [|exact Hmain|exact Hopen].
    destruct Hstep
      as [(_ & ->)|(_ & x & q & _ & [(e & _ & ->)|[(_ & _ & ->)|(_ & _ & ->)]])];
      simpl; rewrite ?Hmain; done.
Qed.

(** The channel has room for the result of every worker that has not
    sent yet. *)
Lemma allOf_room tr m k vs i :
  exec (allOf.step n) (allOf.start ctx0 n) tr = Some m →
  allOf.main m = allOf.Collecting k vs →
  allOf.workers m !! i = Some allOf.Selecting →
  k + length (chan.buf (allOf.resultCh m)) < n.
Proof.
  intros Hexec Hmain Hi. pose proof (allOf_collector _ _ _ _ Hexec) as Hcol.
  rewrite Hmain in Hcol. destruct Hcol as (_ & _ & C & Hnd & <- & HC).
  destruct (allOf_sizes _ _ _ _ Hexec) as (Hlw & _).
  rewrite <-(length_fmap allOf.index), <-length_app.
  cut (length (i :: C ++ (allOf.index <$> chan.buf (allOf.resultCh m))) ≤ n);
    [simpl; lia|].
  assert (∀ j, j ∈ C ++ (allOf.index <$> chan.buf (allOf.resultCh m)) →
               allOf.workers m !! j = Some allOf.Gone) as Hgone.
  { intros j [Hj|Hj]%elem_of_app.
    - by destruct (HC j Hj).
    - apply list_elem_of_fmap in Hj as (x & -> & Hx).
      by destruct (allOf_sent _ _ _ _ x Hexec Hx). }
  apply NoDup_bound.
  - apply NoDup_cons. split; [|done]. intros Hin. apply Hgone in Hin. congruence.
  - intros j [->|Hj]%elem_of_cons.
    + apply lookup_lt_Some in Hi. lia.
    + apply Hgone, lookup_lt_Some in Hj. lia.
Qed.

(** While no future has delivered a failure, nothing panics, and the
    function literal returns only when every worker has sent. *)
Lemma allOf_no_failure_shape tr m :
  exec (allOf.step n) (allOf.start ctx0 n) tr = Some m →
  Forall allOf_no_failure tr →
  allOf.panicked m = false ∧
  ∀ values err, allOf.main m = allOf.Finished values err →
                err = None ∧ ∀ i, i < n → allOf.workers m !! i = Some allOf.Gone.
Proof.
  revert tr m. apply (exec_ind (allOf.step n) (allOf.start ctx0 n)
    (λ tr m, Forall allOf_no_failure tr → _)); [done|].
  intros tr m ev m' Hexec IH Hstep [Hok Hev%Forall_inv]%Forall_app.
  destruct (IH Hok) as [Hp Hfin]; clear IH.
  destruct (allOf_sizes _ _ _ _ Hexec) as (Hlw & _).
  assert (∀ j w, allOf.workers m !! j = Some w → w ≠ allOf.Gone →
                 ∀ values err, allOf.main m ≠ allOf.Finished values err) as Hbusy.
  { intros j w Hj Hw values err Hmain. destruct (Hfin _ _ Hmain) as [_ Hg].
    rewrite Hg in Hj by (apply lookup_lt_Some in Hj; lia). congruence. }
  pose proof Hstep as [_ Hinv]%allOf_step_inv.
  destruct ev as [e|j|j r|j|j|]; simpl in Hinv.
  - destruct Hinv as (_ & ->). simpl. split; [done|]. apply Hfin.
  - destruct Hinv as (Hj & ->). simpl. split; [done|]. intros values err Hmain.
    by destruct (Hbusy _ _ Hj ltac:(done) values err).
  - destruct Hinv as (? & ? & _ & _ & _ & ->). simpl. split; [done|]. apply Hfin.
  - destruct Hinv as (? & ? & ? & ? & Hj & _ & _ & Hm').
    destruct (allOf.main m) as [k vs|values err] eqn:Hmain;
      [|by destruct (Hbusy _ _ Hj ltac:(done) values err)].
    pose proof (allOf_open _ _ _ _ _ _ Hexec Hmain) as Hopen.
    destruct Hm' as [(_ & _ & ->)|(? & _)]; [|congruence]. by simpl.
  - destruct Hinv as (Hj & _ & ->). simpl. split; [done|]. intros values err Hmain.
    by destruct (Hbusy _ _ Hj ltac:(done) values err).
  - destruct Hinv as (k & vs & Hmain & _).
    pose proof (allOf_open _ _ _ _ _ _ Hexec Hmain) as Hopen.
    pose proof (allOf_collector _ _ _ _ Hexec) as Hcol. rewrite Hmain in Hcol.
    destruct Hcol as (_ & Hlen & C & Hnd & HC & Hin).
    eapply allOf_collect_inv in Hstep; [|exact Hmain|exact Hopen].
    destruct Hstep
      as [(Hk & ->)|(_ & x & q & Hq & [(e & He & ->)|[(_ & _ & ->)|(_ & Hx & ->)]])];
      simpl.
    + split; [done|]. intros ? ? [= <- <-]. split; [done|]. intros i Hi.
      apply Hin. apply (NoDup_all n); [by apply NoDup_app in Hnd as (? & _)| |lia|done].
      intros j [Hg _]%Hin. apply lookup_lt_Some in Hg. lia.
    + destruct (allOf_sent _ _ _ _ x Hexec) as [Hd _]; [rewrite Hq; by left|].
      rewrite Forall_forall in Hok. apply Hok in Hd. simpl in Hd. congruence.
    + done.
    + destruct (allOf_sent _ _ _ _ x Hexec) as [_ Hg]; [rewrite Hq; by left|].
      apply lookup_lt_Some in Hg. lia.
Qed.
End allOf_workers.

(** X8.  The buffer of [resultCh] has room for every worker: in any run of
    the function literal of [AllOf], while it is in its loop a worker in
    its [select] finds fewer than [len(futures)] results collected or
    buffered, so once its future has delivered it can take the result and
    send it without blocking and without a panic. *)
Theorem AllOf_send_never_blocks {T} `{!Zero T} (n : nat) (ctx0 : Ctx)
    (tr : list (allOf.event T)) (m : allOf.machine T) (k i : nat) (vs : list T) :
  exec (allOf.step n) (allOf.start ctx0 n) tr = Some m →
  allOf.main m = allOf.Collecting k vs →
  allOf.workers m !! i = Some allOf.Selecting →
  k + length (chan.buf (allOf.resultCh m)) < n ∧
  ∀ r, Future.rCh (allOf.asyncs m) i = Some (chan.mk [r] 1 true) →
       ∃ m', allOf.step n m (allOf.TakeResult i) = Some m' ∧
             allOf.panicked m' = false ∧
             chan.buf (allOf.resultCh m') =
               chan.buf (allOf.resultCh m) ++ [allOf.Indexed i r] ∧
             allOf.workers m' !! i = Some allOf.Gone.
Proof.
  intros Hexec Hmain Hi.
  pose proof (allOf_room n ctx0 tr m k vs i Hexec Hmain Hi) as Hroom.
  split; [done|]. intros r Hr.
  pose proof (allOf_open _ _ _ _ _ _ Hexec Hmain) as Hopen.
  pose proof (allOf_collector _ _ _ _ Hexec) as Hcol. rewrite Hmain in Hcol.
  destruct Hcol as (Hp & _).
  destruct (allOf_sizes _ _ _ _ Hexec) as (_ & _ & Hcap).
  apply rCh_lookup in Hr as [fctx Hr].
  eexists. split.
  - unfold allOf.step. rewrite Hp. simpl. rewrite Hi, Hr.
    unfold chan.recv, chan.send. simpl. rewrite Hopen.
    rewrite bool_decide_eq_true_2 by lia. reflexivity.
  - simpl. split_and!; try done. apply list_lookup_insert_eq. by eapply lookup_lt_Some.
Qed.

Lemma AllOf_send_never_blocks_witness :
  let tr := [allOf.Dispatch 0; allOf.Dispatch 1; allOf.Deliver 1 (mkResult 7 None);
             allOf.TakeResult 1; allOf.Deliver 0 (mkResult 5 None)] in
  ∃ m : allOf.machine nat,
    exec (allOf.step 2) (allOf.start None 2) tr = Some m ∧
    (0 + length (chan.buf (allOf.resultCh m)) < 2 ∧
     ∀ r, Future.rCh (allOf.asyncs m) 0 = Some (chan.mk [r] 1 true) →
          ∃ m', allOf.step 2 m (allOf.TakeResult 0) = Some m' ∧
                allOf.panicked m' = false ∧
                chan.buf (allOf.resultCh m') =
                  chan.buf (allOf.resultCh m) ++ [allOf.Indexed 0 r] ∧
                allOf.workers m' !! 0 = Some allOf.Gone).
Proof.
  intros tr.
  destruct (exec (allOf.step 2) (allOf.start None 2) tr) as [m|] eqn:Hexec;
    [|vm_compute in Hexec; discriminate Hexec].
  pose proof Hexec as Hm. vm_compute in Hm. injection Hm as Hm.
  exists m. split; [reflexivity|].
  apply (AllOf_send_never_blocks 2 None tr m 0 0 [0; 0] Hexec); by rewrite <-Hm.
Defined.

(** X9.  While no future delivers a failure, no goroutine of [AllOf] panics,
    whether its context is cancelled or not; and the function literal
    returns only with a [nil] error and after every worker has returned. *)
Theorem AllOf_no_failure_no_panic {T} `{!Zero T} (n : nat) (ctx0 : Ctx)
    (tr : list (allOf.event T)) (m : allOf.machine T) :
  exec (allOf.step n) (allOf.start ctx0 n) tr = Some m →
  Forall allOf_no_failure tr →
  allOf.panicked m = false ∧
  ∀ values err, allOf.returned m = Some (values, err) →
                err = None ∧ ∀ i, i < n → allOf.workers m !! i = Some allOf.Gone.
Proof.
  intros Hexec Hok. destruct (allOf_no_failure_shape n ctx0 tr m Hexec Hok) as [Hp Hfin].
  split; [done|]. intros values err Hret. unfold allOf.returned in Hret.
  destruct (allOf.main m) as [|vs e] eqn:Hmain; [done|]. simplify_eq. by eapply Hfin.
Qed.

Lemma AllOf_no_failure_no_panic_witness :
  let tr := [allOf.Dispatch 0; allOf.Dispatch 1; allOf.Deliver 1 (mkResult 7 None);
             allOf.TakeResult 1; allOf.Deliver 0 (mkResult 5 None);
             allOf.TakeResult 0; allOf.Collect; allOf.Collect; allOf.Collect] in
  ∃ m : allOf.machine nat,
    exec (allOf.step 2) (allOf.start None 2) tr = Some m ∧
    allOf.returned m = Some ([5; 7], None) ∧
    (allOf.panicked m = false ∧
     ∀ values err, allOf.returned m = Some (values, err) →
                   err = None ∧ ∀ i, i < 2 → allOf.workers m !! i = Some allOf.Gone).
Proof.
  intros tr.
  assert (Forall allOf_no_failure tr) as Hok.
  { subst tr. repeat (constructor; [simpl; done|]). constructor. }
  destruct (exec (allOf.step 2) (allOf.start None 2) tr) as [m|] eqn:Hexec;
    [|vm_compute in Hexec; discriminate Hexec].
  pose proof Hexec as Hm. vm_compute in Hm. injection Hm as Hm.
  exists m. split; [reflexivity|]. split; [by rewrite <-Hm|].
  exact (AllOf_no_failure_no_panic 2 None tr m Hexec Hok).
Defined.

(** X10.  A worker of [AllOf] that takes the result of its future after the
    function literal has returned sends on the closed [resultCh]: the
    send panics, and nothing runs after it. *)
Theorem AllOf_late_send_panics {T} `{!Zero T} (n : nat) (ctx0 : Ctx)
    (tr : list (allOf.event T)) (m : allOf.machine T) (i : nat) (r : Result T)
    (values : list T) (err : error) :
  exec (allOf.step n) (allOf.start ctx0 n) tr = Some m →
  allOf.returned m = Some (values, err) → allOf.panicked m = false →
  allOf.workers m !! i = Some allOf.Selecting →
  Future.rCh (allOf.asyncs m) i = Some (chan.mk [r] 1 true) →
  chan.send (allOf.resultCh m) (allOf.Indexed i r) = chan.Panics ∧
  ∃ m', allOf.step n m (allOf.TakeResult i) = Some m' ∧
        allOf.panicked m' = true ∧ ∀ ev, allOf.step n m' ev = None.
Proof.
  intros Hexec Hret Hp Hi Hr. unfold allOf.returned in Hret.
  destruct (allOf.main m) as [|vs e] eqn:Hmain; [done|].
  pose proof (allOf_closed n ctx0 tr m vs e Hexec Hmain Hp) as Hcl.
  apply rCh_lookup in Hr as [fctx Hr].
  assert (chan.send (allOf.resultCh m) (allOf.Indexed i r) = chan.Panics) as Hsend
    by by apply send_Panics.
  split; [done|]. eexists. split.
  - unfold allOf.step. rewrite Hp. simpl. rewrite Hi, Hr.
    unfold chan.recv. simpl. rewrite Hsend. reflexivity.
  - split; [done|]. intros ev. by unfold allOf.step.
Qed.

(** [Test_Future_AllOf_Error], with the failing future first and the
    good one delivering after the return. *)
Lemma AllOf_late_send_panics_witness :
  let failed := mkResult 0 (Some (Failure "something went wrong")) in
  let tr := [allOf.Dispatch 0; allOf.Dispatch 1; allOf.Deliver 1 failed;
             allOf.TakeResult 1; allOf.Collect; allOf.Deliver 0 (mkResult 1 None)] in
  ∃ m : allOf.machine nat,
    exec (allOf.step 2) (allOf.start None 2) tr = Some m ∧
    (chan.send (allOf.resultCh m) (allOf.Indexed 0 (mkResult 1 None)) = chan.Panics ∧
     ∃ m', allOf.step 2 m (allOf.TakeResult 0) = Some m' ∧
           allOf.panicked m' = true ∧ ∀ ev, allOf.step 2 m' ev = None).
Proof.
  intros failed tr.
  destruct (exec (allOf.step 2) (allOf.start None 2) tr) as [m|] eqn:Hexec;
    [|vm_compute in Hexec; discriminate Hexec].
  pose proof Hexec as Hm. vm_compute in Hm. injection Hm as Hm.
  exists m. split; [reflexivity|].
  apply (AllOf_late_send_panics 2 None tr m 0 (mkResult 1 None) []
           (Some (Failure "something went wrong")) Hexec); by rewrite <-Hm.
Defined.

(** X11.  When the function literal of [AllOf] has returned, with values or
    with an error, its deferred calls have run: [resultCh] is closed, and
    the derived context is done, and with it the context of every future
    on which [Async] was called. *)
Theorem AllOf_return_releases {T} `{!Zero T} (n : nat) (ctx0 : Ctx)
    (tr : list (allOf.event T)) (m : allOf.machine T) (values : list T) (err : error) :
  exec (allOf.step n) (allOf.start ctx0 n) tr = Some m →
  allOf.returned m = Some (values, err) →
  Done (allOf.ctx m) = true ∧
  (∀ i c, Future.ctx (allOf.asyncs m) i = Some c → Done c = true) ∧
  (allOf.panicked m = false → chan.closed (allOf.resultCh m) = true).
Proof.
  intros Hexec Hret. unfold allOf.returned in Hret.
  destruct (allOf.main m) as [|vs e] eqn:Hmain; [done|].
  pose proof (allOf_collector _ _ _ _ Hexec) as Hcol. rewrite Hmain in Hcol.
  destruct Hcol as [Hd _]. split_and!; [done| |].
  - intros i c. by apply (allOf_cancelled _ _ _ _ _ _ Hexec).
  - by apply (allOf_closed n ctx0 tr m vs e).
Qed.

(** [Test_Future_AllOf_Ordered] with two futures: the function literal
    returns with success, and the contexts are done all the same. *)
Lemma AllOf_return_releases_witness :
  let tr := [allOf.Dispatch 0; allOf.Dispatch 1; allOf.Deliver 1 (mkResult 2 None);
             allOf.TakeResult 1; allOf.Deliver 0 (mkResult 1 None);
             allOf.TakeResult 0; allOf.Collect; allOf.Collect; allOf.Collect] in
  ∃ m : allOf.machine nat,
    exec (allOf.step 2) (allOf.start None 2) tr = Some m ∧
    allOf.returned m = Some ([1; 2], None) ∧
    (Done (allOf.ctx m) = true ∧
     (∀ i c, Future.ctx (allOf.asyncs m) i = Some c → Done c = true) ∧
     (allOf.panicked m = false → chan.closed (allOf.resultCh m) = true)).
Proof.
  intros tr.
  destruct (exec (allOf.step 2) (allOf.start None 2) tr) as [m|] eqn:Hexec;
    [|vm_compute in Hexec; discriminate Hexec].
  pose proof Hexec as Hm. vm_compute in Hm. injection Hm as Hm.
  exists m. split; [reflexivity|]. split; [by rewrite <-Hm|].
  apply (AllOf_return_releases 2 None tr m [1; 2] None Hexec). by rewrite <-Hm.
Defined.

(** ** The workers of AnyOf *)

Section anyOf_workers.
Context {T : Type} `{!Zero T} (n : nat) (ctx0 : Ctx).
Implicit Types (m : anyOf.machine T) (tr : list (anyOf.event T)).

(** When every worker has returned while the function literal still
    waits, it waits forever: no worker is left to send. *)
Lemma anyOf_nobody_left m tr' m' :
  anyOf.main m = anyOf.Waiting →
  (∀ i w, anyOf.workers m !! i = Some w → w = anyOf.Gone) →
  exec anyOf.step m tr' = Some m' →
  anyOf.main m' = anyOf.Waiting ∧
  ∀ i w, anyOf.workers m' !! i = Some w → w = anyOf.Gone.
Proof.
  intros Hmain Hgone Hexec.
  eapply (exec_preserves anyOf.step (λ m, anyOf.main m = anyOf.Waiting ∧
    ∀ i w, anyOf.workers m !! i = Some w → w = anyOf.Gone)); [|by eauto|exact Hexec].
  clear. intros m ev m' [Hmain Hgone] Hstep. apply anyOf_step_inv in Hstep.
  destruct ev as [e|j|j r|j|j|j|j|]; simpl in Hstep.
  - by destruct Hstep as (_ & ->).
  - destruct Hstep as (Hj & _). by apply Hgone in Hj.
  - by destruct Hstep as (? & ? & _ & _ & _ & ->).
  - destruct Hstep as (? & ? & ? & ? & Hj & _). by apply Hgone in Hj.
  - destruct Hstep as (? & Hj & _). by apply Hgone in Hj.
  - destruct Hstep as (Hj & _). by apply Hgone in Hj.
  - destruct Hstep as (? & Hj & _). by apply Hgone in Hj.
  - destruct Hstep as (? & Hr & _). congruence.
Qed.
End anyOf_workers.

(** X13.  [AnyOf] of no futures never returns: awaited on a context that is
    not cancelled, the call waits in every run, because the function
    literal receives from a channel on which nobody sends. *)
Theorem AnyOf_no_futures_blocks {T} `{!Zero T} (ctx0 : Ctx)
    (tr : list (event (AnyOf (T:=T) ctx0 0))) (m : machine (AnyOf (T:=T) ctx0 0)) :
  run (AnyOf ctx0 0) Await None tr = Some m → Forall live tr →
  await m = Waiting ∧
  ∀ s, exec anyOf.step (anyOf.start (T:=T) ctx0 0) (fn_events tr) = Some s →
       anyOf.returned s = None ∧ anyOf.step s anyOf.Return = None ∧
       ∀ i, anyOf.step s (anyOf.Send i) = None.
Proof.
  intros Hrun Hlive.
  assert (∀ s, exec anyOf.step (anyOf.start (T:=T) ctx0 0) (fn_events tr) = Some s →
               anyOf.main s = anyOf.Waiting ∧ anyOf.workers s = []) as Hinner.
  { intros s Hs.
    destruct (anyOf_nobody_left (anyOf.start ctx0 0) (fn_events tr) s eq_refl)
      as [Hmain Hw]; [done|exact Hs|].
    split; [done|]. destruct (anyOf_sizes _ _ _ _ Hs) as [Hlw _].
    by destruct (anyOf.workers s). }
  split.
  - destruct (await m) as [|[value err]] eqn:Hr; [done|].
    apply (Await_live_returned _ tr m _ Hrun Hlive) in Hr.
    unfold result_of in Hr. simpl in Hr.
    destruct (exec anyOf.step _ (fn_events tr)) as [s|] eqn:Hs; [|done]. simpl in Hr.
    destruct (Hinner s eq_refl) as [Hmain _]. unfold anyOf.returned in Hr.
    by rewrite Hmain in Hr.
  - intros s Hs. destruct (Hinner s Hs) as [Hmain Hw]. unfold anyOf.returned.
    simpl. rewrite Hmain, Hw. done.
Qed.

Lemma AnyOf_no_futures_blocks_witness :
  let cf := AnyOf (T:=nat) None 0 in
  let tr : list (event cf) :=
    [GoSelect; GoFn (cf:=cf) (anyOf.ScopeCancelled Canceled)] in
  ∃ m : machine cf,
    run cf Await None tr = Some m ∧
    (await m = Waiting ∧
     ∀ s, exec anyOf.step (anyOf.start (T:=nat) None 0) (fn_events tr) = Some s →
          anyOf.returned s = None ∧ anyOf.step s anyOf.Return = None ∧
          ∀ i, anyOf.step s (anyOf.Send i) = None).
Proof.
  intros cf tr. eexists. split; [reflexivity|].
  apply (AnyOf_no_futures_blocks None tr); [reflexivity|repeat constructor].
Defined.

(** X14.  The workers of [AnyOf] can all leave through [case <-ctx.Done()]
    without a send: in a state of any run in which the function literal
    still waits and every worker has returned, the literal never
    returns, whatever happens afterwards. *)
Theorem AnyOf_all_workers_gone_blocks {T} `{!Zero T} (n : nat) (ctx0 : Ctx)
    (tr tr' : list (anyOf.event T)) (m m' : anyOf.machine T) :
  exec anyOf.step (anyOf.start ctx0 n) tr = Some m →
  anyOf.main m = anyOf.Waiting →
  (∀ i, i < n → anyOf.workers m !! i = Some anyOf.Gone) →
  exec anyOf.step m tr' = Some m' →
  anyOf.returned m' = None ∧ anyOf.step m' anyOf.Return = None ∧
  ∀ i, anyOf.step m' (anyOf.Send i) = None.
Proof.
  intros Hexec Hmain Hgone Hexec'.
  destruct (anyOf_sizes _ _ _ _ Hexec) as [Hlw _].
  destruct (anyOf_nobody_left m tr' m' Hmain) as [Hmain' Hgone']; [|done|].
  { intros i w Hi. rewrite Hgone in Hi by (apply lookup_lt_Some in Hi; lia).
    congruence. }
  unfold anyOf.returned. simpl. rewrite Hmain'. split_and!; try done.
  intros i. destruct (anyOf.workers m' !! i) as [w|] eqn:Hi; [|done].
  by rewrite (Hgone' _ _ Hi).
Qed.

(** [Test_Future_AnyOf_ctxDone] with one future, when the function
    literal is running: the worker leaves through [ctx.Done()]. *)
Lemma AnyOf_all_workers_gone_blocks_witness :
  let tr := [anyOf.Dispatch 0; anyOf.ScopeCancelled Canceled;
             anyOf.Deliver 0 (mkResult 0 (Some Canceled)); anyOf.Receive 0;
             anyOf.TakeDone 0] in
  ∃ m : anyOf.machine nat,
    exec anyOf.step (anyOf.start None 1) tr = Some m ∧
    (anyOf.returned m = None ∧ anyOf.step m anyOf.Return = None ∧
     ∀ i, anyOf.step m (anyOf.Send i) = None).
Proof.
  intros tr.
  destruct (exec anyOf.step (anyOf.start None 1) tr) as [m|] eqn:Hexec;
    [|vm_compute in Hexec; discriminate Hexec].
  pose proof Hexec as Hm. vm_compute in Hm. injection Hm as Hm.
  exists m. split; [reflexivity|].
  apply (AnyOf_all_workers_gone_blocks 1 None tr [] m m Hexec).
  - by rewrite <-Hm.
  - intros [|i] Hi; [by rewrite <-Hm|lia].
  - reflexivity.
Defined.

(** X15.  After the function literal of [AnyOf] has returned, its deferred
    [cancel] has made the derived context and the context of every
    future done, and no worker is held in its [select]: one that offers
    a Result cannot send any more and can leave through
    [case <-ctx.Done()], one that has sent can call [cancel], one that
    has not started can call [Async], and one that waits for its future
    can receive as soon as the future has delivered. *)
Theorem AnyOf_return_releases {T} `{!Zero T} (n : nat) (ctx0 : Ctx)
    (tr : list (anyOf.event T)) (m : anyOf.machine T) (value : T) (err : error) :
  exec anyOf.step (anyOf.start ctx0 n) tr = Some m →
  anyOf.returned m = Some (value, err) →
  Done (anyOf.ctx m) = true ∧
  (∀ i c, Future.ctx (anyOf.asyncs m) i = Some c → Done c = true) ∧
  ∀ i w, anyOf.workers m !! i = Some w →
    match w with
    | anyOf.Spawned => is_Some (anyOf.step m (anyOf.Dispatch i))
    | anyOf.Receiving =>
        (∀ r, is_Some (anyOf.step m (anyOf.Deliver i r))) ∨
        is_Some (anyOf.step m (anyOf.Receive i))
    | anyOf.Offering _ =>
        is_Some (anyOf.step m (anyOf.TakeDone i)) ∧ anyOf.step m (anyOf.Send i) = None
    | anyOf.Sent => is_Some (anyOf.step m (anyOf.Cancel i))
    | anyOf.Gone => True
    end.
Proof.
  intros Hexec Hret. unfold anyOf.returned in Hret.
  destruct (anyOf.main m) as [| |v e] eqn:Hmain; try done.
  pose proof (anyOf_collector _ _ _ _ Hexec) as Hcol. rewrite Hmain in Hcol.
  destruct Hcol as (_ & _ & _ & _ & _ & _ & Hd). split_and!; [done| |].
  - intros i c. by apply (anyOf_cancelled _ _ _ _ _ _ Hexec).
  - intros i w Hi. destruct w as [| |r| |]; simpl; rewrite ?Hi, ?Hmain, ?Hd; try done.
    destruct (anyOf_receiving _ _ _ _ _ Hexec Hi) as [Hch|[r Hch]];
      apply rCh_lookup in Hch as [fctx Hch]; rewrite Hch; [left|right].
    + intros r. simpl. by unfold Future.deliver, chan.send, chan.close.
    + by unfold chan.recv.
Qed.

(** [Test_Future_AnyOf_Fastest_should_returned] with two futures: the
    slower future has delivered when the function literal returns. *)
Lemma AnyOf_return_releases_witness :
  let tr := [anyOf.Dispatch 0; anyOf.Dispatch 1;
             anyOf.Deliver 1 (mkResult "fastest" None); anyOf.Receive 1;
             anyOf.Deliver 0 (mkResult "latest" None); anyOf.Receive 0;
             anyOf.Send 1; anyOf.Return] in
  ∃ m : anyOf.machine string,
    exec anyOf.step (anyOf.start None 2) tr = Some m ∧
    anyOf.returned m = Some ("fastest", None) ∧
    anyOf.workers m !! 0 = Some (anyOf.Offering (mkResult "latest" None)) ∧
    (Done (anyOf.ctx m) = true ∧
     (∀ i c, Future.ctx (anyOf.asyncs m) i = Some c → Done c = true) ∧
     ∀ i w, anyOf.workers m !! i = Some w →
       match w with
       | anyOf.Spawned => is_Some (anyOf.step m (anyOf.Dispatch i))
       | anyOf.Receiving =>
           (∀ r, is_Some (anyOf.step m (anyOf.Deliver i r))) ∨
           is_Some (anyOf.step m (anyOf.Receive i))
       | anyOf.Offering _ =>
           is_Some (anyOf.step m (anyOf.TakeDone i)) ∧
           anyOf.step m (anyOf.Send i) = None
       | anyOf.Sent => is_Some (anyOf.step m (anyOf.Cancel i))
       | anyOf.Gone => True
       end).
Proof.
  intros tr.
  destruct (exec anyOf.step (anyOf.start None 2) tr) as [m|] eqn:Hexec;
    [|vm_compute in Hexec; discriminate Hexec].
  pose proof Hexec as Hm. vm_compute in Hm. injection Hm as Hm.
  exists m. split; [reflexivity|]. split; [by rewrite <-Hm|]. split; [by rewrite <-Hm|].
  apply (AnyOf_return_releases 2 None tr m "fastest" None Hexec). by rewrite <-Hm.
Defined.

(** ** AllOf without cancellation *)

Section allOf_uncancelled.
Context {T : Type} `{!Zero T} (n : nat).
Implicit Types (m : allOf.machine T) (tr : list (allOf.event T)).

(** While nothing is cancelled from outside, the derived context stays
    live until the function literal returns, and every worker that has
    returned has sent: the results collected and those in [resultCh] are
    as many as the workers that are gone. *)
Lemma allOf_counting tr m k vs :
  exec (allOf.step n) (allOf.start None n) tr = Some m →
  Forall allOf_uncancelled tr →
  allOf.main m = allOf.Collecting k vs →
  allOf.ctx m = None ∧
  k + length (chan.buf (allOf.resultCh m)) =
  length (filter (λ w, w = allOf.Gone) (allOf.workers m)).
Proof.
  intros Hexec. revert k vs. revert tr m Hexec.
  apply (exec_ind (allOf.step n) (allOf.start None n)
           (λ tr m, ∀ k vs, Forall _ tr → _ → _)).
  { simpl. intros k vs _ [= <- <-]. split; [done|]. simpl.
    induction n as [|n' IH]; simpl; [done|]. rewrite filter_cons.
    by case_decide. }
  intros tr m ev m' Hexec IH Hstep k vs [Hok Hev%Forall_inv]%Forall_app Hmain'.
  specialize (λ k vs, IH k vs Hok).
  assert (ev = allOf.Collect ∨ ev ≠ allOf.Collect) as [->|Hne]
    by (destruct ev; [right..|left]; done).
  { pose proof Hstep as [_ (k0 & vs0 & Hmain & _)]%allOf_step_inv.
    pose proof (allOf_open _ _ _ _ _ _ Hexec Hmain) as Hopen.
    destruct (IH _ _ Hmain) as [Hctx Hcount].
    eapply allOf_collect_inv in Hstep; [|exact Hmain|exact Hopen].
    destruct Hstep
      as [(_ & ->)|(_ & x & q & Hq & [(e & _ & ->)|[(_ & _ & ->)|(_ & Hx & ->)]])];
      simpl in *; try done.
    - simplify_eq. split; [done|]. rewrite Hq in Hcount. simpl in *. lia.
    - pose proof (allOf_collector _ _ _ _ Hexec) as Hcol. rewrite Hmain in Hcol.
      destruct Hcol as (_ & Hlen & _).
      destruct (allOf_sent _ _ _ _ x Hexec) as [_ Hg]; [rewrite Hq; by left|].
      apply lookup_lt_Some in Hg.
      destruct (allOf_sizes _ _ _ _ Hexec) as (Hlw & _). lia. }
  apply allOf_step_inv in Hstep as [_ Hstep].
  destruct ev as [e|j|j r|j|j|]; simpl in Hstep, Hev; try done.
  - destruct Hstep as (Hj & ->); simpl in *. destruct (IH _ _ Hmain') as [? Hc].
    split; [done|]. rewrite Hc.
    pose proof (filter_insert_length (λ w, w = allOf.Gone) _ _ _ allOf.Selecting Hj) as Hf.
    repeat case_decide; try done. lia.
  - destruct Hstep as (? & ? & _ & _ & _ & ->); simpl in *. by eapply IH.
  - destruct Hstep as (? & ? & res & ? & Hj & _ & _ & [(_ & _ & ->)|(_ & ->)]);
      simpl in *.
    + destruct (IH _ _ Hmain') as [? Hc]. split; [done|].
      rewrite length_app. simpl.
      pose proof (filter_insert_length (λ w, w = allOf.Gone) _ _ _ allOf.Gone Hj) as Hf.
      repeat case_decide; try done. lia.
    + by eapply IH.
  - destruct Hstep as (Hj & Hd & ->); simpl in *.
    destruct (IH _ _ Hmain') as [Hc _]. by rewrite Hc in Hd.
Qed.
End allOf_uncancelled.

(** X12.  [AllOf] whose context is not cancelled from outside is never stuck,
    whatever its futures deliver, failures included: in any run of the
    function literal, until it returns nothing has panicked, the derived
    context is not done, every worker that has returned has sent, and an
    event other than a cancellation is enabled: a turn of the loop, a
    worker's step, or the delivery of a future that a worker waits for.
    A run has at most [5 * len(futures) + 3] events. *)
Theorem AllOf_never_stuck_uncancelled {T} `{!Zero T} (n : nat)
    (tr : list (allOf.event T)) (m : allOf.machine T) :
  exec (allOf.step n) (allOf.start None n) tr = Some m →
  Forall allOf_uncancelled tr →
  (allOf.returned m = None →
   allOf.panicked m = false ∧ allOf.ctx m = None ∧
   (∀ k vs, allOf.main m = allOf.Collecting k vs →
            k + length (chan.buf (allOf.resultCh m)) =
            length (filter (λ w, w = allOf.Gone) (allOf.workers m))) ∧
   ∃ ev, allOf_uncancelled ev ∧ is_Some (allOf.step n m ev)) ∧
  length tr ≤ 5 * n + 3.
Proof.
  intros Hexec Hok. split; [|by eapply allOf_bound].
  unfold allOf.returned. destruct (allOf.main m) as [k vs|] eqn:Hmain; [|done].
  intros _. pose proof (allOf_collector _ _ _ _ Hexec) as Hcol. rewrite Hmain in Hcol.
  destruct Hcol as (Hp & Hlen & _).
  pose proof (allOf_open _ _ _ _ _ _ Hexec Hmain) as Hopen.
  destruct (allOf_counting n _ _ _ _ Hexec Hok Hmain) as [Hctx Hcount].
  destruct (allOf_sizes _ _ _ _ Hexec) as (Hlw & Hla & Hcap).
  split_and!; [done..| |].
  { by intros ? ? [= <- <-]. }
  destruct (decide (k < n)) as [Hk|Hk].
  2:{ exists allOf.Collect. split; [done|]. unfold allOf.step, allOf.collect.
      rewrite Hp, Hmain. by rewrite bool_decide_eq_false_2. }
  destruct (chan.buf (allOf.resultCh m)) as [|x q] eqn:Hq.
  2:{ exists allOf.Collect. split; [done|]. unfold allOf.step, allOf.collect.
      rewrite Hp, Hmain. rewrite bool_decide_eq_true_2 by done.
      unfold chan.recv. rewrite Hq. simpl. destruct (Error _); [done|].
      by case_bool_decide. }
  simpl in Hcount.
  destruct (filter_length_lt (λ w, w = allOf.Gone) (allOf.workers m))
    as (i & w & Hi & Hw); [lia|].
  assert (i < n) as Hin by (apply lookup_lt_Some in Hi; lia).
  destruct w; [| |done].
  - exists (allOf.Dispatch i). split; [done|]. unfold allOf.step.
    rewrite Hp. simpl. by rewrite Hi.
  - destruct (allOf_selecting _ _ _ _ _ Hexec Hp Hi) as [Hc|[r Hc]];
      apply rCh_lookup in Hc as [fctx Hc].
    + exists (allOf.Deliver i zero). split; [done|].
      unfold allOf.step. rewrite Hp. simpl. rewrite Hc. simpl.
      by unfold Future.deliver, chan.send, chan.close.
    + exists (allOf.TakeResult i). split; [done|].
      unfold allOf.step. rewrite Hp. simpl. rewrite Hi, Hc.
      unfold chan.recv, chan.send. simpl. rewrite Hopen, Hq. simpl.
      rewrite bool_decide_eq_true_2 by lia. done.
Qed.

(** [Test_Future_AllOf_Error], before the loop has received the
    failure. *)
Lemma AllOf_never_stuck_uncancelled_witness :
  let failed := mkResult 0 (Some (Failure "something went wrong")) in
  let tr := [allOf.Dispatch 0; allOf.Dispatch 1; allOf.Deliver 1 failed;
             allOf.TakeResult 1] in
  ∃ m : allOf.machine nat,
    exec (allOf.step 2) (allOf.start None 2) tr = Some m ∧
    ((allOf.returned m = None →
      allOf.panicked m = false ∧ allOf.ctx m = None ∧
      (∀ k vs, allOf.main m = allOf.Collecting k vs →
               k + length (chan.buf (allOf.resultCh m)) =
               length (filter (λ w, w = allOf.Gone) (allOf.workers m))) ∧
      ∃ ev, allOf_uncancelled ev ∧ is_Some (allOf.step 2 m ev)) ∧
     length tr ≤ 5 * 2 + 3).
Proof.
  intros failed tr.
  assert (Forall allOf_uncancelled tr) as Hok.
  { subst tr. repeat (constructor; [simpl; done|]). constructor. }
  destruct (exec (allOf.step 2) (allOf.start None 2) tr) as [m|] eqn:Hexec;
    [|vm_compute in Hexec; discriminate Hexec].
  exists m. split; [reflexivity|].
  exact (AllOf_never_stuck_uncancelled 2 tr m Hexec Hok).
Defined.
